(** * The per-tick simulation core of the survival shooter (src/src/App.tsx)

    A shallow embedding of the React component [App]: its state cells, the
    effect that runs on every tick, the level-up effect, the upgrade
    selection handler, the mount effect and the one write of the render
    effect, followed by the properties the specification states about
    them.  An effect is a function from the state of the render it closes
    over to the state after its updates; the loops over the local arrays,
    which remove with [splice(i, 1); i--], are recursions over lists.

    Numbers.  A JavaScript number is an IEEE 754 binary64 value.  Positions,
    speeds, radii, ranges and angles are kept as primitive binary64 floats;
    the counters that the program only ever moves by whole steps (levels,
    health, damage, cooldowns, experience, the tick counter) are kept as
    unbounded integers, which is exact below 2^53.  The host's [Math.cos],
    [Math.sin], [Math.atan2] and [Math.pow] are implementation-approximated
    by the language standard and are taken from a [MathHost]; [Math.random]
    and [uuidv4] are taken from an [Oracle]. *)

From Stdlib Require Import ZArith Lia.
From Stdlib Require Import Floats.PrimFloat Floats.FloatOps Floats.SpecFloat.
From stdpp Require Import base gmap strings list pretty.

Set Warnings "-inexact-float".
Open Scope Z_scope.

(** ** Numbers *)

(** An integer seen as a binary64 number (round to nearest even). *)
Definition Z2float (z : Z) : float :=
  SF2Prim (binary_normalize prec emax z 0 false).

(** [Math.floor] of a finite number.  [Math.random] is finite, so the
    non-finite cases are never reached by the program; they are sent to 0. *)
Definition Math_floor (f : float) : Z :=
  match Prim2SF f with
  | S754_finite sgn m e =>
      let z := if sgn then Z.neg m else Z.pos m in
      if 0 <=? e then z * 2 ^ e else Z.shiftr z (- e)
  | _ => 0
  end.

Definition Math_PI : float := 3.141592653589793%float.

(** The part of [Math] that the language leaves to the implementation. *)
Class MathHost := {
  Math_cos : float -> float;
  Math_sin : float -> float;
  Math_atan2 : float -> float -> float;
  Math_pow : float -> float -> float
}.

(** The sources of non-determinism: the [n]-th call of [Math.random] and
    the [n]-th call of [uuidv4] made by one effect. *)
Record Oracle := mkOracle {
  Math_random : nat -> float;
  uuidv4 : nat -> string
}.

(** How many calls of each kind an effect has made so far. *)
Record Calls := mkCalls { nrandom : nat; nuuid : nat }.

Definition tookRandom (c : Calls) : Calls := mkCalls (S (nrandom c)) (nuuid c).
Definition tookUuid (c : Calls) : Calls := mkCalls (nrandom c) (S (nuuid c)).

(** [rand(min, max)] with the value [r] returned by its [Math.random()]. *)
Definition rand (lo hi : Z) (r : float) : Z :=
  Math_floor (r * Z2float (hi - lo + 1) + Z2float lo)%float.

(** ** Data model *)

Record CurrentMax := mkCurrentMax { current : Z; max : Z }.

Record Attack := mkAttack {
  damage : Z;
  cooldown : CurrentMax;
  range : float;
  attack_radius : float;
  projectileSpeed : float
}.

Record Stats := mkStats {
  level : Z;
  health : CurrentMax;
  speed : float;
  radius : float;
  attack : Attack
}.

Definition DEFAULT_STATS : Stats :=
  mkStats 1 (mkCurrentMax 1 1) 0.25%float 48%float
    (mkAttack 1 (mkCurrentMax 0 100) 30%float 10%float 3%float).

Inductive Face := FaceLeft | FaceRight.

Record Entity := mkEntity {
  uuid : string;
  name : string;
  stats : Stats;
  x : float;
  y : float;
  face : Face
}.

(** [entity(name, x, y, stats)]; the fresh id is the caller's [uuidv4()]. *)
Definition entity (id nm : string) (ex ey : float) (st : Stats) : Entity :=
  mkEntity id nm st ex ey FaceRight.

Record Projectile := mkProjectile {
  p_uuid : string;
  caster : string;
  startX : float;
  startY : float;
  p_x : float;
  p_y : float;
  p_damage : Z;
  angle : float;
  p_speed : float;
  p_radius : float;
  p_range : float;
  isPiercing : bool;
  entityHitCooldown : gmap string Z
}.

Definition projectile (id cst : string) (px py : float) (dmg : Z)
    (ang spd rad rng : float) (piercing : bool) : Projectile :=
  mkProjectile id cst px py px py dmg ang spd rad rng piercing ∅.

Inductive GroundItemType := Xp | Health | Item | Coin.

(** [value] is [string | number] in the source; every item the program
    makes carries a whole number. *)
Record GroundItem := mkGroundItem {
  g_uuid : string;
  g_type : GroundItemType;
  value : Z;
  g_x : float;
  g_y : float
}.

Definition groundItem (id : string) (ty : GroundItemType) (v : Z)
    (gx gy : float) : GroundItem :=
  mkGroundItem id ty v gx gy.

Inductive Rarity := Common | Rare | Unique.

Record Upgrade := mkUpgrade {
  u_id : string;
  u_name : string;
  description : string;
  rarity : Rarity;
  maxLevel : option Z;
  values : option (gmap string Z)
}.

Definition UPGRADES : list Upgrade := [
  mkUpgrade "attackRadius" "Attack Radius"
    "Increase the attack radius by {radius}" Common None
    (Some {[ "radius" := 8 ]});
  mkUpgrade "movementSpeed" "Movement Speed"
    "Increase the movement speed by {speed}" Common None
    (Some {[ "speed" := 25 ]});
  mkUpgrade "health" "Health"
    "Increase the health by {health}" Common None
    (Some {[ "health" := 10 ]});
  mkUpgrade "attackDamage" "Attack Damage"
    "Increase the attack damage by {damage}" Common None
    (Some {[ "damage" := 1 ]});
  mkUpgrade "attackSpeed" "Attack Speed"
    "Decrease the attack cooldown by {speed}" Common (Some 20)
    (Some {[ "speed" := 5 ]});
  mkUpgrade "piercing" "Piercing"
    "Projectiles pierce through enemies" Unique None None;
  mkUpgrade "lifeSteal" "Life Steal"
    "Heals {health} health per attack" Rare None
    (Some {[ "health" := 1 ]})
].

Definition getUpgradeById (id : string) : option Upgrade :=
  List.find (fun upgrade => String.eqb (u_id upgrade) id) UPGRADES.

(** ** Record updates *)

Definition set_current (f : Z -> Z) (cm : CurrentMax) : CurrentMax :=
  mkCurrentMax (f (current cm)) (max cm).
Definition set_max (f : Z -> Z) (cm : CurrentMax) : CurrentMax :=
  mkCurrentMax (current cm) (f (max cm)).

Definition set_damage (f : Z -> Z) (a : Attack) : Attack :=
  mkAttack (f (damage a)) (cooldown a) (range a) (attack_radius a)
    (projectileSpeed a).
Definition set_cooldown (f : CurrentMax -> CurrentMax) (a : Attack) : Attack :=
  mkAttack (damage a) (f (cooldown a)) (range a) (attack_radius a)
    (projectileSpeed a).
Definition set_attack_radius (f : float -> float) (a : Attack) : Attack :=
  mkAttack (damage a) (cooldown a) (range a) (f (attack_radius a))
    (projectileSpeed a).

Definition set_level (f : Z -> Z) (s : Stats) : Stats :=
  mkStats (f (level s)) (health s) (speed s) (radius s) (attack s).
Definition set_health (f : CurrentMax -> CurrentMax) (s : Stats) : Stats :=
  mkStats (level s) (f (health s)) (speed s) (radius s) (attack s).
Definition set_speed (f : float -> float) (s : Stats) : Stats :=
  mkStats (level s) (health s) (f (speed s)) (radius s) (attack s).
Definition set_attack (f : Attack -> Attack) (s : Stats) : Stats :=
  mkStats (level s) (health s) (speed s) (radius s) (f (attack s)).

Definition set_stats (f : Stats -> Stats) (e : Entity) : Entity :=
  mkEntity (uuid e) (name e) (f (stats e)) (x e) (y e) (face e).
Definition set_x (f : float -> float) (e : Entity) : Entity :=
  mkEntity (uuid e) (name e) (stats e) (f (x e)) (y e) (face e).
Definition set_y (f : float -> float) (e : Entity) : Entity :=
  mkEntity (uuid e) (name e) (stats e) (x e) (f (y e)) (face e).
Definition set_face (fc : Face) (e : Entity) : Entity :=
  mkEntity (uuid e) (name e) (stats e) (x e) (y e) fc.

(** [e.stats.health.current = f(e.stats.health.current)] *)
Definition set_health_current (f : Z -> Z) (e : Entity) : Entity :=
  set_stats (set_health (set_current f)) e.
(** [e.stats.attack.cooldown.current = f(e.stats.attack.cooldown.current)] *)
Definition set_cooldown_current (f : Z -> Z) (e : Entity) : Entity :=
  set_stats (set_attack (set_cooldown (set_current f))) e.

Definition health_current (e : Entity) : Z := current (health (stats e)).
Definition health_max (e : Entity) : Z := max (health (stats e)).
Definition cooldown_current (e : Entity) : Z :=
  current (cooldown (attack (stats e))).
Definition cooldown_max (e : Entity) : Z := max (cooldown (attack (stats e))).

Definition set_p_pos (px py : float) (p : Projectile) : Projectile :=
  mkProjectile (p_uuid p) (caster p) (startX p) (startY p) px py
    (p_damage p) (angle p) (p_speed p) (p_radius p) (p_range p)
    (isPiercing p) (entityHitCooldown p).
Definition set_entityHitCooldown (f : gmap string Z -> gmap string Z)
    (p : Projectile) : Projectile :=
  mkProjectile (p_uuid p) (caster p) (startX p) (startY p) (p_x p) (p_y p)
    (p_damage p) (angle p) (p_speed p) (p_radius p) (p_range p)
    (isPiercing p) (f (entityHitCooldown p)).

Definition set_g_pos (gx gy : float) (g : GroundItem) : GroundItem :=
  mkGroundItem (g_uuid g) (g_type g) (value g) gx gy.

(** ** Upgrade state

    [upgrades : Record<string, number>] is a JavaScript object whose own
    keys are enumerated in insertion order: an association list, with
    [upgrades[id]] the first (and, by construction, only) entry of a key. *)

Definition Upgrades := list (string * Z).

Fixpoint lookupUpgrade (upgrades : Upgrades) (id : string) : option Z :=
  match upgrades with
  | [] => None
  | (k, v) :: rest => if String.eqb k id then Some v else lookupUpgrade rest id
  end.

(** [{ ...upgrades, [id]: v }]: an existing key keeps its place. *)
Fixpoint assignUpgrade (upgrades : Upgrades) (id : string) (v : Z) : Upgrades :=
  match upgrades with
  | [] => [(id, v)]
  | (k, v0) :: rest =>
      if String.eqb k id then (k, v) :: rest
      else (k, v0) :: assignUpgrade rest id v
  end.

(** [upgrades[id] || 0] *)
Definition levelOf (upgrades : Upgrades) (id : string) : Z :=
  match lookupUpgrade upgrades id with
  | Some v => v
  | None => 0
  end.

(** [hasUpgrade(id)]: [upgrades[id] > 0], false on a missing key. *)
Definition hasUpgrade (upgrades : Upgrades) (id : string) : bool :=
  match lookupUpgrade upgrades id with
  | Some v => 0 <? v
  | None => false
  end.

(** ** Derived stats: the body of the [playerWithUpgrades] memo *)

(** [upgrade.values[key]]; the five entries the switch reads all have
    their key (lemma [switch_values_defined]). *)
Definition valueOf (upgrade : Upgrade) (key : string) : option Z :=
  match values upgrade with
  | Some vs => vs !! key
  | None => None
  end.

(** One iteration of the loop over [Object.entries(upgrades)]. *)
Definition applyUpgrade (newPlayer : Entity) (entry : string * Z) : Entity :=
  let '(upgradeId, lvl) := entry in
  match getUpgradeById upgradeId with
  | None => newPlayer
  | Some upgrade =>
      if String.eqb upgradeId "attackRadius" then
        match valueOf upgrade "radius" with
        | Some v =>
            set_stats (set_attack (set_attack_radius
              (fun r => (r + Z2float (v * lvl))%float))) newPlayer
        | None => newPlayer
        end
      else if String.eqb upgradeId "movementSpeed" then
        match valueOf upgrade "speed" with
        | Some v =>
            set_stats (set_speed
              (fun s => (s + Z2float (v * lvl) / 100)%float)) newPlayer
        | None => newPlayer
        end
      else if String.eqb upgradeId "health" then
        match valueOf upgrade "health" with
        | Some v =>
            set_stats (set_health (set_max (fun m => m + v * lvl))) newPlayer
        | None => newPlayer
        end
      else if String.eqb upgradeId "attackDamage" then
        match valueOf upgrade "damage" with
        | Some v =>
            set_stats (set_attack (set_damage (fun d => d + v * lvl))) newPlayer
        | None => newPlayer
        end
      else if String.eqb upgradeId "attackSpeed" then
        match valueOf upgrade "speed" with
        | Some v =>
            set_stats (set_attack (set_cooldown
              (set_max (fun m => m - v * lvl)))) newPlayer
        | None => newPlayer
        end
      else newPlayer
  end.

(** [structuredClone(player)] followed by the loop.  The clone is a value
    of its own, so the loop works on [newPlayer] and [player] is only read. *)
Definition playerWithUpgrades (player : Entity) (upgrades : Upgrades) : Entity :=
  let newPlayer := player in
  fold_left applyUpgrade upgrades newPlayer.

(** ** The component state *)

(** What one run of an effect reads from outside the component: the keys
    held down ([useWASD]) and the window size. *)
Record Env := mkEnv {
  key_w : bool;
  key_a : bool;
  key_s : bool;
  key_d : bool;
  innerWidth : float;
  innerHeight : float
}.

(** The [useState] cells of [App] and its two memos.  [effective] is the
    cached value of the [playerWithUpgrades] memo, recomputed when
    [upgrades] changes; [playerAngle] is the memo keyed on [mouse]. *)
Record World := mkWorld {
  player : Entity;
  enemies : list Entity;
  projectiles : list Projectile;
  groundItems : list GroundItem;
  upgrades : Upgrades;
  xp : Z;
  tick : Z;
  mouse_x : float;
  mouse_y : float;
  playerAngle : float;
  upgradeSelection : list string;
  effective : Entity
}.

Definition getMaxXp (w : World) : Z := level (stats (player w)) * 10.

(** The outcome of running code that may throw or loop. *)
Inductive Outcome (A : Type) :=
| Returned (a : A)
| Threw
| OutOfFuel.
Arguments Returned {A} a.
Arguments Threw {A}.
Arguments OutOfFuel {A}.

Section Simulation.

Context {host : MathHost}.

Definition distance (x1 y1 x2 y2 : float) : float :=
  PrimFloat.sqrt (Math_pow (x1 - x2) 2 + Math_pow (y1 - y2) 2)%float.

(** *** Controls *)
Definition controls (env : Env) (pwu newPlayer : Entity) : Entity :=
  let v := speed (stats pwu) in
  let p1 := if key_w env then set_y (fun c => (c - v)%float) newPlayer
            else newPlayer in
  let p2 := if key_a env then set_x (fun c => (c - v)%float) p1 else p1 in
  let p3 := if key_s env then set_y (fun c => (c + v)%float) p2 else p2 in
  if key_d env then set_x (fun c => (c + v)%float) p3 else p3.

(** *** Player auto attack *)
Definition playerAutoAttack (o : Oracle) (ups : Upgrades) (ang : float)
    (pwu newPlayer : Entity) (newProjectiles : list Projectile) (c : Calls)
  : Entity * list Projectile * Calls :=
  if cooldown_current newPlayer =? 0 then
    let shot :=
      projectile (uuidv4 o (nuuid c)) (uuid newPlayer)
        (x newPlayer + radius (stats pwu) * Math_cos ang)%float
        (y newPlayer + radius (stats pwu) * Math_sin ang)%float
        (damage (attack (stats pwu)))
        ang
        (projectileSpeed (attack (stats pwu)))
        (attack_radius (attack (stats pwu)))
        (range (attack (stats pwu)))
        (hasUpgrade ups "piercing") in
    (set_cooldown_current (fun _ => cooldown_max pwu) newPlayer,
     newProjectiles ++ [shot], tookUuid c)
  else
    (set_cooldown_current (fun cd => cd - 1) newPlayer, newProjectiles, c).

(** *** Process projectiles *)

Definition moveProjectile (p : Projectile) : Projectile :=
  set_p_pos (p_x p + Math_cos (angle p) * p_speed p)%float
            (p_y p + Math_sin (angle p) * p_speed p)%float p.

(** Reduce entityHitCooldown: every positive counter goes down by one. *)
Definition reduceEntityHitCooldown (p : Projectile) : Projectile :=
  set_entityHitCooldown
    (fmap (fun cd => if 0 <? cd then cd - 1 else cd)) p.

(** [distance <= enemy.stats.radius + projectile.radius] *)
Definition hitsEnemy (p : Projectile) (enemy : Entity) : bool :=
  (distance (p_x p) (p_y p) (x enemy) (y enemy)
     <=? radius (stats enemy) + p_radius p)%float.

(** [distance <= playerWithUpgrades.stats.radius + projectile.radius] *)
Definition hitsPlayer (pwu newPlayer : Entity) (p : Projectile) : bool :=
  (distance (p_x p) (p_y p) (x newPlayer) (y newPlayer)
     <=? radius (stats pwu) + p_radius p)%float.

(** [distance >= projectile.range], from the spawn point. *)
Definition outOfRange (p : Projectile) : bool :=
  (p_range p <=? distance (p_x p) (p_y p) (startX p) (startY p))%float.

(** [entityHitCooldown[uuid] === 0 || entityHitCooldown[uuid] === undefined] *)
Definition canHit (p : Projectile) (id : string) : bool :=
  match entityHitCooldown p !! id with
  | Some cd => cd =? 0
  | None => true
  end.

Definition processHit (lifeSteal : bool) (p : Projectile)
    (enemy newPlayer : Entity) : Entity * Entity :=
  (set_health_current (fun h => h - p_damage p) enemy,
   if lifeSteal then set_health_current (fun h => h + 1) newPlayer
   else newPlayer).

(** The loop over [newEnemies] for one player-cast projectile.  The last
    component is [continueLoop]: the projectile hit without piercing and
    was spliced out, and the enemies after the one it hit were not
    looked at. *)
Fixpoint damageEnemies (lifeSteal : bool) (p : Projectile)
    (es : list Entity) (newPlayer : Entity)
  : list Entity * Projectile * Entity * bool :=
  match es with
  | [] => ([], p, newPlayer, false)
  | enemy :: rest =>
      if hitsEnemy p enemy then
        if isPiercing p then
          if canHit p (uuid enemy) then
            let '(enemy', newPlayer') := processHit lifeSteal p enemy newPlayer in
            let p' := set_entityHitCooldown (insert (uuid enemy) 300) p in
            let '(rest', p'', newPlayer'', brk) :=
              damageEnemies lifeSteal p' rest newPlayer' in
            (enemy' :: rest', p'', newPlayer'', brk)
          else
            let '(rest', p', newPlayer', brk) :=
              damageEnemies lifeSteal p rest newPlayer in
            (enemy :: rest', p', newPlayer', brk)
        else
          let '(enemy', newPlayer') := processHit lifeSteal p enemy newPlayer in
          (enemy' :: rest, p, newPlayer', true)
      else
        let '(rest', p', newPlayer', brk) :=
          damageEnemies lifeSteal p rest newPlayer in
        (enemy :: rest', p', newPlayer', brk)
  end.

(** Remove projectile if out of range: [None] is the splice. *)
Definition rangeCheck (p : Projectile) : option Projectile :=
  if outOfRange p then None else Some p.

(** The body of the loop over [newProjectiles] for the projectile at
    index [i]: [None] when it was spliced out, [Some] with its new state
    when it stays in the list. *)
Definition processProjectile (lifeSteal : bool) (pwu : Entity)
    (p0 : Projectile) (es : list Entity) (newPlayer : Entity)
  : option Projectile * list Entity * Entity :=
  let p := reduceEntityHitCooldown (moveProjectile p0) in
  if String.eqb (caster p) (uuid newPlayer) then
    let '(es', p', newPlayer', continueLoop) :=
      damageEnemies lifeSteal p es newPlayer in
    if continueLoop then (None, es', newPlayer')
    else (rangeCheck p', es', newPlayer')
  else
    if hitsPlayer pwu newPlayer p then
      (None, es, set_health_current (fun h => h - 1) newPlayer)
    else (rangeCheck p, es, newPlayer).

(** [for (let i = 0; i < newProjectiles.length; i++)] with
    [splice(i, 1); i--] on removal: one pass over the list, in order,
    keeping the projectiles that were not spliced out. *)
Fixpoint processProjectiles (lifeSteal : bool) (pwu : Entity)
    (ps : list Projectile) (es : list Entity) (newPlayer : Entity)
  : list Projectile * list Entity * Entity :=
  match ps with
  | [] => ([], es, newPlayer)
  | p :: rest =>
      let '(kept, es', newPlayer') :=
        processProjectile lifeSteal pwu p es newPlayer in
      let '(rest', es'', newPlayer'') :=
        processProjectiles lifeSteal pwu rest es' newPlayer' in
      (match kept with Some p' => p' :: rest' | None => rest' end,
       es'', newPlayer'')
  end.

(** *** Process enemies *)

(** Drop XP or Health, with the value [r] of [Math.random()] and the id of
    the new item. *)
Definition dropItem (r : float) (id : string) (enemy : Entity) : GroundItem :=
  if (r <? 0.95)%float then
    groundItem id Xp (4 + level (stats enemy)) (x enemy) (y enemy)
  else
    groundItem id Health (level (stats enemy)) (x enemy) (y enemy).

(** Chase player if not in attack range. *)
Definition chase (ang : float) (enemy : Entity) : Entity :=
  let deltaX := (Math_cos ang * speed (stats enemy))%float in
  let e1 := set_x (fun c => (c + deltaX)%float) enemy in
  let e2 := set_y (fun c => (c + Math_sin ang * speed (stats enemy))%float) e1 in
  set_face (if (0 <? deltaX)%float then FaceRight else FaceLeft) e2.

(** Shoot projectile towards player, or wait for the cooldown.  The
    projectile, when there is one, is pushed on [newProjectiles]. *)
Definition enemyAttack (id : string) (ang : float) (enemy : Entity)
  : Entity * option Projectile :=
  if cooldown_current enemy =? 0 then
    (set_cooldown_current (fun _ => cooldown_max enemy) enemy,
     Some (projectile id (uuid enemy)
             (x enemy + radius (stats enemy) * Math_cos ang)%float
             (y enemy + radius (stats enemy) * Math_sin ang)%float
             (damage (attack (stats enemy)))
             ang
             (projectileSpeed (attack (stats enemy)))
             (attack_radius (attack (stats enemy)))
             (range (attack (stats enemy)))
             false))
  else
    (set_cooldown_current (fun cd => cd - 1) enemy, None).

(** The loop over [newEnemies]: the enemies that stay, the projectiles
    and the ground items pushed meanwhile, in the order of the pushes. *)
Fixpoint processEnemies (o : Oracle) (pwu newPlayer : Entity)
    (es : list Entity) (c : Calls)
  : list Entity * list Projectile * list GroundItem * Calls :=
  match es with
  | [] => ([], [], [], c)
  | enemy :: rest =>
      if health_current enemy <=? 0 then
        (* Remove enemy if dead *)
        let drop := dropItem (Math_random o (nrandom c)) (uuidv4 o (nuuid c))
                      enemy in
        let '(rest', shots, drops, c') :=
          processEnemies o pwu newPlayer rest (tookUuid (tookRandom c)) in
        (rest', shots, drop :: drops, c')
      else
        let ang := Math_atan2 (y newPlayer - y enemy)%float
                              (x newPlayer - x enemy)%float in
        let dist := (distance (x newPlayer) (y newPlayer) (x enemy) (y enemy)
                       - radius (stats pwu) - radius (stats enemy))%float in
        if (range (attack (stats enemy)) <? dist)%float then
          let '(rest', shots, drops, c') :=
            processEnemies o pwu newPlayer rest c in
          (chase ang enemy :: rest', shots, drops, c')
        else
          let '(enemy', shot) := enemyAttack (uuidv4 o (nuuid c)) ang enemy in
          let c1 := match shot with Some _ => tookUuid c | None => c end in
          let '(rest', shots, drops, c') :=
            processEnemies o pwu newPlayer rest c1 in
          (enemy' :: rest',
           match shot with Some s => s :: shots | None => shots end,
           drops, c')
  end.

(** *** Process ground items *)

(** The loop over [newGroundItems]: the items that stay, the player
    (whose health a pickup raises), and the sum of the amounts passed to
    [setXp((xp) => xp + value)]. *)
Fixpoint processGroundItems (pwu newPlayer : Entity) (gs : list GroundItem)
  : list GroundItem * Entity * Z :=
  match gs with
  | [] => ([], newPlayer, 0)
  | g :: rest =>
      let dist := distance (x newPlayer) (y newPlayer) (g_x g) (g_y g) in
      match g_type g with
      | Xp =>
          if (dist <=? 150 - radius (stats pwu))%float then
            let ang := Math_atan2 (y newPlayer - g_y g)%float
                                  (x newPlayer - g_x g)%float in
            let g' := set_g_pos (g_x g + Math_cos ang * 2)%float
                                (g_y g + Math_sin ang * 2)%float g in
            if (dist <=? radius (stats pwu))%float then
              let '(rest', newPlayer', gained) :=
                processGroundItems pwu newPlayer rest in
              (rest', newPlayer', value g + gained)
            else
              let '(rest', newPlayer', gained) :=
                processGroundItems pwu newPlayer rest in
              (g' :: rest', newPlayer', gained)
          else
            let '(rest', newPlayer', gained) :=
              processGroundItems pwu newPlayer rest in
            (g :: rest', newPlayer', gained)
      | Health =>
          if (dist <=? radius (stats pwu))%float then
            processGroundItems pwu
              (set_health_current (fun h => h + value g * 2) newPlayer) rest
          else
            let '(rest', newPlayer', gained) :=
              processGroundItems pwu newPlayer rest in
            (g :: rest', newPlayer', gained)
      | _ =>
          let '(rest', newPlayer', gained) :=
            processGroundItems pwu newPlayer rest in
          (g :: rest', newPlayer', gained)
      end
  end.

(** *** Spawn enemies *)

Definition names : list string := ["skeleton"; "goblin"; "eye"; "mushroom"].

(** The enemy pushed by the spawn check, from the two [Math.random()]
    values it draws and its [uuidv4()]. *)
Definition spawnedEnemy (r1 r2 : float) (id : string)
    (playerLevel : Z) (newPlayer : Entity) : Entity :=
  let randomAngle := (r1 * 2 * Math_PI)%float in
  let lvl := Z.max 1 (playerLevel + rand (-1) 1 r2) in
  let nm := default ""%string
              (names !! Z.to_nat (Z.rem (lvl / 4) (Z.of_nat (length names)))) in
  mkEntity id nm
    (mkStats lvl
       (mkCurrentMax (1 + lvl / 4) (1 + lvl / 4))
       (0.25 + 0.02 * Z2float lvl)%float
       (Z2float (48 + lvl / 16 * 16))
       (mkAttack (1 + lvl / 4)
          (mkCurrentMax 0 100)
          (Z2float (30 + lvl / 4 * 4))
          (Z2float (10 + lvl / 4 * 2))
          3%float))
    (x newPlayer + Math_sin randomAngle * 600)%float
    (y newPlayer + Math_cos randomAngle * 600)%float
    FaceRight.

(** [if (tick % 100 === 0) newEnemies.push(...)] *)
Definition spawnEnemies (o : Oracle) (tk : Z) (newPlayer : Entity)
    (newEnemies : list Entity) (c : Calls) : list Entity :=
  if Z.rem tk 100 =? 0 then
    newEnemies ++
      [spawnedEnemy (Math_random o (nrandom c)) (Math_random o (S (nrandom c)))
         (uuidv4 o (nuuid c)) (level (stats newPlayer)) newPlayer]
  else newEnemies.

(** *** The effect keyed on [tick] *)

(** The pipeline up to, and without, the final fixes: the four local
    arrays and the experience gained. *)
Definition pipeline (env : Env) (o : Oracle) (w : World)
  : Entity * list Entity * list Projectile * list GroundItem * Z :=
  let pwu := effective w in
  let lifeSteal := hasUpgrade (upgrades w) "lifeSteal" in
  let newPlayer := controls env pwu (player w) in
  let '(newPlayer, newProjectiles, c) :=
    playerAutoAttack o (upgrades w) (playerAngle w) pwu newPlayer
      (projectiles w) (mkCalls 0 0) in
  let '(newProjectiles, newEnemies, newPlayer) :=
    processProjectiles lifeSteal pwu newProjectiles (enemies w) newPlayer in
  let '(newEnemies, shots, drops, c) :=
    processEnemies o pwu newPlayer newEnemies c in
  let newProjectiles := newProjectiles ++ shots in
  let newGroundItems := groundItems w ++ drops in
  let '(newGroundItems, newPlayer, gained) :=
    processGroundItems pwu newPlayer newGroundItems in
  let newEnemies := spawnEnemies o (tick w) newPlayer newEnemies c in
  (newPlayer, newEnemies, newProjectiles, newGroundItems, gained).

(** Fixes: [Math.min(health.current, playerWithUpgrades.stats.health.max)] *)
Definition fixes (pwu newPlayer : Entity) : Entity :=
  set_health_current (fun h => Z.min h (health_max pwu)) newPlayer.

(** [mouse.x > window.innerWidth / 2 ? "right" : "left"] *)
Definition mouseFace (env : Env) (w : World) : Face :=
  if (innerWidth env / 2 <? mouse_x w)%float then FaceRight else FaceLeft.

Definition tickEffect (env : Env) (o : Oracle) (w : World) : World :=
  match upgradeSelection w with
  | _ :: _ => w
  | [] =>
      let '(newPlayer, newEnemies, newProjectiles, newGroundItems, gained) :=
        pipeline env o w in
      let newPlayer := fixes (effective w) newPlayer in
      mkWorld (set_face (mouseFace env w) newPlayer)
        newEnemies newProjectiles newGroundItems
        (upgrades w) (xp w + gained) (tick w)
        (mouse_x w) (mouse_y w) (playerAngle w)
        (upgradeSelection w) (effective w)
  end.

(** *** The effect keyed on [xp]: level up and draw the upgrades *)

(** JavaScript truthiness of [upgrades[id]] and of [upgrade.maxLevel]. *)
Definition truthy (v : option Z) : bool :=
  match v with
  | Some n => negb (n =? 0)
  | None => false
  end.

(** The callback of [UPGRADES.filter], run over a catalog in order.  A
    unique entry draws its [Math.random()] only when it was never chosen
    (the [&&] short-circuits); a rare entry always draws. *)
Fixpoint filterAvailable (o : Oracle) (ups : Upgrades)
    (catalog : list Upgrade) (c : Calls) : list Upgrade * Calls :=
  match catalog with
  | [] => ([], c)
  | upgrade :: rest =>
      let owned := lookupUpgrade ups (u_id upgrade) in
      match rarity upgrade with
      | Unique =>
          if negb (truthy owned) then
            let '(rest', c') := filterAvailable o ups rest (tookRandom c) in
            (if (Math_random o (nrandom c) <? 0.1)%float
             then upgrade :: rest' else rest', c')
          else filterAvailable o ups rest c
      | Rare =>
          let '(rest', c') := filterAvailable o ups rest (tookRandom c) in
          (if (Math_random o (nrandom c) <? 0.5)%float
           then upgrade :: rest' else rest', c')
      | Common =>
          let keep :=
            negb (truthy owned) || negb (truthy (maxLevel upgrade)) ||
            match owned, maxLevel upgrade with
            | Some l, Some m => l <? m
            | _, _ => false
            end in
          let '(rest', c') := filterAvailable o ups rest c in
          (if keep then upgrade :: rest' else rest', c')
      end
  end.

(** [randomUpgrades.includes(id)] *)
Definition includes (l : list string) (id : string) : bool :=
  existsb (String.eqb id) l.

(** [availableUpgrades[Math.floor(Math.random() * availableUpgrades.length)]];
    [None] is [undefined]. *)
Definition pick (r : float) (avail : list Upgrade) : option Upgrade :=
  let i := Math_floor (r * Z2float (Z.of_nat (length avail)))%float in
  if i <? 0 then None else avail !! Z.to_nat i.

(** [while (randomUpgrades.length < amount) { ... }]: one unit of fuel per
    iteration.  Reading [upgrade.id] of [undefined] throws. *)
Fixpoint drawLoop (fuel : nat) (o : Oracle) (avail : list Upgrade)
    (amount : nat) (randomUpgrades : list string) (c : Calls)
  : Outcome (list string) :=
  if (length randomUpgrades <? amount)%nat then
    match fuel with
    | O => OutOfFuel
    | S fuel' =>
        match pick (Math_random o (nrandom c)) avail with
        | None => Threw
        | Some upgrade =>
            if includes randomUpgrades (u_id upgrade) then
              drawLoop fuel' o avail amount randomUpgrades (tookRandom c)
            else
              drawLoop fuel' o avail amount
                (randomUpgrades ++ [u_id upgrade]) (tookRandom c)
        end
    end
  else Returned randomUpgrades.

Definition getRandomUpgrades (fuel : nat) (o : Oracle) (ups : Upgrades)
    (amount : nat) : Outcome (list string) :=
  let '(availableUpgrades, c) := filterAvailable o ups UPGRADES (mkCalls 0 0) in
  drawLoop fuel o availableUpgrades amount [] c.

(** The three state updates of a level up. *)
Definition levelUp (selection : list string) (w : World) : World :=
  mkWorld (set_stats (set_level (fun l => l + 1)) (player w))
    (enemies w) (projectiles w) (groundItems w)
    (upgrades w) 0 (tick w)
    (mouse_x w) (mouse_y w) (playerAngle w)
    selection (effective w).

Definition xpEffect (fuel : nat) (o : Oracle) (w : World) : Outcome World :=
  if getMaxXp w <=? xp w then
    match getRandomUpgrades fuel o (upgrades w) 3 with
    | Returned selection => Returned (levelUp selection w)
    | Threw => Threw
    | OutOfFuel => OutOfFuel
    end
  else Returned w.

(** *** The handlers *)

(** [selectUpgrade(id)]; the new [upgrades] object makes the
    [playerWithUpgrades] memo recompute from the current [player]. *)
Definition selectUpgrade (id : string) (w : World) : World :=
  let ups := assignUpgrade (upgrades w) id (levelOf (upgrades w) id + 1) in
  mkWorld (player w) (enemies w) (projectiles w) (groundItems w)
    ups (xp w) (tick w)
    (mouse_x w) (mouse_y w) (playerAngle w)
    [] (playerWithUpgrades (player w) ups).

(** Angle between screen center and mouse. *)
Definition angleOf (env : Env) (mx my : float) : float :=
  Math_atan2 (my - innerHeight env / 2)%float (mx - innerWidth env / 2)%float.

(** [handleMouseMove] *)
Definition mouseMove (env : Env) (mx my : float) (w : World) : World :=
  mkWorld (player w) (enemies w) (projectiles w) (groundItems w)
    (upgrades w) (xp w) (tick w)
    mx my (angleOf env mx my)
    (upgradeSelection w) (effective w).

(** *** The render effect

    Drawing reads the state; its one write is [enemies.sort((a, b) =>
    a.y - b.y)], which sorts the state array in place.  The sort is stable;
    with a [NaN] difference the comparator counts as 0. *)
Fixpoint insertByY (e : Entity) (sorted : list Entity) : list Entity :=
  match sorted with
  | [] => [e]
  | e' :: rest =>
      if (0 <? y e - y e')%float then e' :: insertByY e rest
      else e :: sorted
  end.

Definition sortByY (es : list Entity) : list Entity :=
  foldr insertByY [] es.

Definition renderEffect (w : World) : World :=
  mkWorld (player w) (sortByY (enemies w)) (projectiles w) (groundItems w)
    (upgrades w) (xp w) (tick w)
    (mouse_x w) (mouse_y w) (playerAngle w)
    (upgradeSelection w) (effective w).

(** *** One firing of the interval

    [setTick((tick) => tick + 1)], then the effects keyed on [tick] in the
    order of their declaration: the tick effect and the render effect.
    Both see the [enemies] array of the same render.  A tick that runs has
    copied the array and set the copy as the next state before the render
    effect sorts the old one, so the sort is lost; a tick that is paused
    leaves the array in the state, and the sort stays.  Then, when [xp]
    changed, the effect keyed on [xp] runs; it runs once more when it
    reset [xp] itself. *)
Definition setTick (w : World) : World :=
  mkWorld (player w) (enemies w) (projectiles w) (groundItems w)
    (upgrades w) (xp w) (tick w + 1)
    (mouse_x w) (mouse_y w) (playerAngle w)
    (upgradeSelection w) (effective w).

Definition interval (env : Env) (o : Oracle) (fuel : nat) (o1 o2 : Oracle)
    (w : World) : Outcome World :=
  let w1 :=
    match upgradeSelection w with
    | [] => tickEffect env o (setTick w)
    | _ :: _ => renderEffect (tickEffect env o (setTick w))
    end in
  if xp w1 =? xp w then Returned w1
  else
    match xpEffect fuel o1 w1 with
    | Returned w2 =>
        if xp w2 =? xp w1 then Returned w2 else xpEffect fuel o2 w2
    | Threw => Threw
    | OutOfFuel => OutOfFuel
    end.

(** *** Mount *)

Definition initialPlayer (id : string) : Entity :=
  entity id "player" 0%float 0%float
    (mkStats 1 (mkCurrentMax 10 10) 1%float 48%float
       (mkAttack 1 (mkCurrentMax 0 105) 200%float 16%float 2%float)).

(** The state of the first render. *)
Definition initialWorld (env : Env) (id : string) : World :=
  mkWorld (initialPlayer id) [] [] [] [] 0 0
    0%float 0%float (angleOf env 0%float 0%float)
    [] (playerWithUpgrades (initialPlayer id) []).

(** The ten skeletons of the mount effect; the [i]-th draws the [i]-th
    [Math.random()] and [uuidv4()] of that effect. *)
Definition initialEnemy (o : Oracle) (pl : Entity) (i : nat) : Entity :=
  let randomAngle := (Math_random o i * 2 * Math_PI)%float in
  entity (uuidv4 o i) "skeleton"
    (x pl + Math_sin randomAngle * 600)%float
    (y pl + Math_cos randomAngle * 600)%float
    DEFAULT_STATS.

Definition initialEnemies (o : Oracle) (pl : Entity) : list Entity :=
  List.map (initialEnemy o pl) (seq 0 10).

(** The effects of the first commit, in the order of their declaration:
    the effect keyed on [tick] (with [tick = 0]), then the mount effect,
    whose [setEnemies] is the later one and wins. *)
Definition mount (env : Env) (o oMount : Oracle) (id : string) : World :=
  let w0 := initialWorld env id in
  let w1 := tickEffect env o w0 in
  mkWorld (player w1) (initialEnemies oMount (player w0))
    (projectiles w1) (groundItems w1)
    (upgrades w1) (xp w1) (tick w1)
    (mouse_x w1) (mouse_y w1) (playerAngle w1)
    (upgradeSelection w1) (effective w1).

(** *** The states the running component goes through

    The upgrade buttons are rendered only for the ids of a non-empty
    [upgradeSelection], so [selectUpgrade] is called with one of them. *)
Inductive step : World -> World -> Prop :=
| step_interval env o fuel o1 o2 w w' :
    interval env o fuel o1 o2 w = Returned w' -> step w w'
| step_select id w :
    id ∈ upgradeSelection w -> step w (selectUpgrade id w)
| step_mouse env mx my w :
    step w (mouseMove env mx my w).

Inductive reachable : World -> Prop :=
| reachable_mount env o oMount id : reachable (mount env o oMount id)
| reachable_step w w' : reachable w -> step w w' -> reachable w'.

(** *** Following one projectile over several ticks

    [flight ticks p] runs the loop body on [p] once per tick, against the
    enemies and the player that each tick presents, and gives the state of
    the projectile if it is still in the list afterwards. *)
Fixpoint flight (lifeSteal : bool) (pwu : Entity)
    (ticks : list (list Entity * Entity)) (p : Projectile)
  : option Projectile :=
  match ticks with
  | [] => Some p
  | (es, pl) :: rest =>
      match processProjectile lifeSteal pwu p es pl with
      | (Some p', _, _) => flight lifeSteal pwu rest p'
      | (None, _, _) => None
      end
  end.

End Simulation.

(** ** Specification-level notions used by the statements *)

(** [0 <= cooldown.current <= cooldown.max] on one entity. *)
Definition cooldownInRange (e : Entity) : Prop :=
  0 <= cooldown_current e <= cooldown_max e.

(** The player's health respects the effective maximum. *)
Definition healthCapped (w : World) : Prop :=
  health_current (player w) <= health_max (effective w).

(** What [processHit] does to the enemy it is called for. *)
Definition damaged (p : Projectile) (enemy : Entity) : Entity :=
  set_health_current (fun h => h - p_damage p) enemy.

(** What [processHit] does to the player. *)
Definition lifeStolen (lifeSteal : bool) (pl : Entity) : Entity :=
  if lifeSteal then set_health_current (fun h => h + 1) pl else pl.

(** The counter a projectile keeps for the entity [id], if any. *)
Definition hitCooldownOf (p : Projectile) (id : string) : option Z :=
  entityHitCooldown p !! id.

(** The ids named by the first [n] picks of a draw that has made the
    calls [c] so far; [None] where the pick is [undefined]. *)
Definition picksOf (o : Oracle) (avail : list Upgrade)
    (c : Calls) (n : nat) : list (option string) :=
  (fun k => u_id <$> pick (Math_random o (nrandom c + k)) avail) <$> seq 0 n.

(** The test of the filter on a common entry:
    [!upgrades[id] || !maxLevel || upgrades[id] < maxLevel]. *)
Definition commonOpen (ups : Upgrades) (u : Upgrade) : bool :=
  negb (truthy (lookupUpgrade ups (u_id u)))
  || negb (truthy (maxLevel u))
  || match lookupUpgrade ups (u_id u), maxLevel u with
     | Some l, Some m => l <? m
     | _, _ => false
     end.

(** The player after the controls and the auto attack of a tick. *)
Definition afterAttack {host : MathHost} (env : Env) (o : Oracle)
    (w : World) : Entity :=
  (playerAutoAttack o (upgrades w) (playerAngle w) (effective w)
     (controls env (effective w) (player w)) (projectiles w)
     (mkCalls 0 0)).1.1.

(** What holds of every state the running component goes through. *)
Record consistent (w : World) : Prop := mkConsistent {
  keys_distinct : NoDup (upgrades w).*1;
  effective_health :
    health_max (effective w) =
      health_max (player w) + 10 * levelOf (upgrades w) "health";
  effective_cooldown :
    cooldown_max (effective w) =
      cooldown_max (player w) - 5 * levelOf (upgrades w) "attackSpeed";
  base_cooldown : cooldown_max (player w) = 105;
  attackSpeed_capped : 0 <= levelOf (upgrades w) "attackSpeed" <= 20;
  attackSpeed_offered :
    "attackSpeed" ∈ upgradeSelection w ->
    levelOf (upgrades w) "attackSpeed" < 20;
  health_capped : healthCapped w;
  player_cooldown : cooldownInRange (player w);
  enemies_cooldown : Forall cooldownInRange (enemies w)
}.

(** Recomputing the [playerWithUpgrades] memo from the stored state. *)
Definition recompute (w : World) : World :=
  mkWorld (player w) (enemies w) (projectiles w) (groundItems w)
    (upgrades w) (xp w) (tick w)
    (mouse_x w) (mouse_y w) (playerAngle w)
    (upgradeSelection w)
    (playerWithUpgrades (player w) (upgrades w)).

(** An entity with its current health overwritten. *)
Abbreviation hp h pl := (set_health_current (fun _ => h) pl) (only parsing).

(** Overwriting the player's current health, everything else kept. *)
Definition withHealth (h : Z) (w : World) : World :=
  mkWorld (set_health_current (fun _ => h) (player w))
    (enemies w) (projectiles w) (groundItems w)
    (upgrades w) (xp w) (tick w)
    (mouse_x w) (mouse_y w) (playerAngle w)
    (upgradeSelection w) (effective w).

(** ** Concrete data for the examples

    A host that is exact on the four axis directions, with the values the
    common engines return there, which is all that the examples below
    evaluate: the pointer sits at the centre of a window of size 0 (angle
    [atan2(0, 0) = 0]), every [Math.random()] returns 0, and [uuidv4]
    numbers its calls.  Squares are taken by multiplication. *)
Definition halfPI : float := 1.5707963267948966%float.

#[local] Instance axisHost : MathHost := {|
  Math_cos := fun a =>
    if (a =? 0)%float then 1%float
    else if (a =? Math_PI)%float then (-1)%float
    else if (a =? halfPI)%float || (a =? - halfPI)%float
         then 6.123233995736766e-17%float
    else 1%float;
  Math_sin := fun a =>
    if (a =? 0)%float then 0%float
    else if (a =? halfPI)%float then 1%float
    else if (a =? - halfPI)%float then (-1)%float
    else if (a =? Math_PI)%float then 1.2246467991473532e-16%float
    else 0%float;
  Math_atan2 := fun dy dx =>
    if (dy =? 0)%float then (if (dx <? 0)%float then Math_PI else 0%float)
    else if (dx =? 0)%float
         then (if (0 <? dy)%float then halfPI else (- halfPI)%float)
    else 0%float;
  Math_pow := fun b _ => (b * b)%float
|}.

Definition idleEnv : Env := mkEnv false false false false 0%float 0%float.

Definition uuidOfCall (prefix : string) (n : nat) : string :=
  prefix +:+ String (Ascii.ascii_of_nat (48 + n)) EmptyString.

Definition zeroOracle (prefix : string) : Oracle :=
  mkOracle (fun _ => 0%float) (uuidOfCall prefix).

Definition mountedWorld : World :=
  mount idleEnv (zeroOracle "t") (zeroOracle "m") "player".

(** The mounted world at tick 100 with a selection pending. *)
Definition pausedWorld : World :=
  mkWorld (player mountedWorld) (enemies mountedWorld)
    (projectiles mountedWorld) (groundItems mountedWorld)
    (upgrades mountedWorld) (xp mountedWorld) 100
    (mouse_x mountedWorld) (mouse_y mountedWorld) (playerAngle mountedWorld)
    ["attackRadius"; "health"; "attackDamage"] (effective mountedWorld).

(** A skeleton with the default stats, standing at [(ex, 0)]. *)
Definition skeletonAt (id : string) (ex : float) : Entity :=
  entity id "skeleton" ex 0%float DEFAULT_STATS.

(** A resting projectile of the player at the origin (speed 0, radius 16,
    range 200, damage 1) with the given piercing flag and counters. *)
Definition arrow (piercing : bool) (cds : gmap string Z) : Projectile :=
  mkProjectile "arrow" "player" 0%float 0%float 0%float 0%float 1
    0%float 0%float 16%float 200%float piercing cds.

(** A resting projectile of the enemy ["e1"] at the origin. *)
Definition bolt (id : string) : Projectile :=
  mkProjectile id "e1" 0%float 0%float 0%float 0%float 1
    0%float 0%float 10%float 30%float false ∅.

(** The mounted world with no enemy left, the player down to 1 health and
    reloading, and two enemy projectiles on top of the player. *)
Definition woundedWorld : World :=
  mkWorld
    (set_health_current (fun _ => 1) (player mountedWorld))
    [] [bolt "b1"; bolt "b2"] []
    (upgrades mountedWorld) (xp mountedWorld) 1
    (mouse_x mountedWorld) (mouse_y mountedWorld) (playerAngle mountedWorld)
    [] (effective mountedWorld).

(** The paused world after the health upgrade was chosen twice. *)
Definition upgradedWorld : World :=
  selectUpgrade "health" (selectUpgrade "health" pausedWorld).

(** The wounded world one and two ticks later. *)
Definition woundedWorld1 : World :=
  tickEffect idleEnv (zeroOracle "t") woundedWorld.
Definition woundedWorld2 : World :=
  tickEffect idleEnv (zeroOracle "t") woundedWorld1.

(** [Math.random()] returning 0, 1/8, 2/8, ... on its successive calls. *)
Definition stepOracle : Oracle :=
  mkOracle (fun n => (Z2float (Z.of_nat n) / 8)%float) (uuidOfCall "s").

(** ** Further code of the component *)

(** [getEnemyByUUID(uuid)], over the [enemies] of the render. *)
Definition getEnemyByUUID (es : list Entity) (id : string) : option Entity :=
  List.find (fun enemy => String.eqb (uuid enemy) id) es.

(** ** Further notions used by the statements *)

(** The keys that the switch of the [playerWithUpgrades] memo has a case
    for. *)
Definition switchKey (k : string) : bool :=
  String.eqb k "attackRadius" || String.eqb k "movementSpeed"
  || String.eqb k "health" || String.eqb k "attackDamage"
  || String.eqb k "attackSpeed".

(** The fields of an entity that no case of the switch assigns. *)
Definition outsideSwitch (e : Entity)
  : string * string * float * float * Face * Z * Z * float * Z * float * float :=
  (uuid e, name e, x e, y e, face e, level (stats e), health_current e,
   radius (stats e), cooldown_current e, range (attack (stats e)),
   projectileSpeed (attack (stats e))).

(** A projectile one step further along its angle, with some state of
    its counters. *)
Definition advanced {host : MathHost} (p0 p' : Projectile) : Prop :=
  exists m, p' = set_entityHitCooldown (fun _ => m) (moveProjectile p0).

(** An enemy after losing [d >= 0] health, nothing else changed. *)
Definition hurt (e e' : Entity) : Prop :=
  exists d, 0 <= d ∧ e' = set_health_current (fun h => h - d) e.

(** The sum of the current health of a list of enemies. *)
Definition totalHealth (es : list Entity) : Z :=
  foldr (fun e s => health_current e + s) 0 es.

(** Every counter of a projectile lies between 0 and 300. *)
Definition countersInRange (p : Projectile) : Prop :=
  map_Forall (fun _ cd => 0 <= cd <= 300) (entityHitCooldown p).

(** [n] attack steps of the player in a row, nothing else in between. *)
Fixpoint autoAttacks {host : MathHost} (n : nat) (o : Oracle) (ups : Upgrades) (ang : float)
    (pwu pl : Entity) (ps : list Projectile) (c : Calls)
  : Entity * list Projectile * Calls :=
  match n with
  | O => (pl, ps, c)
  | S n' =>
      let '(pl', ps', c') := playerAutoAttack o ups ang pwu pl ps c in
      autoAttacks n' o ups ang pwu pl' ps' c'
  end.

(** [enemy.stats.health.current <= 0] *)
Definition isDead (e : Entity) : bool := health_current e <=? 0.

(** The ground item that a dead enemy leaves: at its place, experience
    worth [4 + level] or health worth [level]. *)
Definition dropOf (e : Entity) (g : GroundItem) : Prop :=
  g_x g = x e ∧ g_y g = y e ∧
  ((g_type g = Xp ∧ value g = 4 + level (stats e)) ∨
   (g_type g = Health ∧ value g = level (stats e))).

(** What the enemy loop does to an enemy it keeps: it moves it, stats
    untouched, or it runs its attack step, position untouched. *)
Definition acted (e e' : Entity) : Prop :=
  (uuid e' = uuid e ∧ name e' = name e ∧ stats e' = stats e) ∨
  (exists f, e' = set_cooldown_current f e).

(** The tests of the ground item loop, for a player at the place of [pl]. *)
Definition reaches {host : MathHost} (pwu pl : Entity) (g : GroundItem)
  : bool :=
  (distance (x pl) (y pl) (g_x g) (g_y g) <=? radius (stats pwu))%float.

Definition attracts {host : MathHost} (pwu pl : Entity) (g : GroundItem)
  : bool :=
  (distance (x pl) (y pl) (g_x g) (g_y g) <=? 150 - radius (stats pwu))%float.

Definition xpCollected {host : MathHost} (pwu pl : Entity) (g : GroundItem)
  : bool :=
  match g_type g with
  | Xp => attracts pwu pl g && reaches pwu pl g
  | _ => false
  end.

Definition healthCollected {host : MathHost} (pwu pl : Entity)
    (g : GroundItem) : bool :=
  match g_type g with
  | Health => reaches pwu pl g
  | _ => false
  end.

(** An experience item pulled 2 units towards the player. *)
Definition pulled {host : MathHost} (pl : Entity) (g : GroundItem)
  : GroundItem :=
  let ang := Math_atan2 (y pl - g_y g)%float (x pl - g_x g)%float in
  set_g_pos (g_x g + Math_cos ang * 2)%float (g_y g + Math_sin ang * 2)%float g.

(** What is left on the ground of one item. *)
Definition groundStep {host : MathHost} (pwu pl : Entity) (g : GroundItem)
  : option GroundItem :=
  match g_type g with
  | Xp =>
      if attracts pwu pl g
      then (if reaches pwu pl g then None else Some (pulled pl g))
      else Some g
  | Health => if reaches pwu pl g then None else Some g
  | _ => Some g
  end.

Definition sumValues (gs : list GroundItem) : Z :=
  foldr (fun g s => value g + s) 0 gs.

(** Items of the kinds that the loop has no case for. *)
Definition isInert (g : GroundItem) : bool :=
  match g_type g with
  | Item | Coin => true
  | _ => false
  end.

(** The number of upgrades chosen so far. *)
Definition sumLevels (ups : Upgrades) : Z := foldr (fun e s => e.2 + s) 0 ups.

(** 1 while a selection is pending, 0 otherwise. *)
Definition pendingCount (w : World) : Z :=
  match upgradeSelection w with
  | [] => 0
  | _ :: _ => 1
  end.

(** A projectile as the component makes and keeps them. *)
Definition tidyProjectile (p : Projectile) : Prop :=
  countersInRange p ∧
  (isPiercing p = false -> entityHitCooldown p = ∅) ∧
  1 <= p_damage p.

(** An enemy as the component makes and keeps them. *)
Definition soundEnemy (e : Entity) : Prop :=
  1 <= level (stats e) ∧
  health_current e <= health_max e ∧
  1 <= health_max e ∧
  1 <= damage (attack (stats e)).

(** A ground item as the component makes and keeps them. *)
Definition soundItem (g : GroundItem) : Prop :=
  (g_type g = Xp ∨ g_type g = Health) ∧ 1 <= value g.

(** What holds of every state the running component goes through, beside
    [consistent]. *)
Record wellFormed (w : World) : Prop := mkWellFormed {
  wf_level : 1 <= level (stats (player w));
  wf_base_damage : 1 <= damage (attack (stats (player w)));
  wf_damage : 1 <= damage (attack (stats (effective w)));
  wf_selection :
    upgradeSelection w = [] ∨
    (length (upgradeSelection w) = 3%nat ∧ NoDup (upgradeSelection w) ∧
     forall id, id ∈ upgradeSelection w -> id ∈ u_id <$> UPGRADES);
  wf_offer_piercing :
    "piercing" ∈ upgradeSelection w -> levelOf (upgrades w) "piercing" = 0;
  wf_keys :
    forall k v, (k, v) ∈ upgrades w -> k ∈ u_id <$> UPGRADES ∧ 1 <= v;
  wf_piercing : levelOf (upgrades w) "piercing" <= 1;
  wf_chosen :
    sumLevels (upgrades w) + pendingCount w = level (stats (player w)) - 1;
  wf_projectiles : Forall tidyProjectile (projectiles w);
  wf_enemies : Forall soundEnemy (enemies w);
  wf_items : Forall soundItem (groundItems w);
  wf_xp : 0 <= xp w
}.

(** The experience is below the threshold of the level, and at 0 while a
    selection is pending. *)
Definition xpBelowThreshold (w : World) : Prop :=
  xp w < getMaxXp w ∧ (upgradeSelection w ≠ [] -> xp w = 0).

(** ** Inside a tick that runs

    The enemies as the projectile loop leaves them, the enemies that the
    enemy loop keeps, and the calls of [Math.random()] and [uuidv4()] made
    up to the spawn check. *)
Definition enemyPhase {host : MathHost} (env : Env) (o : Oracle) (w : World)
  : list Entity * list Entity * Calls :=
  let pwu := effective w in
  let '(pl1, ps1, c1) :=
    playerAutoAttack o (upgrades w) (playerAngle w) pwu
      (controls env pwu (player w)) (projectiles w) (mkCalls 0 0) in
  let '(_, es2, pl2) :=
    processProjectiles (hasUpgrade (upgrades w) "lifeSteal") pwu ps1
      (enemies w) pl1 in
  let '(es3, _, _, c3) := processEnemies o pwu pl2 es2 c1 in
  (es2, es3, c3).

Definition struck {host : MathHost} (env : Env) (o : Oracle) (w : World)
  : list Entity := (enemyPhase env o w).1.1.

Definition survivors {host : MathHost} (env : Env) (o : Oracle) (w : World)
  : list Entity := (enemyPhase env o w).1.2.

Definition spawnCalls {host : MathHost} (env : Env) (o : Oracle) (w : World)
  : Calls := (enemyPhase env o w).2.

(** The enemy that the spawn check of this tick makes: from the next two
    [Math.random()] values and the next [uuidv4()], at the player's level,
    600 away from where the tick leaves the player. *)
Definition spawned {host : MathHost} (env : Env) (o : Oracle) (w : World)
  : Entity :=
  spawnedEnemy
    (Math_random o (nrandom (spawnCalls env o w)))
    (Math_random o (S (nrandom (spawnCalls env o w))))
    (uuidv4 o (nuuid (spawnCalls env o w)))
    (level (stats (player w)))
    (player (tickEffect env o w)).

(** ** A run with a level-up

    A host that takes a direction within 1e-12 of an axis for that axis,
    knows the cosine and the sine of the four axis directions as
    [axisHost] does, and answers [other] to anything else.  In the run
    below the ten skeletons of the mount effect and the enemies of the
    spawn check stand straight below the player, who aims and walks
    down. *)
Definition snapHostWith (other : float) : MathHost := {|
  Math_cos := fun a =>
    if (a =? 0)%float then 1%float
    else if (a =? Math_PI)%float then (-1)%float
    else if (a =? halfPI)%float || (a =? - halfPI)%float
         then 6.123233995736766e-17%float
    else other;
  Math_sin := fun a =>
    if (a =? 0)%float then 0%float
    else if (a =? halfPI)%float then 1%float
    else if (a =? - halfPI)%float then (-1)%float
    else if (a =? Math_PI)%float then 1.2246467991473532e-16%float
    else other;
  Math_atan2 := fun dy dx =>
    if (abs dy <=? abs dx * 1e-12)%float
    then (if (dx <? 0)%float then Math_PI else 0%float)
    else if (abs dx <=? abs dy * 1e-12)%float
         then (if (0 <? dy)%float then halfPI else (- halfPI)%float)
    else other;
  Math_pow := fun b _ => (b * b)%float
|}.

Definition snapHost : MathHost := snapHostWith 0%float.

(** The key [s] held down, in a window of size 0. *)
Definition walkEnv : Env := mkEnv false false true false 0%float 0%float.

(** The oracle of the tick effect of one firing: every [Math.random()]
    returns 0, and the ids carry the number of the tick. *)
Definition oracleAt (w : World) : Oracle :=
  mkOracle (fun _ => 0%float) (uuidOfCall (pretty (tick w) +:+ "-")).

(** The oracle of the level-up: both filter draws pass, and the picks
    name the entries 5, 1 and 2 of the seven eligible ones. *)
Definition drawOracle : Oracle :=
  mkOracle (fun n => nth n [0; 0.125; 0.75; 0.25; 0.375]%float 0%float)
    (uuidOfCall "x").

(** One firing of the interval; a firing that does not return leaves the
    state where it was. *)
Definition fireOn (host : MathHost) (env : Env) (w : World) : World :=
  match interval (host := host) env (oracleAt w) 3
          drawOracle drawOracle w with
  | Returned w' => w'
  | _ => w
  end.

(** The mounted component with the pointer moved straight below the
    centre of the window, and [n] firings of the interval from there with
    [s] held down: the player shoots two skeletons on the way and walks
    over what they dropped. *)
Definition walkedOn (host : MathHost) (n : nat) : World :=
  Nat.iter n (fireOn host walkEnv)
    (mouseMove (host := host) idleEnv 0%float 1%float
       (mount (host := host) idleEnv (zeroOracle "t") (zeroOracle "m")
          "player")).

Definition fire (env : Env) (w : World) : World := fireOn snapHost env w.
Definition walked (n : nat) : World := walkedOn snapHost n.

(** After 436 firings the second experience item is collected and three
    upgrades are offered; then "piercing" is chosen. *)
Definition pendingWorld : World := walked 436.
Definition chosenWorld : World := selectUpgrade "piercing" pendingWorld.

(** ** The [playerWithUpgrades] memo on the object graph

    In the source [player] is a reference: the entity object refers to its
    [stats] object, which refers to its [health] and [attack] objects, and
    the latter to its [cooldown] object, five objects in all.  The store
    is a list of objects, a reference is an index into it, an allocation
    appends, and an assignment to a field overwrites the object at its
    index.  [None] stands for the [TypeError] of reading a field of
    something that is not there. *)
Abbreviation Loc := nat (only parsing).

Inductive Obj :=
| OEntity (id nm : string) (st : Loc) (px py : float) (fc : Face)
| OStats (lvl : Z) (hl : Loc) (spd rad : float) (atk : Loc)
| OCurrentMax (cur mx : Z)
| OAttack (dmg : Z) (cd : Loc) (rng arad pspd : float).

Abbreviation Heap := (list Obj) (only parsing).

Definition alloc (o : Obj) (h : Heap) : Heap * Loc := (h ++ [o], length h).

(** The entity that a reference stands for. *)
Definition readCurrentMax (h : Heap) (l : Loc) : option CurrentMax :=
  match h !! l with
  | Some (OCurrentMax c m) => Some (mkCurrentMax c m)
  | _ => None
  end.

Definition readAttack (h : Heap) (l : Loc) : option Attack :=
  match h !! l with
  | Some (OAttack d cd r ar ps) =>
      match readCurrentMax h cd with
      | Some cm => Some (mkAttack d cm r ar ps)
      | None => None
      end
  | _ => None
  end.

Definition readStats (h : Heap) (l : Loc) : option Stats :=
  match h !! l with
  | Some (OStats lv hl sp rd atk) =>
      match readCurrentMax h hl, readAttack h atk with
      | Some hcm, Some a => Some (mkStats lv hcm sp rd a)
      | _, _ => None
      end
  | _ => None
  end.

Definition readEntity (h : Heap) (l : Loc) : option Entity :=
  match h !! l with
  | Some (OEntity id nm st px py fc) =>
      match readStats h st with
      | Some s => Some (mkEntity id nm s px py fc)
      | None => None
      end
  | _ => None
  end.

(** [player.stats], [player.stats.health], [player.stats.attack] and
    [player.stats.attack.cooldown] as references. *)
Definition statsRef (h : Heap) (p : Loc) : option Loc :=
  match h !! p with
  | Some (OEntity _ _ st _ _ _) => Some st
  | _ => None
  end.

Definition healthRef (h : Heap) (p : Loc) : option Loc :=
  match statsRef h p with
  | Some st =>
      match h !! st with
      | Some (OStats _ hl _ _ _) => Some hl
      | _ => None
      end
  | None => None
  end.

Definition attackRef (h : Heap) (p : Loc) : option Loc :=
  match statsRef h p with
  | Some st =>
      match h !! st with
      | Some (OStats _ _ _ _ atk) => Some atk
      | _ => None
      end
  | None => None
  end.

Definition cooldownRef (h : Heap) (p : Loc) : option Loc :=
  match attackRef h p with
  | Some atk =>
      match h !! atk with
      | Some (OAttack _ cd _ _ _) => Some cd
      | _ => None
      end
  | None => None
  end.

(** [structuredClone(player)]: a deep copy, every object of the graph
    allocated anew.  [structuredClone] keeps sharing: an object that is
    met a second time is not copied again, the copy made before is used.
    In a graph of this shape only the two [{current, max}] objects can be
    one and the same object; [seen] is the [health] object with its copy,
    which is made first. *)
Definition cloneCurrentMax (h : Heap) (l : Loc) : option (Heap * Loc) :=
  match h !! l with
  | Some (OCurrentMax c m) => Some (alloc (OCurrentMax c m) h)
  | _ => None
  end.

Definition cloneAttack (h : Heap) (seen : Loc * Loc) (l : Loc)
  : option (Heap * Loc) :=
  match h !! l with
  | Some (OAttack d cd r ar ps) =>
      if (cd =? seen.1)%nat then Some (alloc (OAttack d seen.2 r ar ps) h)
      else
        match cloneCurrentMax h cd with
        | Some (h1, cd') => Some (alloc (OAttack d cd' r ar ps) h1)
        | None => None
        end
  | _ => None
  end.

Definition cloneStats (h : Heap) (l : Loc) : option (Heap * Loc) :=
  match h !! l with
  | Some (OStats lv hl sp rd atk) =>
      match cloneCurrentMax h hl with
      | Some (h1, hl') =>
          match cloneAttack h1 (hl, hl') atk with
          | Some (h2, atk') => Some (alloc (OStats lv hl' sp rd atk') h2)
          | None => None
          end
      | None => None
      end
  | _ => None
  end.

Definition structuredClone (h : Heap) (l : Loc) : option (Heap * Loc) :=
  match h !! l with
  | Some (OEntity id nm st px py fc) =>
      match cloneStats h st with
      | Some (h1, st') => Some (alloc (OEntity id nm st' px py fc) h1)
      | None => None
      end
  | _ => None
  end.

(** The five assignments of the switch. *)
(** [newPlayer.stats.attack.radius += v] *)
Definition addAttackRadius (v : float) (h : Heap) (p : Loc) : option Heap :=
  match attackRef h p with
  | Some atk =>
      match h !! atk with
      | Some (OAttack d cd r ar ps) =>
          Some (<[atk := OAttack d cd r (ar + v)%float ps]> h)
      | _ => None
      end
  | None => None
  end.

(** [newPlayer.stats.speed += v] *)
Definition addSpeed (v : float) (h : Heap) (p : Loc) : option Heap :=
  match statsRef h p with
  | Some st =>
      match h !! st with
      | Some (OStats lv hl sp rd atk) =>
          Some (<[st := OStats lv hl (sp + v)%float rd atk]> h)
      | _ => None
      end
  | None => None
  end.

(** [newPlayer.stats.health.max += v] *)
Definition addHealthMax (v : Z) (h : Heap) (p : Loc) : option Heap :=
  match healthRef h p with
  | Some hl =>
      match h !! hl with
      | Some (OCurrentMax c m) => Some (<[hl := OCurrentMax c (m + v)]> h)
      | _ => None
      end
  | None => None
  end.

(** [newPlayer.stats.attack.damage += v] *)
Definition addDamage (v : Z) (h : Heap) (p : Loc) : option Heap :=
  match attackRef h p with
  | Some atk =>
      match h !! atk with
      | Some (OAttack d cd r ar ps) =>
          Some (<[atk := OAttack (d + v) cd r ar ps]> h)
      | _ => None
      end
  | None => None
  end.

(** [newPlayer.stats.attack.cooldown.max -= v] *)
Definition subCooldownMax (v : Z) (h : Heap) (p : Loc) : option Heap :=
  match cooldownRef h p with
  | Some cd =>
      match h !! cd with
      | Some (OCurrentMax c m) => Some (<[cd := OCurrentMax c (m - v)]> h)
      | _ => None
      end
  | None => None
  end.

(** One iteration of the loop over [Object.entries(upgrades)], on the
    object that [newPlayer] refers to.  As in [applyUpgrade], the five
    entries the switch reads all have their key (lemma
    [switch_values_defined]), so the [None] branches of [valueOf] are
    never taken. *)
Definition upgradeStep (newPlayer : Loc) (h : Heap) (entry : string * Z)
  : option Heap :=
  let '(upgradeId, lvl) := entry in
  match getUpgradeById upgradeId with
  | None => Some h
  | Some upgrade =>
      if String.eqb upgradeId "attackRadius" then
        match valueOf upgrade "radius" with
        | Some v => addAttackRadius (Z2float (v * lvl)) h newPlayer
        | None => Some h
        end
      else if String.eqb upgradeId "movementSpeed" then
        match valueOf upgrade "speed" with
        | Some v => addSpeed (Z2float (v * lvl) / 100)%float h newPlayer
        | None => Some h
        end
      else if String.eqb upgradeId "health" then
        match valueOf upgrade "health" with
        | Some v => addHealthMax (v * lvl) h newPlayer
        | None => Some h
        end
      else if String.eqb upgradeId "attackDamage" then
        match valueOf upgrade "damage" with
        | Some v => addDamage (v * lvl) h newPlayer
        | None => Some h
        end
      else if String.eqb upgradeId "attackSpeed" then
        match valueOf upgrade "speed" with
        | Some v => subCooldownMax (v * lvl) h newPlayer
        | None => Some h
        end
      else Some h
  end.

Fixpoint upgradeLoop (newPlayer : Loc) (h : Heap) (ups : Upgrades)
  : option Heap :=
  match ups with
  | [] => Some h
  | entry :: rest =>
      match upgradeStep newPlayer h entry with
      | Some h' => upgradeLoop newPlayer h' rest
      | None => None
      end
  end.

(** The body of the memo: the store it leaves and the reference it
    returns. *)
Definition memoBody (h : Heap) (player : Loc) (ups : Upgrades)
  : option (Heap * Loc) :=
  match structuredClone h player with
  | Some (h1, newPlayer) =>
      match upgradeLoop newPlayer h1 ups with
      | Some h2 => Some (h2, newPlayer)
      | None => None
      end
  | None => None
  end.

(** The five objects of an entity, laid out from index [n] on in the
    order in which [structuredClone] allocates them. *)
Definition layout (e : Entity) (n : nat) : list Obj :=
  [OCurrentMax (health_current e) (health_max e);
   OCurrentMax (cooldown_current e) (cooldown_max e);
   OAttack (damage (attack (stats e))) (n + 1)%nat
     (range (attack (stats e))) (attack_radius (attack (stats e)))
     (projectileSpeed (attack (stats e)));
   OStats (level (stats e)) n (speed (stats e)) (radius (stats e)) (n + 2)%nat;
   OEntity (uuid e) (name e) (n + 3)%nat (x e) (y e) (face e)].

(** The [health] and the [cooldown] of the entity are two objects, as
    they are in every player that the component makes. *)
Definition unshared (h : Heap) (p : Loc) : Prop :=
  healthRef h p ≠ cooldownRef h p.

(** A store that holds the initial player as its only entity, and one
    in which that player's [cooldown] is the very object of its
    [health]. *)
Definition storedPlayer : list Obj := layout (initialPlayer "player") 0.

Definition sharedPlayer : list Obj :=
  [OCurrentMax 10 10;
   OAttack 1 0 200%float 16%float 2%float;
   OStats 1 0 1%float 48%float 1;
   OEntity "player" "player" 2 0%float 0%float FaceRight].

(** * Properties *)

Section Properties.

Context {host : MathHost}.

(** Closes the case of [applyUpgrade] on a key [k] that the hypothesis
    [E] identifies, given the equation [H] of the switch for that key. *)
Ltac known_key E H k :=
  apply String.eqb_eq in E; subst k; rewrite H;
  repeat match goal with
         | |- context [String.eqb ?a ?b] =>
             let r := eval vm_compute in (String.eqb a b) in
             change (String.eqb a b) with r
         end;
  unfold health_max, cooldown_max; simpl; lia.

(** ** Records *)

Lemma set_health_current_same (e : Entity) :
  set_health_current (fun _ => health_current e) e = e.
Proof. destruct e as [? ? [? [? ?] ? ? ?] ? ? ?]; reflexivity. Qed.

Lemma set_face_same (e : Entity) : set_face (face e) e = e.
Proof. destruct e; reflexivity. Qed.

(** ** The association list of upgrade levels *)

Lemma lookup_assign_eq (ups : Upgrades) id v :
  lookupUpgrade (assignUpgrade ups id v) id = Some v.
Proof.
  induction ups as [|[k v0] rest IH]; simpl.
  - by rewrite String.eqb_refl.
  - destruct (String.eqb k id) eqn:E; simpl; rewrite E; [done | apply IH].
Qed.

Lemma lookup_assign_ne (ups : Upgrades) id id' v :
  id' ≠ id ->
  lookupUpgrade (assignUpgrade ups id v) id' = lookupUpgrade ups id'.
Proof.
  intros Hne. induction ups as [|[k v0] rest IH]; simpl.
  - destruct (String.eqb id id') eqn:E; [|done].
    apply String.eqb_eq in E. congruence.
  - destruct (String.eqb k id) eqn:E; simpl.
    + apply String.eqb_eq in E. subst k.
      destruct (String.eqb id id') eqn:E'; [|done].
      apply String.eqb_eq in E'. congruence.
    + by rewrite IH.
Qed.

Lemma levelOf_assign_eq (ups : Upgrades) id v :
  levelOf (assignUpgrade ups id v) id = v.
Proof. unfold levelOf. by rewrite lookup_assign_eq. Qed.

Lemma levelOf_assign_ne (ups : Upgrades) id id' v :
  id' ≠ id -> levelOf (assignUpgrade ups id v) id' = levelOf ups id'.
Proof. intros. unfold levelOf. by rewrite lookup_assign_ne. Qed.

Lemma assign_keys_in (ups : Upgrades) id v :
  id ∈ ups.*1 -> (assignUpgrade ups id v).*1 = ups.*1.
Proof.
  induction ups as [|[k v0] rest IH]; intros Hin.
  - by apply elem_of_nil in Hin.
  - cbn [assignUpgrade]. destruct (String.eqb k id) eqn:E; [reflexivity|].
    apply String.eqb_neq in E. rewrite !fmap_cons. cbn [fst]. f_equal.
    apply IH. rewrite fmap_cons in Hin. cbn [fst] in Hin.
    apply elem_of_cons in Hin as [->|]; done.
Qed.

Lemma assign_keys_notin (ups : Upgrades) id v :
  id ∉ ups.*1 -> (assignUpgrade ups id v).*1 = ups.*1 ++ [id].
Proof.
  induction ups as [|[k v0] rest IH]; intros Hnin; [reflexivity|].
  rewrite fmap_cons in Hnin. cbn [fst] in Hnin.
  apply not_elem_of_cons in Hnin as [Hne Hnin].
  cbn [assignUpgrade]. destruct (String.eqb k id) eqn:E.
  - apply String.eqb_eq in E. congruence.
  - rewrite !fmap_cons. cbn [fst]. by rewrite IH.
Qed.

Lemma assign_NoDup (ups : Upgrades) id v :
  NoDup ups.*1 -> NoDup (assignUpgrade ups id v).*1.
Proof.
  intros Hnd. destruct (decide (id ∈ ups.*1)) as [Hin|Hnin].
  - by rewrite assign_keys_in.
  - rewrite assign_keys_notin by done.
    apply NoDup_app. split_and!; [done | | apply NoDup_singleton].
    intros k Hk Hk'. apply list_elem_of_singleton in Hk'. by subst.
Qed.

Lemma lookup_not_key (ups : Upgrades) id :
  id ∉ ups.*1 -> lookupUpgrade ups id = None.
Proof.
  induction ups as [|[k v] rest IH]; simpl; [done|].
  intros Hnin. apply not_elem_of_cons in Hnin as [Hne Hnin].
  destruct (String.eqb k id) eqn:E; [|by apply IH].
  apply String.eqb_eq in E. congruence.
Qed.

(** ** C8: a tick while a selection is pending *)

Lemma insertByY_Permutation e (l : list Entity) : insertByY e l ≡ₚ e :: l.
Proof.
  induction l as [|e' rest IH]; simpl; [done|].
  destruct (_ <? _)%float; [|done].
  rewrite IH. apply Permutation_swap.
Qed.

Lemma sortByY_Permutation (l : list Entity) : sortByY l ≡ₚ l.
Proof.
  induction l as [|e rest IH]; simpl; [done|].
  rewrite insertByY_Permutation. by f_equiv.
Qed.

(** C8.  While [upgradeSelection] is non-empty the effect keyed on [tick]
    returns at its first line: it hands back the very same state.  A whole
    firing of the interval then changes the tick counter and, through the
    sort of the render effect, the order of the enemy list, and nothing
    else: the player, every enemy, the projectiles, the ground items, the
    experience, the upgrade levels and the selection are as before. *)
Theorem paused_tick_changes_nothing env o fuel o1 o2 (w : World) :
  upgradeSelection w ≠ [] ->
  tickEffect env o w = w ∧
  exists w',
    interval env o fuel o1 o2 w = Returned w' ∧
    player w' = player w ∧
    enemies w' ≡ₚ enemies w ∧
    projectiles w' = projectiles w ∧
    groundItems w' = groundItems w ∧
    xp w' = xp w ∧
    upgrades w' = upgrades w ∧
    upgradeSelection w' = upgradeSelection w ∧
    effective w' = effective w.
Proof.
  intros Hsel.
  assert (Hpause : forall v, upgradeSelection v ≠ [] -> tickEffect env o v = v).
  { intros v Hv. unfold tickEffect. by destruct (upgradeSelection v). }
  split; [by apply Hpause|].
  exists (renderEffect (setTick w)). split.
  - unfold interval. rewrite (Hpause (setTick w)) by done.
    destruct (upgradeSelection w); [done|]. simpl. by rewrite Z.eqb_refl.
  - split_and!; try done. apply sortByY_Permutation.
Qed.

(** ** Deriving the effective stats *)

(** The five entries the switch reads have the value it asks for. *)
Lemma switch_values_defined acc v :
  applyUpgrade acc ("attackRadius"%string, v) =
    set_stats (set_attack (set_attack_radius
      (fun r => (r + Z2float (8 * v))%float))) acc ∧
  applyUpgrade acc ("movementSpeed"%string, v) =
    set_stats (set_speed (fun s => (s + Z2float (25 * v) / 100)%float)) acc ∧
  applyUpgrade acc ("health"%string, v) =
    set_stats (set_health (set_max (fun m => m + 10 * v))) acc ∧
  applyUpgrade acc ("attackDamage"%string, v) =
    set_stats (set_attack (set_damage (fun d => d + 1 * v))) acc ∧
  applyUpgrade acc ("attackSpeed"%string, v) =
    set_stats (set_attack (set_cooldown (set_max (fun m => m - 5 * v)))) acc.
Proof. split_and!; reflexivity. Qed.

(** Any other key, known to the catalog or not, changes nothing. *)
Lemma applyUpgrade_other acc k v :
  String.eqb k "attackRadius" = false ->
  String.eqb k "movementSpeed" = false ->
  String.eqb k "health" = false ->
  String.eqb k "attackDamage" = false ->
  String.eqb k "attackSpeed" = false ->
  applyUpgrade acc (k, v) = acc.
Proof.
  intros E1 E2 E3 E4 E5. unfold applyUpgrade.
  rewrite E1, E2, E3, E4, E5. by destruct (getUpgradeById k).
Qed.

Lemma applyUpgrade_maxima acc k v :
  health_max (applyUpgrade acc (k, v)) =
    health_max acc + (if String.eqb k "health" then 10 * v else 0) ∧
  damage (attack (stats (applyUpgrade acc (k, v)))) =
    damage (attack (stats acc))
      + (if String.eqb k "attackDamage" then 1 * v else 0) ∧
  cooldown_max (applyUpgrade acc (k, v)) =
    cooldown_max acc - (if String.eqb k "attackSpeed" then 5 * v else 0).
Proof.
  destruct (switch_values_defined acc v) as (H1 & H2 & H3 & H4 & H5).
  destruct (String.eqb k "attackRadius") eqn:E1; [known_key E1 H1 k|].
  destruct (String.eqb k "movementSpeed") eqn:E2; [known_key E2 H2 k|].
  destruct (String.eqb k "health") eqn:E3; [known_key E3 H3 k|].
  destruct (String.eqb k "attackDamage") eqn:E4; [known_key E4 H4 k|].
  destruct (String.eqb k "attackSpeed") eqn:E5; [known_key E5 H5 k|].
  rewrite applyUpgrade_other by done. lia.
Qed.

Lemma levelOf_not_key (ups : Upgrades) id :
  id ∉ ups.*1 -> levelOf ups id = 0.
Proof. intros H. unfold levelOf. by rewrite lookup_not_key. Qed.

Lemma levelOf_cons k v (rest : Upgrades) id :
  levelOf ((k, v) :: rest) id =
    if String.eqb k id then v else levelOf rest id.
Proof. unfold levelOf. simpl. by destruct (String.eqb k id). Qed.

(** Each level counts once: the derived value is the base value plus the
    per-level amount times the level, whatever the order of the keys. *)
Lemma playerWithUpgrades_maxima p (ups : Upgrades) :
  NoDup ups.*1 ->
  health_max (playerWithUpgrades p ups) =
    health_max p + 10 * levelOf ups "health" ∧
  damage (attack (stats (playerWithUpgrades p ups))) =
    damage (attack (stats p)) + 1 * levelOf ups "attackDamage" ∧
  cooldown_max (playerWithUpgrades p ups) =
    cooldown_max p - 5 * levelOf ups "attackSpeed".
Proof.
  unfold playerWithUpgrades. revert p.
  induction ups as [|[k v] rest IH]; intros p Hnd.
  - simpl. unfold levelOf. simpl. lia.
  - rewrite fmap_cons in Hnd. cbn [fst] in Hnd.
    apply NoDup_cons in Hnd as [Hk Hnd].
    cbn [fold_left].
    destruct (IH (applyUpgrade p (k, v)) Hnd) as (-> & -> & ->).
    destruct (applyUpgrade_maxima p k v) as (-> & -> & ->).
    rewrite !levelOf_cons.
    split_and!.
    + destruct (String.eqb k "health") eqn:E; [|lia].
      apply String.eqb_eq in E. subst k. rewrite levelOf_not_key by done. lia.
    + destruct (String.eqb k "attackDamage") eqn:E; [|lia].
      apply String.eqb_eq in E. subst k. rewrite levelOf_not_key by done. lia.
    + destruct (String.eqb k "attackSpeed") eqn:E; [|lia].
      apply String.eqb_eq in E. subst k. rewrite levelOf_not_key by done. lia.
Qed.

Lemma selectUpgrade_recomputes id (w : World) :
  selectUpgrade id w =
    recompute (mkWorld (player w) (enemies w) (projectiles w) (groundItems w)
      (assignUpgrade (upgrades w) id (levelOf (upgrades w) id + 1))
      (xp w) (tick w) (mouse_x w) (mouse_y w) (playerAngle w) []
      (effective w)).
Proof. reflexivity. Qed.


(** ** Hits of player-cast projectiles *)

Lemma damageEnemies_miss lifeSteal p es pl :
  Forall (fun e => hitsEnemy p e = false) es ->
  damageEnemies lifeSteal p es pl = (es, p, pl, false).
Proof.
  induction 1 as [|e rest He _ IH]; simpl; [done|].
  by rewrite He, IH.
Qed.

Lemma damageEnemies_first lifeSteal p pre enemy post pl :
  isPiercing p = false ->
  Forall (fun e => hitsEnemy p e = false) pre ->
  hitsEnemy p enemy = true ->
  damageEnemies lifeSteal p (pre ++ enemy :: post) pl =
    (pre ++ damaged p enemy :: post, p, lifeStolen lifeSteal pl, true).
Proof.
  intros Hnp Hpre Hhit. induction Hpre as [|e rest He _ IH]; simpl.
  - by rewrite Hhit, Hnp.
  - by rewrite He, IH.
Qed.

(** C6.  A player-cast projectile without piercing that, after its move
    of this tick, overlaps an enemy: the first overlapping enemy in the
    order of the list loses exactly the projectile's damage, every other
    enemy (before or after it, overlapping or not) is left as it was, and
    the projectile is spliced out of the list at once ([None]), before any
    range check.  The player is healed by 1 when life steal is owned. *)
Theorem nonpiercing_hits_first_enemy_only lifeSteal pwu (p0 : Projectile)
    (pre post : list Entity) (enemy pl : Entity) :
  caster p0 = uuid pl ->
  isPiercing p0 = false ->
  Forall (fun e => hitsEnemy (moveProjectile p0) e = false) pre ->
  hitsEnemy (moveProjectile p0) enemy = true ->
  processProjectile lifeSteal pwu p0 (pre ++ enemy :: post) pl =
    (None, pre ++ damaged p0 enemy :: post, lifeStolen lifeSteal pl) ∧
  forall rest : list Projectile,
    processProjectiles lifeSteal pwu (p0 :: rest) (pre ++ enemy :: post) pl =
    processProjectiles lifeSteal pwu rest
      (pre ++ damaged p0 enemy :: post) (lifeStolen lifeSteal pl).
Proof.
  intros Hcast Hnp Hpre Hhit.
  assert (Hone : processProjectile lifeSteal pwu p0 (pre ++ enemy :: post) pl =
    (None, pre ++ damaged p0 enemy :: post, lifeStolen lifeSteal pl)).
  { unfold processProjectile.
    change (caster (reduceEntityHitCooldown (moveProjectile p0)))
      with (caster p0).
    rewrite Hcast, String.eqb_refl.
    rewrite (damageEnemies_first lifeSteal _ pre enemy post pl); done. }
  split; [done|]. intros rest. cbn [processProjectiles]. rewrite Hone.
  by destruct (processProjectiles lifeSteal pwu rest _ _) as [[? ?] ?].
Qed.

(** The loop changes nothing of a projectile but its cooldown map, and
    only at the ids of the enemies it looked at. *)
Lemma damageEnemies_projectile lifeSteal p es pl es' p' pl' brk :
  damageEnemies lifeSteal p es pl = (es', p', pl', brk) ->
  (exists m, p' = set_entityHitCooldown (fun _ => m) p) ∧
  (forall id, id ∉ uuid <$> es -> hitCooldownOf p' id = hitCooldownOf p id).
Proof.
  revert p pl es' p' pl' brk.
  induction es as [|e rest IH]; intros p pl es' p' pl' brk; simpl.
  - intros [= <- <- <- <-]. split; [|done].
    exists (entityHitCooldown p). by destruct p.
  - destruct (hitsEnemy p e); [destruct (isPiercing p) eqn:Hp;
      [destruct (canHit p (uuid e))|]|].
    + destruct (damageEnemies _ _ rest _) as [[[r1 p1] pl1] b1] eqn:E.
      intros [= <- <- <- <-]. apply IH in E as [[m ->] Hid]. split.
      * by exists m.
      * intros id Hnin. apply not_elem_of_cons in Hnin as [Hne Hnin].
        rewrite Hid by done. unfold hitCooldownOf. simpl.
        by rewrite lookup_insert_ne.
    + destruct (damageEnemies _ _ rest _) as [[[r1 p1] pl1] b1] eqn:E.
      intros [= <- <- <- <-]. apply IH in E as [[m ->] Hid]. split.
      * by exists m.
      * intros id Hnin. apply not_elem_of_cons in Hnin as [Hne Hnin].
        by rewrite Hid.
    + intros [= <- <- <- <-]. split; [|done].
      exists (entityHitCooldown p). by destruct p.
    + destruct (damageEnemies _ _ rest _) as [[[r1 p1] pl1] b1] eqn:E.
      intros [= <- <- <- <-]. apply IH in E as [[m ->] Hid]. split.
      * by exists m.
      * intros id Hnin. apply not_elem_of_cons in Hnin as [Hne Hnin].
        by rewrite Hid.
Qed.

Lemma damageEnemies_piercing_no_break lifeSteal p es pl es' p' pl' brk :
  isPiercing p = true ->
  damageEnemies lifeSteal p es pl = (es', p', pl', brk) -> brk = false.
Proof.
  revert p pl es' p' pl' brk.
  induction es as [|e rest IH]; intros p pl es' p' pl' brk Hp; simpl.
  - by intros [= <- <- <- <-].
  - rewrite Hp.
    destruct (hitsEnemy p e); [destruct (canHit p (uuid e))|];
      destruct (damageEnemies _ _ rest _) as [[[r1 p1] pl1] b1] eqn:E;
      intros [= <- <- <- <-]; by eapply IH in E.
Qed.

(** One overlap of a piercing projectile, inside the loop over enemies
    with pairwise different ids. *)
Lemma damageEnemies_piercing_overlap lifeSteal p es pl es' p' pl' brk
    (i : nat) (enemy : Entity) :
  isPiercing p = true ->
  NoDup (uuid <$> es) ->
  es !! i = Some enemy ->
  hitsEnemy p enemy = true ->
  damageEnemies lifeSteal p es pl = (es', p', pl', brk) ->
  es' !! i = Some (if canHit p (uuid enemy) then damaged p enemy else enemy) ∧
  hitCooldownOf p' (uuid enemy) =
    if canHit p (uuid enemy) then Some 300 else hitCooldownOf p (uuid enemy).
Proof.
  revert i p pl es' p' pl' brk.
  induction es as [|e rest IH]; intros i p pl es' p' pl' brk Hp Hnd Hi Hhit;
    [done|].
  rewrite fmap_cons in Hnd. apply NoDup_cons in Hnd as [Hfresh Hnd].
  destruct i as [|j]; simpl in Hi.
  - (* the enemy at hand *)
    injection Hi as ->. simpl. rewrite Hhit, Hp.
    destruct (canHit p (uuid enemy)) eqn:Hcan;
      destruct (damageEnemies _ _ rest _) as [[[r1 p1] pl1] b1] eqn:E;
      intros [= <- <- <- <-];
      apply damageEnemies_projectile in E as [_ Hid];
      (split; [done|]); rewrite Hid by done; [|done].
    unfold hitCooldownOf. simpl. by rewrite lookup_insert_eq.
  - (* an enemy further down the list *)
    assert (Hne : uuid e ≠ uuid enemy).
    { intros Heq. apply Hfresh. rewrite Heq.
      apply list_elem_of_fmap. exists enemy. split; [done|].
      by eapply list_elem_of_lookup_2. }
    simpl. rewrite Hp.
    destruct (hitsEnemy p e); [destruct (canHit p (uuid e))|];
      destruct (damageEnemies _ _ rest _) as [[[r1 p1] pl1] b1] eqn:E;
      intros [= <- <- <- <-];
      eapply (IH j) in E; try done; simpl.
    destruct E as [E1 E2]. unfold canHit, hitCooldownOf in *. simpl in *.
    rewrite lookup_insert_ne in E1, E2 by done. done.
Qed.

(** While the counter kept for [id] is not 0, the loop neither touches
    it nor any enemy carrying that id. *)
Lemma damageEnemies_cooling lifeSteal p es pl es' p' pl' brk id cd :
  isPiercing p = true ->
  hitCooldownOf p id = Some cd -> cd ≠ 0 ->
  damageEnemies lifeSteal p es pl = (es', p', pl', brk) ->
  hitCooldownOf p' id = Some cd ∧
  forall i e, es !! i = Some e -> uuid e = id -> es' !! i = Some e.
Proof.
  revert p pl es' p' pl' brk.
  induction es as [|e rest IH]; intros p pl es' p' pl' brk Hp Hcd Hnz; simpl.
  - by intros [= <- <- <- <-].
  - rewrite Hp.
    assert (Hself : uuid e = id -> canHit p (uuid e) = false).
    { intros ->. unfold canHit. unfold hitCooldownOf in Hcd. rewrite Hcd.
      by apply Z.eqb_neq. }
    destruct (hitsEnemy p e); [destruct (canHit p (uuid e)) eqn:Hcan|];
      destruct (damageEnemies _ _ rest _) as [[[r1 p1] pl1] b1] eqn:E;
      intros [= <- <- <- <-].
    + assert (Hne : uuid e ≠ id) by (intros Heq; by specialize (Hself Heq)).
      eapply IH in E as [E1 E2]; [| done | | done].
      * split; [done|]. intros [|j] e0 Hj Hid; simpl in *; [|by eauto].
        injection Hj as ->. done.
      * unfold hitCooldownOf. simpl. by rewrite lookup_insert_ne.
    + eapply IH in E as [E1 E2]; [| done..].
      split; [done|]. intros [|j] e0 Hj Hid; simpl in *; by eauto.
    + eapply IH in E as [E1 E2]; [| done..].
      split; [done|]. intros [|j] e0 Hj Hid; simpl in *; by eauto.
Qed.

(** The counter for [id] after the decrement at the start of a tick. *)
Lemma reduce_hitCooldownOf p id :
  hitCooldownOf (reduceEntityHitCooldown (moveProjectile p)) id =
    (fun cd => if 0 <? cd then cd - 1 else cd) <$> hitCooldownOf p id.
Proof. unfold hitCooldownOf. simpl. by rewrite lookup_fmap. Qed.

(** One tick of a piercing projectile whose counter for [id] is above 1:
    the counter goes down by one and no enemy with that id is touched. *)
Lemma processProjectile_cooling lifeSteal pwu p0 es pl kept es' pl' id cd :
  isPiercing p0 = true ->
  caster p0 = uuid pl ->
  hitCooldownOf p0 id = Some cd -> 1 < cd ->
  processProjectile lifeSteal pwu p0 es pl = (kept, es', pl') ->
  (forall i e, es !! i = Some e -> uuid e = id -> es' !! i = Some e) ∧
  (forall pk, kept = Some pk ->
     isPiercing pk = true ∧ caster pk = caster p0 ∧
     hitCooldownOf pk id = Some (cd - 1)).
Proof.
  intros Hp Hcast Hcd Hgt. unfold processProjectile.
  change (caster (reduceEntityHitCooldown (moveProjectile p0)))
    with (caster p0).
  rewrite Hcast, String.eqb_refl.
  assert (Hp' : isPiercing (reduceEntityHitCooldown (moveProjectile p0)) = true)
    by exact Hp.
  destruct (damageEnemies _ _ es pl) as [[[r1 p1] pl1] b1] eqn:E.
  pose proof (damageEnemies_piercing_no_break _ _ _ _ _ _ _ _ Hp' E) as ->.
  pose proof (damageEnemies_projectile _ _ _ _ _ _ _ _ E) as [[m Hm] _].
  eapply (damageEnemies_cooling _ _ _ _ _ _ _ _ id (cd - 1)) in E
    as [E1 E2]; [| done | | lia].
  - intros [= <- <- <-]. split; [done|]. intros pk Hk.
    unfold rangeCheck in Hk. destruct (outOfRange p1); [done|].
    injection Hk as <-. split_and!; [by subst p1 | by subst p1 | done].
  - rewrite reduce_hitCooldownOf, Hcd. simpl.
    destruct (0 <? cd) eqn:Hpos; [done|]. apply Z.ltb_ge in Hpos. lia.
Qed.

(** One tick of a piercing projectile whose counter for [id] is 1, 0 or
    missing: an overlapping enemy with that id is damaged. *)
Lemma processProjectile_rehit lifeSteal pwu p0 es pl kept es' pl' i enemy :
  isPiercing p0 = true ->
  caster p0 = uuid pl ->
  (hitCooldownOf p0 (uuid enemy) = Some 1 ∨
   hitCooldownOf p0 (uuid enemy) = Some 0 ∨
   hitCooldownOf p0 (uuid enemy) = None) ->
  NoDup (uuid <$> es) ->
  es !! i = Some enemy ->
  hitsEnemy (moveProjectile p0) enemy = true ->
  processProjectile lifeSteal pwu p0 es pl = (kept, es', pl') ->
  es' !! i = Some (damaged p0 enemy).
Proof.
  intros Hp Hcast Hcd Hnd Hi Hhit. unfold processProjectile.
  change (caster (reduceEntityHitCooldown (moveProjectile p0)))
    with (caster p0).
  rewrite Hcast, String.eqb_refl.
  assert (Hp' : isPiercing (reduceEntityHitCooldown (moveProjectile p0)) = true)
    by exact Hp.
  destruct (damageEnemies _ _ es pl) as [[[r1 p1] pl1] b1] eqn:E.
  eapply damageEnemies_piercing_overlap in E as [E1 _]; [| done..].
  assert (Hcan : canHit (reduceEntityHitCooldown (moveProjectile p0))
                   (uuid enemy) = true).
  { pose proof (reduce_hitCooldownOf p0 (uuid enemy)) as Hr.
    unfold canHit. unfold hitCooldownOf in Hr. rewrite Hr.
    unfold hitCooldownOf in Hcd.
    destruct Hcd as [-> | [-> | ->]]; done. }
  rewrite Hcan in E1.
  destruct b1; intros [= <- <- <-]; done.
Qed.

(** The counter set by a hit, followed over the next ticks. *)
Lemma flight_countdown lifeSteal pwu ticks p0 pk id cd :
  isPiercing p0 = true ->
  hitCooldownOf p0 id = Some cd ->
  Forall (fun t => caster p0 = uuid t.2) ticks ->
  Z.of_nat (length ticks) < cd ->
  flight lifeSteal pwu ticks p0 = Some pk ->
  isPiercing pk = true ∧ caster pk = caster p0 ∧
  hitCooldownOf pk id = Some (cd - Z.of_nat (length ticks)).
Proof.
  revert p0 cd.
  induction ticks as [|[es pl] rest IH]; intros p0 cd Hp Hcd Hcast Hlen; simpl.
  - intros [= <-]. split_and!; [done..|]. rewrite Hcd. f_equal. lia.
  - apply Forall_cons in Hcast as [Hc Hcast]. simpl in Hc.
    rewrite length_cons in Hlen.
    destruct (processProjectile _ _ p0 es pl) as [[[p1|] es1] pl1] eqn:E;
      [|done].
    eapply processProjectile_cooling in E as [_ E]; [| done | done | done | lia].
    destruct (E p1 eq_refl) as (Hp1 & Hc1 & Hcd1).
    intros Hfl. eapply IH in Hfl as (? & ? & Hfin); [| done | done | | lia].
    + split_and!; [done | congruence |]. rewrite Hfin. f_equal. lia.
    + rewrite Hc1. done.
Qed.

(** C5.  A piercing projectile cast by the player.
    (1) In the loop over the enemies (pairwise different ids), an enemy
    it overlaps is damaged iff the projectile's counter for that enemy is
    0 or missing, and the counter is then set to 300; a counter that is
    still running is left alone.
    (2) Once the counter for an enemy is 300, follow the projectile
    through the next ticks, each of which first takes 1 off every positive
    counter: an overlap with that enemy in any of the next 299 ticks leaves
    the enemy as it was, and an overlap in the 300th tick, when the
    counter has come down to 0, damages it again. *)
Theorem piercing_rehit_after_cooldown lifeSteal pwu :
  (forall (p : Projectile) es pl es' p' pl' brk (i : nat) (enemy : Entity),
     isPiercing p = true ->
     NoDup (uuid <$> es) ->
     es !! i = Some enemy ->
     hitsEnemy p enemy = true ->
     damageEnemies lifeSteal p es pl = (es', p', pl', brk) ->
     es' !! i = Some (if canHit p (uuid enemy) then damaged p enemy
                      else enemy) ∧
     hitCooldownOf p' (uuid enemy) =
       if canHit p (uuid enemy) then Some 300
       else hitCooldownOf p (uuid enemy)) ∧
  (forall (p0 pk : Projectile) ticks es pl kept es' pl' (i : nat)
      (enemy : Entity),
     isPiercing p0 = true ->
     hitCooldownOf p0 (uuid enemy) = Some 300 ->
     Forall (fun t => caster p0 = uuid t.2) ticks ->
     (length ticks < 300)%nat ->
     flight lifeSteal pwu ticks p0 = Some pk ->
     caster p0 = uuid pl ->
     NoDup (uuid <$> es) ->
     es !! i = Some enemy ->
     hitsEnemy (moveProjectile pk) enemy = true ->
     processProjectile lifeSteal pwu pk es pl = (kept, es', pl') ->
     es' !! i = Some (if (length ticks =? 299)%nat then damaged pk enemy
                      else enemy)).
Proof.
  split.
  - intros. by eapply damageEnemies_piercing_overlap.
  - intros p0 pk ticks es pl kept es' pl' i enemy
      Hp Hcd Hcast Hlen Hfl Hpl Hnd Hi Hhit Hstep.
    eapply flight_countdown in Hfl as (Hpk & Hck & Hcdk); [| done..| lia].
    destruct (length ticks =? 299)%nat eqn:Hlast.
    + apply Nat.eqb_eq in Hlast.
      eapply processProjectile_rehit in Hstep; [done | done | congruence | | done..].
      left. rewrite Hcdk. f_equal. lia.
    + apply Nat.eqb_neq in Hlast.
      eapply processProjectile_cooling in Hstep as [Hstep _];
        [by eapply Hstep | done | congruence | done | lia].
Qed.

(** ** Where enemies come from *)

Lemma damageEnemies_uuids lifeSteal p es pl :
  uuid <$> (damageEnemies lifeSteal p es pl).1.1.1 = uuid <$> es.
Proof.
  revert p pl. induction es as [|e rest IH]; intros p pl; [done|].
  cbn [damageEnemies].
  destruct (hitsEnemy p e); [destruct (isPiercing p);
    [destruct (canHit p (uuid e))|]|]; cbn [processHit];
    try (match goal with
         | |- context [damageEnemies ?a ?b rest ?c] =>
             specialize (IH b c);
             destruct (damageEnemies a b rest c) as [[[? ?] ?] ?]
         end; cbn [fst snd] in *; rewrite !fmap_cons; by f_equal).
  done.
Qed.

Lemma processProjectile_uuids lifeSteal pwu p es pl :
  uuid <$> (processProjectile lifeSteal pwu p es pl).1.2 = uuid <$> es.
Proof.
  unfold processProjectile.
  destruct (String.eqb _ _).
  - pose proof (damageEnemies_uuids lifeSteal
      (reduceEntityHitCooldown (moveProjectile p)) es pl) as H.
    destruct (damageEnemies _ _ es pl) as [[[? ?] ?] []]; done.
  - by destruct (hitsPlayer _ _ _).
Qed.

Lemma processProjectiles_uuids lifeSteal pwu ps es pl :
  uuid <$> (processProjectiles lifeSteal pwu ps es pl).1.2 = uuid <$> es.
Proof.
  revert es pl. induction ps as [|p rest IH]; intros es pl; simpl; [done|].
  pose proof (processProjectile_uuids lifeSteal pwu p es pl) as H.
  destruct (processProjectile _ _ p es pl) as [[k es1] pl1]. simpl in H.
  specialize (IH es1 pl1).
  destruct (processProjectiles _ _ rest es1 pl1) as [[? ?] ?]. simpl in *.
  congruence.
Qed.

Lemma processEnemies_uuids o pwu pl es c :
  sublist (uuid <$> (processEnemies o pwu pl es c).1.1.1) (uuid <$> es).
Proof.
  revert c. induction es as [|e rest IH]; intros c; simpl; [done|].
  destruct (health_current e <=? 0).
  - specialize (IH (tookUuid (tookRandom c))).
    destruct (processEnemies _ _ _ rest _) as [[[? ?] ?] ?]. simpl in *.
    by apply sublist_cons.
  - destruct (_ <? _)%float.
    + specialize (IH c).
      destruct (processEnemies _ _ _ rest _) as [[[? ?] ?] ?]. simpl in *.
      by apply sublist_skip.
    + unfold enemyAttack. destruct (cooldown_current e =? 0).
      * specialize (IH (tookUuid c)).
        destruct (processEnemies _ _ _ rest _) as [[[? ?] ?] ?]. simpl in *.
        by apply sublist_skip.
      * specialize (IH c).
        destruct (processEnemies _ _ _ rest _) as [[[? ?] ?] ?]. simpl in *.
        by apply sublist_skip.
Qed.

(** The enemies after a tick that ran: those the enemy loop kept, then
    the enemy of the spawn check, if any. *)
Lemma tickEffect_enemies env o (w : World) :
  upgradeSelection w = [] ->
  exists survivors newPlayer c,
    sublist (uuid <$> survivors) (uuid <$> enemies w) ∧
    enemies (tickEffect env o w) =
      spawnEnemies o (tick w) newPlayer survivors c.
Proof.
  intros Hsel. unfold tickEffect, pipeline. rewrite Hsel.
  destruct (playerAutoAttack _ _ _ _ _ _ _) as [[pl1 ps1] c1].
  pose proof (processProjectiles_uuids
    (hasUpgrade (upgrades w) "lifeSteal") (effective w) ps1 (enemies w) pl1)
    as Hps.
  destruct (processProjectiles _ _ ps1 _ pl1) as [[ps2 es2] pl2].
  pose proof (processEnemies_uuids o (effective w) pl2 es2 c1) as Hes.
  destruct (processEnemies _ _ pl2 es2 c1) as [[[es3 shots] drops] c3].
  destruct (processGroundItems _ pl2 _) as [[gs4 pl4] gained].
  simpl in *. exists es3, pl4, c3. split; [|done]. by rewrite <- Hps.
Qed.


(** ** C4: the upgrade draw *)

Lemma includes_elem_of (l : list string) id :
  includes l id = true <-> id ∈ l.
Proof.
  unfold includes. rewrite existsb_exists. split.
  - intros (k & Hin & Heq). apply String.eqb_eq in Heq. subst.
    by apply list_elem_of_In.
  - intros Hin. exists id. split; [by apply list_elem_of_In|].
    apply String.eqb_refl.
Qed.

Lemma includes_not_elem_of (l : list string) id :
  includes l id = false <-> id ∉ l.
Proof.
  rewrite <- includes_elem_of. by destruct (includes l id).
Qed.

Lemma pick_elem_of r avail upgrade :
  pick r avail = Some upgrade -> upgrade ∈ avail.
Proof.
  unfold pick. destruct (_ <? 0); [done|].
  apply list_elem_of_lookup_2.
Qed.

(** The four commons without a level cap pass the filter whatever the
    levels and the random draws are. *)
Lemma filterAvailable_at_least_4 o (ups : Upgrades) c :
  (4 <= length (filterAvailable o ups UPGRADES c).1)%nat.
Proof.
  unfold UPGRADES. cbn [filterAvailable rarity maxLevel u_id truthy].
  rewrite !orb_true_r. cbn [orb negb].
  repeat match goal with
         | |- context [if ?b then _ else _] => destruct b
         | |- context [match ?b with Some _ => _ | None => _ end] => destruct b
         end; cbn [fst length]; lia.
Qed.

(** Whatever the loop returns has [amount] entries, pairwise different,
    each one already collected or the id of an eligible entry. *)
Lemma drawLoop_returned fuel o avail amount (ru : list string) c l :
  NoDup ru -> (length ru <= amount)%nat ->
  drawLoop fuel o avail amount ru c = Returned l ->
  length l = amount ∧ NoDup l ∧
  forall id, id ∈ l -> id ∈ ru ∨ exists u, u ∈ avail ∧ u_id u = id.
Proof.
  revert ru c. induction fuel as [|fuel IH]; intros ru c Hnd Hlen; simpl.
  - destruct (length ru <? amount)%nat eqn:E; [done|].
    apply Nat.ltb_ge in E. intros [= <-]. split_and!; [lia | done | auto].
  - destruct (length ru <? amount)%nat eqn:E.
    + apply Nat.ltb_lt in E.
      destruct (pick _ avail) as [u|] eqn:Hpick; [|done].
      apply pick_elem_of in Hpick.
      destruct (includes ru (u_id u)) eqn:Hinc.
      * by apply IH.
      * apply includes_not_elem_of in Hinc. intros Hret.
        apply IH in Hret as (H1 & H2 & H3).
        -- split_and!; [done..|]. intros id Hid.
           destruct (H3 id Hid) as [Hin|?]; [|by right].
           apply elem_of_app in Hin as [?|Hin]; [by left|].
           apply list_elem_of_singleton in Hin as ->. right. by exists u.
        -- apply NoDup_app. split_and!; [done | | apply NoDup_singleton].
           intros k Hk Hk'. apply list_elem_of_singleton in Hk'. by subst.
        -- rewrite length_app. simpl. lia.
    + apply Nat.ltb_ge in E. intros [= <-]. split_and!; [lia | done | auto].
Qed.

Lemma picksOf_S o avail c n :
  picksOf o avail c (S n) =
    (u_id <$> pick (Math_random o (nrandom c)) avail)
      :: picksOf o avail (tookRandom c) n.
Proof.
  unfold picksOf. cbn [seq]. rewrite fmap_cons, Nat.add_0_r. f_equal.
  rewrite <- fmap_S_seq, <- list_fmap_compose.
  apply list_fmap_ext. intros i k _. simpl. by rewrite Nat.add_succ_r.
Qed.

(** The loop returns within [n] iterations when its first [n] picks are
    all defined and, with what is already collected, name [amount]
    different ids. *)
Lemma drawLoop_returns n o avail amount (ru ids : list string) c :
  NoDup ru ->
  picksOf o avail c n = Some <$> ids ->
  (amount <= size (list_to_set (ru ++ ids) : gset string))%nat ->
  exists l, drawLoop n o avail amount ru c = Returned l.
Proof.
  revert ru ids c.
  induction n as [|n IH]; intros ru ids c Hnd Hpicks Hsize.
  - destruct ids; [|done]. rewrite app_nil_r in Hsize.
    rewrite size_list_to_set in Hsize by done.
    simpl. apply Nat.ltb_ge in Hsize. rewrite Hsize. by eexists.
  - simpl. destruct (length ru <? amount)%nat eqn:E; [|by eexists].
    rewrite picksOf_S in Hpicks. destruct ids as [|id ids]; [done|].
    rewrite fmap_cons in Hpicks. injection Hpicks as Hhd Htl.
    destruct (pick _ avail) as [u|]; [|done]. injection Hhd as Hid.
    rewrite Hid. destruct (includes ru id) eqn:Hinc.
    + apply includes_elem_of in Hinc. apply (IH ru ids); [done..|].
      replace (list_to_set (ru ++ ids) : gset string)
        with (list_to_set (ru ++ id :: ids) : gset string); [done|].
      rewrite !list_to_set_app_L, list_to_set_cons.
      apply (elem_of_list_to_set (C := gset string)) in Hinc.
      apply set_eq. intros k. rewrite !elem_of_union, elem_of_singleton.
      split; [|tauto]. intros [?|[->|?]]; tauto.
    + apply includes_not_elem_of in Hinc. apply (IH (ru ++ [id]) ids).
      * apply NoDup_app. split_and!; [done | | apply NoDup_singleton].
        intros k Hk Hk'. apply list_elem_of_singleton in Hk'. by subst.
      * done.
      * by rewrite <- app_assoc.
Qed.

(** No three different ids can come out of fewer than three entries. *)
Lemma drawLoop_undersized fuel o avail c l :
  (length avail < 3)%nat -> drawLoop fuel o avail 3 [] c ≠ Returned l.
Proof.
  intros Hlen Hret.
  apply drawLoop_returned in Hret as (Hl & Hnd & Hin);
    [| apply NoDup_nil_2 | simpl; lia].
  assert (Hsub : l ⊆ u_id <$> avail).
  { intros id Hid. destruct (Hin id Hid) as [Hnil|(u & Hu & <-)].
    - by apply elem_of_nil in Hnil.
    - apply list_elem_of_fmap. by exists u. }
  apply NoDup_submseteq in Hsub; [|done].
  apply submseteq_length in Hsub. rewrite length_fmap in Hsub. lia.
Qed.

(** While the picks made so far, with what is already collected, name
    fewer than [amount] ids, the loop is still running when the fuel is
    used up: it has neither returned nor thrown. *)
Lemma drawLoop_starved n o avail amount (ru ids : list string) c :
  NoDup ru ->
  picksOf o avail c n = Some <$> ids ->
  (size (list_to_set (ru ++ ids) : gset string) < amount)%nat ->
  drawLoop n o avail amount ru c = OutOfFuel.
Proof.
  revert ru ids c.
  induction n as [|n IH]; intros ru ids c Hnd Hpicks Hsize.
  - destruct ids; [|done]. rewrite app_nil_r in Hsize.
    rewrite size_list_to_set in Hsize by done.
    simpl. apply Nat.ltb_lt in Hsize. by rewrite Hsize.
  - assert (Hlen : (length ru < amount)%nat).
    { rewrite <- (size_list_to_set (C := gset string)) by done.
      eapply Nat.le_lt_trans; [|exact Hsize].
      apply subseteq_size. rewrite list_to_set_app_L.
      apply union_subseteq_l. }
    simpl. apply Nat.ltb_lt in Hlen. rewrite Hlen.
    rewrite picksOf_S in Hpicks. destruct ids as [|id ids]; [done|].
    rewrite fmap_cons in Hpicks. injection Hpicks as Hhd Htl.
    destruct (pick _ avail) as [u|]; [|done]. injection Hhd as Hid.
    rewrite Hid. destruct (includes ru id) eqn:Hinc.
    + apply includes_elem_of in Hinc. apply (IH ru ids); [done..|].
      replace (list_to_set (ru ++ ids) : gset string)
        with (list_to_set (ru ++ id :: ids) : gset string); [done|].
      rewrite !list_to_set_app_L, list_to_set_cons.
      apply (elem_of_list_to_set (C := gset string)) in Hinc.
      apply set_eq. intros k. rewrite !elem_of_union, elem_of_singleton.
      split; [|tauto]. intros [?|[->|?]]; tauto.
    + apply includes_not_elem_of in Hinc. apply (IH (ru ++ [id]) ids).
      * apply NoDup_app. split_and!; [done | | apply NoDup_singleton].
        intros k Hk Hk'. apply list_elem_of_singleton in Hk'. by subst.
      * done.
      * by rewrite <- app_assoc.
Qed.

(** Every id the loop returns was collected before or is named by one
    of the picks it made. *)
Lemma drawLoop_returned_picked n o avail amount (ru : list string) c l :
  drawLoop n o avail amount ru c = Returned l ->
  forall id, id ∈ l -> id ∈ ru ∨ Some id ∈ picksOf o avail c n.
Proof.
  revert ru c. induction n as [|n IH]; intros ru c; simpl.
  - destruct (length ru <? amount)%nat; [done|]. intros [= <-]. auto.
  - destruct (length ru <? amount)%nat; [|intros [= <-]; auto].
    rewrite picksOf_S.
    destruct (pick _ avail) as [u|]; [|done].
    destruct (includes ru (u_id u)).
    + intros Hret id Hid. destruct (IH _ _ Hret id Hid) as [?|?];
        [by left | right; by apply elem_of_cons; right].
    + intros Hret id Hid. destruct (IH _ _ Hret id Hid) as [Hin|?];
        [|right; by apply elem_of_cons; right].
      apply elem_of_app in Hin as [?|Hin]; [by left|].
      apply list_elem_of_singleton in Hin as ->.
      right. apply elem_of_cons. by left.
Qed.

(** C4 (as the code has it).  The draw has no guard and no fallback.
    With the shipped catalog at least four entries are eligible under
    every outcome of the filter.  Whenever the draw returns, it returns
    exactly 3 pairwise different ids, each the id of an eligible entry
    and each named by one of the picks made.  It returns within [n]
    iterations once its first [n] picks have named 3 different entries,
    and as long as its first [n] picks have named fewer than 3 different
    entries it is still looping after [n] iterations, whatever [n] is.
    With another catalog, on an eligible list of fewer than 3 entries the
    loop would never return, and on an empty one its first iteration
    would throw. *)
Theorem upgrade_draw_has_no_guard o (ups : Upgrades) :
  let avail := (filterAvailable o ups UPGRADES (mkCalls 0 0)).1 in
  let c := (filterAvailable o ups UPGRADES (mkCalls 0 0)).2 in
  (4 <= length avail)%nat ∧
  (forall fuel l,
     getRandomUpgrades fuel o ups 3 = Returned l ->
     length l = 3%nat ∧ NoDup l ∧
     forall id, id ∈ l ->
       (exists u, u ∈ avail ∧ u_id u = id) ∧
       Some id ∈ picksOf o avail c fuel) ∧
  (forall n ids,
     picksOf o avail c n = Some <$> ids ->
     (3 <= size (list_to_set ids : gset string))%nat ->
     exists l, getRandomUpgrades n o ups 3 = Returned l) ∧
  (forall n ids,
     picksOf o avail c n = Some <$> ids ->
     (size (list_to_set ids : gset string) < 3)%nat ->
     getRandomUpgrades n o ups 3 = OutOfFuel) ∧
  (forall fuel o' (few : list Upgrade) c' l,
     (length few < 3)%nat -> drawLoop fuel o' few 3 [] c' ≠ Returned l) ∧
  (forall fuel o' c', drawLoop (S fuel) o' [] 3 [] c' = Threw).
Proof.
  intros avail c. split_and!.
  - apply filterAvailable_at_least_4.
  - intros fuel l. unfold getRandomUpgrades. subst avail c.
    destruct (filterAvailable o ups UPGRADES (mkCalls 0 0)) as [av c0] eqn:E.
    intros Hret. pose proof (drawLoop_returned_picked _ _ _ _ _ _ _ Hret) as Hp.
    apply drawLoop_returned in Hret as (H1 & H2 & H3);
      [| apply NoDup_nil_2 | simpl; lia].
    split_and!; [done..|]. intros id Hid. split.
    + destruct (H3 id Hid) as [Hnil|Hu]; [by apply elem_of_nil in Hnil|].
      exact Hu.
    + destruct (Hp id Hid) as [Hnil|Hu]; [by apply elem_of_nil in Hnil|].
      exact Hu.
  - intros n ids Hpicks Hsize. unfold getRandomUpgrades.
    subst avail c.
    destruct (filterAvailable o ups UPGRADES (mkCalls 0 0)) as [av c0].
    by apply (drawLoop_returns n o av 3 [] ids c0); [apply NoDup_nil_2|..].
  - intros n ids Hpicks Hsize. unfold getRandomUpgrades.
    subst avail c.
    destruct (filterAvailable o ups UPGRADES (mkCalls 0 0)) as [av c0].
    by apply (drawLoop_starved n o av 3 [] ids c0); [apply NoDup_nil_2|..].
  - intros. by apply drawLoop_undersized.
  - intros fuel o' c'. simpl. unfold pick. simpl.
    by destruct (_ <? 0).
Qed.

(** ** The player's health through the pipeline

    Each phase is run on a player whose current health is overwritten by
    an arbitrary [h]: what comes out is the same as for any other [h],
    except for the player's health, which is [h] plus an amount that does
    not depend on [h]. *)

Lemma controls_health env pwu pl h :
  controls env pwu (hp h pl) = hp h (controls env pwu pl).
Proof.
  unfold controls.
  by destruct (key_w env), (key_a env), (key_s env), (key_d env).
Qed.

Lemma playerAutoAttack_health o ups ang pwu pl ps c h :
  playerAutoAttack o ups ang pwu (hp h pl) ps c =
    let '(pl', ps', c') := playerAutoAttack o ups ang pwu pl ps c in
    (hp h pl', ps', c').
Proof.
  unfold playerAutoAttack.
  change (cooldown_current (hp h pl)) with (cooldown_current pl).
  by destruct (cooldown_current pl =? 0).
Qed.

Lemma damageEnemies_health lifeSteal p es pl :
  exists delta es' p' brk, forall h,
    damageEnemies lifeSteal p es (hp h pl) = (es', p', hp (h + delta) pl, brk).
Proof.
  revert p. induction es as [|e rest IH]; intros p.
  - exists 0, [], p, false. intros h. simpl. by rewrite Z.add_0_r.
  - cbn [damageEnemies].
    destruct (hitsEnemy p e); [destruct (isPiercing p);
      [destruct (canHit p (uuid e))|]|]; cbn [processHit].
    + destruct (IH (set_entityHitCooldown (insert (uuid e) 300) p))
        as (d & es' & p' & brk & H).
      exists ((if lifeSteal then 1 else 0) + d),
        (set_health_current (fun h => h - p_damage p) e :: es'), p', brk.
      intros h.
      replace (if lifeSteal then set_health_current (fun h0 => h0 + 1) (hp h pl)
               else hp h pl)
        with (hp (h + (if lifeSteal then 1 else 0)) pl)
        by (destruct lifeSteal; [done | by rewrite Z.add_0_r]).
      by rewrite H, Z.add_assoc.
    + destruct (IH p) as (d & es' & p' & brk & H).
      exists d, (e :: es'), p', brk. intros h. by rewrite H.
    + exists (if lifeSteal then 1 else 0),
        (set_health_current (fun h => h - p_damage p) e :: rest), p, true.
      intros h. destruct lifeSteal; [done | by rewrite Z.add_0_r].
    + destruct (IH p) as (d & es' & p' & brk & H).
      exists d, (e :: es'), p', brk. intros h. by rewrite H.
Qed.

Lemma processProjectile_health lifeSteal pwu p es pl :
  exists delta kept es', forall h,
    processProjectile lifeSteal pwu p es (hp h pl) =
      (kept, es', hp (h + delta) pl).
Proof.
  unfold processProjectile.
  change (uuid (hp _ pl)) with (uuid pl).
  destruct (String.eqb _ (uuid pl)).
  - destruct (damageEnemies_health lifeSteal
      (reduceEntityHitCooldown (moveProjectile p)) es pl)
      as (d & es' & p' & brk & H).
    exists d, (if brk then None else rangeCheck p'), es'.
    intros h. rewrite H. by destruct brk.
  - change (hitsPlayer pwu (hp _ pl) ?q) with (hitsPlayer pwu pl q).
    destruct (hitsPlayer pwu pl _).
    + exists (-1), None, es. intros h. done.
    + exists 0, (rangeCheck (reduceEntityHitCooldown (moveProjectile p))), es.
      intros h. by rewrite Z.add_0_r.
Qed.

Lemma processProjectiles_health lifeSteal pwu ps es pl :
  exists delta ps' es', forall h,
    processProjectiles lifeSteal pwu ps es (hp h pl) =
      (ps', es', hp (h + delta) pl).
Proof.
  revert es. induction ps as [|p rest IH]; intros es.
  - exists 0, [], es. intros h. simpl. by rewrite Z.add_0_r.
  - destruct (processProjectile_health lifeSteal pwu p es pl)
      as (d1 & kept & es1 & H1).
    destruct (IH es1) as (d2 & ps2 & es2 & H2).
    exists (d1 + d2),
      (match kept with Some p' => p' :: ps2 | None => ps2 end), es2.
    intros h. cbn [processProjectiles]. by rewrite H1, H2, Z.add_assoc.
Qed.

Lemma processEnemies_health o pwu pl es c h :
  processEnemies o pwu (hp h pl) es c = processEnemies o pwu pl es c.
Proof.
  revert c. induction es as [|e rest IH]; intros c; [done|].
  cbn [processEnemies].
  change (x (hp h pl)) with (x pl). change (y (hp h pl)) with (y pl).
  destruct (health_current e <=? 0); [by rewrite IH|].
  destruct (_ <? _)%float; [by rewrite IH|].
  unfold enemyAttack. destruct (cooldown_current e =? 0); by rewrite IH.
Qed.

Lemma processGroundItems_health pwu pl gs :
  exists delta gs' gained, forall h,
    processGroundItems pwu (hp h pl) gs = (gs', hp (h + delta) pl, gained).
Proof.
  induction gs as [|g rest IH].
  - exists 0, [], 0. intros h. simpl. by rewrite Z.add_0_r.
  - destruct IH as (d & gs' & gained & H).
    cbn [processGroundItems].
    change (x (hp _ pl)) with (x pl). change (y (hp _ pl)) with (y pl).
    destruct (g_type g).
    + destruct (_ <=? 150 - _)%float; [destruct (_ <=? _)%float|].
      * exists d, gs', (value g + gained). intros h. by rewrite H.
      * eexists d, (_ :: gs'), gained. intros h. by rewrite H.
      * exists d, (g :: gs'), gained. intros h. by rewrite H.
    + destruct (_ <=? _)%float.
      * exists (value g * 2 + d), gs', gained. intros h.
        change (set_health_current (fun h0 => h0 + value g * 2) (hp h pl))
          with (hp (h + value g * 2) pl).
        by rewrite H, Z.add_assoc.
      * exists d, (g :: gs'), gained. intros h. by rewrite H.
    + exists d, (g :: gs'), gained. intros h. by rewrite H.
    + exists d, (g :: gs'), gained. intros h. by rewrite H.
Qed.

Lemma withHealth_same (w : World) :
  withHealth (health_current (player w)) w = w.
Proof.
  unfold withHealth. rewrite set_health_current_same. by destruct w.
Qed.

(** The whole pipeline: the player's health before the fixes is the
    health it started the tick with plus an amount that does not depend on
    it, and nothing else depends on it at all. *)
Lemma pipeline_health env o (w : World) :
  exists delta es ps gs gained, forall h,
    pipeline env o (withHealth h w) =
      (hp (h + delta) (afterAttack env o w), es, ps, gs, gained).
Proof.
  unfold pipeline, withHealth.
  cbn [player enemies projectiles groundItems upgrades tick playerAngle
       effective].
  destruct (playerAutoAttack o (upgrades w) (playerAngle w) (effective w)
    (controls env (effective w) (player w)) (projectiles w) (mkCalls 0 0))
    as [[pl1 ps1] c1] eqn:E1.
  destruct (processProjectiles_health
    (hasUpgrade (upgrades w) "lifeSteal") (effective w) ps1 (enemies w) pl1)
    as (d2 & ps2 & es2 & H2).
  destruct (processEnemies o (effective w) pl1 es2 c1)
    as [[[es3 shots] drops] c3] eqn:E3.
  destruct (processGroundItems_health (effective w) pl1
    (groundItems w ++ drops)) as (d4 & gs4 & gained & H4).
  assert (Hpl : afterAttack env o w = pl1)
    by (unfold afterAttack; by rewrite E1).
  rewrite Hpl.
  exists (d2 + d4),
    (spawnEnemies o (tick w) pl1 es3 c3), (ps2 ++ shots), gs4, gained.
  intros h.
  rewrite controls_health, playerAutoAttack_health, E1, H2.
  rewrite processEnemies_health, E3, H4.
  by rewrite Z.add_assoc.
Qed.

(** An enemy projectile that overlaps the player takes 1 from the
    player's health, whatever that health is, and is spliced out. *)
Lemma enemy_projectile_hit lifeSteal pwu p es pl :
  caster p ≠ uuid pl ->
  hitsPlayer pwu pl (moveProjectile p) = true ->
  processProjectile lifeSteal pwu p es pl =
    (None, es, set_health_current (fun h => h - 1) pl).
Proof.
  intros Hc Hhit. unfold processProjectile.
  change (caster (reduceEntityHitCooldown (moveProjectile p)))
    with (caster p).
  apply String.eqb_neq in Hc. rewrite Hc.
  change (hitsPlayer pwu pl (reduceEntityHitCooldown (moveProjectile p)))
    with (hitsPlayer pwu pl (moveProjectile p)).
  by rewrite Hhit.
Qed.

(** C10.  A tick that runs never looks at the sign of the player's
    health: started from any current health [h], the tick gives the same
    world, player included, except that the player's health is
    [h + delta] capped from above by the effective maximum, where [delta]
    (hits, life steal, pickups) does not depend on [h].  There is no floor:
    each overlapping enemy projectile takes exactly 1, also at or below 0,
    and the tick after is computed in the same way. *)
Theorem player_health_has_no_floor env o (w : World) :
  upgradeSelection w = [] ->
  (exists delta, forall h,
     tickEffect env o (withHealth h w) =
       withHealth (Z.min (h + delta) (health_max (effective w)))
         (tickEffect env o w)) ∧
  (forall lifeSteal pwu p es pl,
     caster p ≠ uuid pl ->
     hitsPlayer pwu pl (moveProjectile p) = true ->
     processProjectile lifeSteal pwu p es pl =
       (None, es, set_health_current (fun h => h - 1) pl)).
Proof.
  intros Hsel. split; [|apply enemy_projectile_hit].
  destruct (pipeline_health env o w) as (d & es & ps & gs & g & H).
  exists d. intros h.
  pose proof (H (health_current (player w))) as H0.
  rewrite withHealth_same in H0.
  unfold tickEffect. cbn [withHealth upgradeSelection].
  rewrite Hsel, H, H0. reflexivity.
Qed.

(** ** Cooldowns through the pipeline *)

Lemma damageEnemies_cooldowns lifeSteal p es pl :
  Forall cooldownInRange es ->
  Forall cooldownInRange (damageEnemies lifeSteal p es pl).1.1.1.
Proof.
  revert p pl. induction es as [|e rest IH]; intros p pl Hes; [done|].
  apply Forall_cons in Hes as [He Hrest]. cbn [damageEnemies].
  destruct (hitsEnemy p e); [destruct (isPiercing p);
    [destruct (canHit p (uuid e))|]|]; cbn [processHit];
    try (match goal with
         | |- context [damageEnemies ?a ?b rest ?c] =>
             specialize (IH b c Hrest);
             destruct (damageEnemies a b rest c) as [[[? ?] ?] ?]
         end; cbn [fst snd] in *; by apply Forall_cons).
  cbn [fst snd]. by apply Forall_cons.
Qed.

Lemma processProjectiles_cooldowns lifeSteal pwu ps es pl :
  Forall cooldownInRange es ->
  Forall cooldownInRange (processProjectiles lifeSteal pwu ps es pl).1.2.
Proof.
  revert es pl. induction ps as [|p rest IH]; intros es pl Hes; [done|].
  cbn [processProjectiles].
  assert (H1 : Forall cooldownInRange
                 (processProjectile lifeSteal pwu p es pl).1.2).
  { unfold processProjectile. destruct (String.eqb _ _).
    - pose proof (damageEnemies_cooldowns lifeSteal
        (reduceEntityHitCooldown (moveProjectile p)) es pl Hes) as H.
      by destruct (damageEnemies _ _ es pl) as [[[? ?] ?] []].
    - by destruct (hitsPlayer _ _ _). }
  destruct (processProjectile _ _ p es pl) as [[k es1] pl1].
  specialize (IH es1 pl1 H1).
  by destruct (processProjectiles _ _ rest es1 pl1) as [[? ?] ?].
Qed.

(** The attack step of an enemy keeps its cooldown in range. *)
Lemma enemyAttack_cooldown id ang e :
  cooldownInRange e -> cooldownInRange (enemyAttack id ang e).1.
Proof.
  unfold enemyAttack, cooldownInRange. intros He.
  destruct (cooldown_current e =? 0) eqn:E; simpl.
  - unfold cooldown_current, cooldown_max in *. simpl. lia.
  - apply Z.eqb_neq in E.
    unfold cooldown_current, cooldown_max in *. simpl. lia.
Qed.

Lemma processEnemies_cooldowns o pwu pl es c :
  Forall cooldownInRange es ->
  Forall cooldownInRange (processEnemies o pwu pl es c).1.1.1.
Proof.
  revert c. induction es as [|e rest IH]; intros c Hes; [done|].
  apply Forall_cons in Hes as [He Hrest]. cbn [processEnemies].
  destruct (health_current e <=? 0).
  - specialize (IH (tookUuid (tookRandom c)) Hrest).
    by destruct (processEnemies _ _ _ rest _) as [[[? ?] ?] ?].
  - destruct (_ <? _)%float.
    + specialize (IH c Hrest).
      destruct (processEnemies _ _ _ rest _) as [[[? ?] ?] ?].
      cbn [fst snd] in *. by apply Forall_cons.
    + pose proof (enemyAttack_cooldown (uuidv4 o (nuuid c))
        (Math_atan2 (y pl - y e) (x pl - x e)) e He) as Hatt.
      destruct (enemyAttack _ _ e) as [e' shot]. cbn [fst] in Hatt.
      match goal with
      | |- context [processEnemies o pwu pl rest ?c1] =>
          specialize (IH c1 Hrest);
          destruct (processEnemies o pwu pl rest c1) as [[[? ?] ?] ?]
      end.
      cbn [fst snd] in *. by apply Forall_cons.
Qed.

Lemma spawnEnemies_cooldowns o tk pl es c :
  Forall cooldownInRange es ->
  Forall cooldownInRange (spawnEnemies o tk pl es c).
Proof.
  intros Hes. unfold spawnEnemies. destruct (Z.rem tk 100 =? 0); [|done].
  apply Forall_app. split; [done|]. apply Forall_singleton.
  unfold cooldownInRange, cooldown_current, cooldown_max. simpl. lia.
Qed.

Lemma tickEffect_cooldowns env o (w : World) :
  Forall cooldownInRange (enemies w) ->
  Forall cooldownInRange (enemies (tickEffect env o w)).
Proof.
  intros Hes. unfold tickEffect.
  destruct (upgradeSelection w); [|done]. unfold pipeline.
  destruct (playerAutoAttack _ _ _ _ _ _ _) as [[pl1 ps1] c1].
  pose proof (processProjectiles_cooldowns
    (hasUpgrade (upgrades w) "lifeSteal") (effective w) ps1 (enemies w) pl1
    Hes) as Hps.
  destruct (processProjectiles _ _ ps1 _ pl1) as [[ps2 es2] pl2].
  pose proof (processEnemies_cooldowns o (effective w) pl2 es2 c1 Hps) as H3.
  destruct (processEnemies _ _ pl2 es2 c1) as [[[es3 shots] drops] c3].
  destruct (processGroundItems _ pl2 _) as [[gs4 pl4] gained].
  cbn [fst snd enemies] in *. by apply spawnEnemies_cooldowns.
Qed.

(** ** The player through a tick *)

Lemma controls_stats env pwu pl : stats (controls env pwu pl) = stats pl.
Proof.
  unfold controls.
  by destruct (key_w env), (key_a env), (key_s env), (key_d env).
Qed.

Lemma playerAutoAttack_stats o ups ang pwu pl ps c :
  health (stats (playerAutoAttack o ups ang pwu pl ps c).1.1)
    = health (stats pl) ∧
  cooldown_max (playerAutoAttack o ups ang pwu pl ps c).1.1
    = cooldown_max pl ∧
  cooldown_current (playerAutoAttack o ups ang pwu pl ps c).1.1 =
    if cooldown_current pl =? 0 then cooldown_max pwu
    else cooldown_current pl - 1.
Proof.
  unfold playerAutoAttack. by destruct (cooldown_current pl =? 0).
Qed.

Lemma afterAttack_stats env o (w : World) :
  health (stats (afterAttack env o w)) = health (stats (player w)) ∧
  cooldown_max (afterAttack env o w) = cooldown_max (player w) ∧
  cooldown_current (afterAttack env o w) =
    if cooldown_current (player w) =? 0 then cooldown_max (effective w)
    else cooldown_current (player w) - 1.
Proof.
  unfold afterAttack.
  destruct (playerAutoAttack_stats o (upgrades w) (playerAngle w)
    (effective w) (controls env (effective w) (player w)) (projectiles w)
    (mkCalls 0 0)) as (H1 & H2 & H3).
  rewrite H1, H2, H3. unfold cooldown_max, cooldown_current.
  by rewrite controls_stats.
Qed.

(** The player after a tick that ran, in terms of the player after the
    auto attack. *)
Lemma tickEffect_player env o (w : World) :
  upgradeSelection w = [] ->
  exists h,
    player (tickEffect env o w) =
      set_face (mouseFace env w)
        (set_health_current (fun _ => Z.min h (health_max (effective w)))
           (afterAttack env o w)).
Proof.
  intros Hsel.
  destruct (pipeline_health env o w) as (d & es & ps & gs & g & H).
  specialize (H (health_current (player w))).
  rewrite withHealth_same in H.
  unfold tickEffect. rewrite Hsel, H. cbn [player].
  exists (health_current (player w) + d). reflexivity.
Qed.

Lemma tickEffect_frame env o (w : World) :
  upgrades (tickEffect env o w) = upgrades w ∧
  effective (tickEffect env o w) = effective w ∧
  upgradeSelection (tickEffect env o w) = upgradeSelection w.
Proof.
  unfold tickEffect. destruct (upgradeSelection w) eqn:E; [|done].
  by destruct (pipeline env o w) as [[[[? ?] ?] ?] ?].
Qed.

(** ** The invariant of the running component *)

Lemma consistent_tickEffect env o (w : World) :
  consistent w -> consistent (tickEffect env o w).
Proof.
  intros Hw. destruct (upgradeSelection w) as [|s sel] eqn:Hsel.
  2:{ unfold tickEffect. by rewrite Hsel. }
  destruct (tickEffect_frame env o w) as (Hu & He & Hs).
  destruct (tickEffect_player env o w Hsel) as [h Hpl].
  destruct (afterAttack_stats env o w) as (A1 & A2 & A3).
  pose proof (tickEffect_cooldowns env o w (enemies_cooldown w Hw)) as Hen.
  destruct Hw as [K EH EC BC CAP OFF HC PC _].
  assert (Hmax : health_max (player (tickEffect env o w))
                 = health_max (player w)).
  { rewrite Hpl. unfold health_max in *. simpl. by rewrite A1. }
  assert (Hcm : cooldown_max (player (tickEffect env o w))
                = cooldown_max (player w)) by (by rewrite Hpl).
  assert (Hcc : cooldown_current (player (tickEffect env o w))
                = cooldown_current (afterAttack env o w)) by (by rewrite Hpl).
  constructor; rewrite ?Hu, ?He, ?Hs, ?Hmax, ?Hcm; try done.
  - unfold healthCapped. rewrite He, Hpl. unfold health_current. simpl. lia.
  - unfold cooldownInRange in *. rewrite Hcm, Hcc, A3.
    destruct (cooldown_current (player w) =? 0) eqn:E.
    + rewrite EC. lia.
    + apply Z.eqb_neq in E. lia.
Qed.

Lemma consistent_setTick (w : World) : consistent w -> consistent (setTick w).
Proof. intros []. by constructor. Qed.

Lemma consistent_mouseMove env mx my (w : World) :
  consistent w -> consistent (mouseMove env mx my w).
Proof. intros []. by constructor. Qed.

(** What passes the filter is in the catalog, and a common entry passed
    the test on its level. *)
Lemma filterAvailable_elem_of o (ups : Upgrades) catalog c u :
  u ∈ (filterAvailable o ups catalog c).1 ->
  u ∈ catalog ∧ (rarity u = Common -> commonOpen ups u = true).
Proof.
  revert c. induction catalog as [|u0 rest IH]; intros c; simpl.
  - intros H. by apply elem_of_nil in H.
  - assert (Hrest : forall c', u ∈ (filterAvailable o ups rest c').1 ->
      u ∈ u0 :: rest ∧ (rarity u = Common -> commonOpen ups u = true)).
    { intros c' H. apply IH in H as [H1 H2]. split; [by right | done]. }
    destruct (rarity u0) eqn:R.
    + destruct (filterAvailable o ups rest c) as [l c'] eqn:E.
      assert (Hl : u ∈ l ->
        u ∈ u0 :: rest ∧ (rarity u = Common -> commonOpen ups u = true)).
      { intros H. apply (Hrest c). by rewrite E. }
      fold (commonOpen ups u0).
      destruct (commonOpen ups u0) eqn:Hkeep; simpl; [|done].
      intros H. apply elem_of_cons in H as [->|H]; [|by apply Hl].
      split; [by left | done].
    + destruct (filterAvailable o ups rest (tookRandom c)) as [l c'] eqn:E.
      assert (Hl : u ∈ l ->
        u ∈ u0 :: rest ∧ (rarity u = Common -> commonOpen ups u = true)).
      { intros H. apply (Hrest (tookRandom c)). by rewrite E. }
      destruct (_ <? _)%float; simpl; [|done].
      intros H. apply elem_of_cons in H as [->|H]; [|by apply Hl].
      split; [by left | congruence].
    + destruct (negb (truthy (lookupUpgrade ups (u_id u0)))); [|by apply Hrest].
      destruct (filterAvailable o ups rest (tookRandom c)) as [l c'] eqn:E.
      assert (Hl : u ∈ l ->
        u ∈ u0 :: rest ∧ (rarity u = Common -> commonOpen ups u = true)).
      { intros H. apply (Hrest (tookRandom c)). by rewrite E. }
      destruct (_ <? _)%float; simpl; [|done].
      intros H. apply elem_of_cons in H as [->|H]; [|by apply Hl].
      split; [by left | congruence].
Qed.

(** The draw offers "attackSpeed" only below its level cap of 20. *)
Lemma getRandomUpgrades_attackSpeed fuel o (ups : Upgrades) l :
  getRandomUpgrades fuel o ups 3 = Returned l ->
  "attackSpeed" ∈ l -> levelOf ups "attackSpeed" < 20.
Proof.
  unfold getRandomUpgrades.
  destruct (filterAvailable o ups UPGRADES (mkCalls 0 0)) as [av c0] eqn:E.
  intros Hret Hin.
  apply drawLoop_returned in Hret as (_ & _ & H3);
    [| apply NoDup_nil_2 | simpl; lia].
  destruct (H3 _ Hin) as [Hnil|(u & Hu & Hid)]; [by apply elem_of_nil in Hnil|].
  assert (Hu' : u ∈ (filterAvailable o ups UPGRADES (mkCalls 0 0)).1)
    by (by rewrite E).
  apply filterAvailable_elem_of in Hu' as [Hcat Hkeep].
  unfold UPGRADES in Hcat.
  repeat (apply elem_of_cons in Hcat as [->|Hcat]); try discriminate Hid;
    [|by apply elem_of_nil in Hcat].
  specialize (Hkeep eq_refl). unfold levelOf. unfold commonOpen in Hkeep.
  simpl in Hkeep.
  destruct (lookupUpgrade ups "attackSpeed") as [v|]; [|lia].
  simpl in Hkeep. rewrite orb_false_r in Hkeep.
  apply orb_true_iff in Hkeep as [Hz|Hlt].
  - apply negb_true_iff, negb_false_iff, Z.eqb_eq in Hz. lia.
  - apply Z.ltb_lt in Hlt. lia.
Qed.

Lemma consistent_xpEffect fuel o (w w' : World) :
  consistent w -> xpEffect fuel o w = Returned w' -> consistent w'.
Proof.
  intros Hw. unfold xpEffect.
  destruct (getMaxXp w <=? xp w); [|by intros [= <-]].
  destruct (getRandomUpgrades fuel o (upgrades w) 3) as [l| |] eqn:E; [|done..].
  intros [= <-]. destruct Hw as [K EH EC BC CAP OFF HC PC EN].
  constructor; try done. cbn [levelUp upgradeSelection upgrades].
  by eapply getRandomUpgrades_attackSpeed.
Qed.

Lemma consistent_renderEffect (w : World) :
  consistent w -> consistent (renderEffect w).
Proof.
  intros []. constructor; try done. cbn [renderEffect enemies].
  by rewrite sortByY_Permutation.
Qed.

Lemma consistent_interval env o fuel o1 o2 (w w' : World) :
  consistent w -> interval env o fuel o1 o2 w = Returned w' -> consistent w'.
Proof.
  intros Hw. unfold interval.
  pose proof (consistent_tickEffect env o _ (consistent_setTick w Hw)) as H0.
  set (w1 := match upgradeSelection w with
             | [] => tickEffect env o (setTick w)
             | _ :: _ => renderEffect (tickEffect env o (setTick w))
             end).
  assert (H1 : consistent w1).
  { subst w1. destruct (upgradeSelection w); [done|].
    by apply consistent_renderEffect. }
  clearbody w1.
  destruct (xp w1 =? xp w); [by intros [= <-]|].
  destruct (xpEffect fuel o1 w1) as [w2| |] eqn:E; [|done..].
  pose proof (consistent_xpEffect _ _ _ _ H1 E) as H2.
  destruct (xp w2 =? xp w1); [by intros [= <-]|].
  by apply consistent_xpEffect.
Qed.

Lemma consistent_selectUpgrade id (w : World) :
  consistent w -> id ∈ upgradeSelection w -> consistent (selectUpgrade id w).
Proof.
  intros [K EH EC BC CAP OFF HC PC EN] Hid.
  pose proof (assign_NoDup (upgrades w) id (levelOf (upgrades w) id + 1) K)
    as K'.
  destruct (playerWithUpgrades_maxima (player w) _ K') as (MH & _ & MC).
  constructor; cbn [selectUpgrade upgrades effective player enemies
                    upgradeSelection]; try done.
  - destruct (decide ("attackSpeed"%string = id)) as [<-|Hne].
    + rewrite levelOf_assign_eq. specialize (OFF Hid). lia.
    + by rewrite levelOf_assign_ne.
  - intros H. by apply elem_of_nil in H.
  - unfold healthCapped in *.
    cbn [selectUpgrade upgrades effective player]. rewrite MH, EH in *.
    destruct (decide ("health"%string = id)) as [<-|Hne].
    + rewrite levelOf_assign_eq. lia.
    + by rewrite levelOf_assign_ne.
Qed.

Lemma consistent_initialWorld env id : consistent (initialWorld env id).
Proof.
  constructor; simpl; try done. apply NoDup_nil_2.
Qed.

Lemma consistent_mount env o oMount id : consistent (mount env o oMount id).
Proof.
  pose proof (consistent_tickEffect env o _ (consistent_initialWorld env id))
    as [K EH EC BC CAP OFF HC PC EN].
  unfold mount. constructor; try done.
  cbn [enemies]. unfold initialEnemies. apply Forall_fmap, Forall_forall.
  intros i _. unfold cooldownInRange. simpl. done.
Qed.

Lemma reachable_consistent (w : World) : reachable w -> consistent w.
Proof.
  induction 1 as [env o oMount id | w w' _ IH Hstep].
  - apply consistent_mount.
  - destruct Hstep as [env o fuel o1 o2 w w' Hi | id w Hid | env mx my w].
    + by eapply consistent_interval.
    + by apply consistent_selectUpgrade.
    + by apply consistent_mouseMove.
Qed.

(** ** C1 and C2: the two bounds *)

(** C1.  A tick that runs ends with the clamp, so from any state at all
    it publishes a player whose current health is at most the effective
    maximum held by the [playerWithUpgrades] memo.  In every state the
    running component goes through (ticks that ran, ticks that were
    paused, level ups, selections) the bound holds, it keeps holding
    after the next tick, and the memo's maximum is the one derived from
    the stored player and the current upgrade levels. *)
Theorem health_capped_after_every_tick env o (w : World) :
  (upgradeSelection w = [] -> healthCapped (tickEffect env o w)) ∧
  (reachable w ->
   healthCapped w ∧
   healthCapped (tickEffect env o w) ∧
   health_max (effective w) =
     health_max (playerWithUpgrades (player w) (upgrades w))).
Proof.
  split.
  - intros Hsel. unfold healthCapped.
    destruct (tickEffect_frame env o w) as (_ & He & _).
    destruct (tickEffect_player env o w Hsel) as [h Hpl].
    rewrite He, Hpl. unfold health_current. simpl. lia.
  - intros Hr. apply reachable_consistent in Hr.
    pose proof (consistent_tickEffect env o w Hr) as Ht.
    split_and!; [by destruct Hr | by destruct Ht |].
    destruct (playerWithUpgrades_maxima (player w) (upgrades w)
      (keys_distinct w Hr)) as (-> & _).
    by destruct Hr.
Qed.

(** C2.  In every state the running component goes through, the player
    and every enemy have [0 <= cooldown.current <= cooldown.max], the
    maximum being the one stored in the entity; the effective maximum the
    player's cooldown is reset to lies between 0 and the stored one.  The
    attack step of the player and of an enemy resets a cooldown of 0 to
    the (effective, resp. own) maximum and takes 1 off any other. *)
Theorem cooldowns_stay_in_range (w : World) :
  reachable w ->
  cooldownInRange (player w) ∧
  Forall cooldownInRange (enemies w) ∧
  0 <= cooldown_max (effective w) <= cooldown_max (player w) ∧
  (forall env o,
     cooldown_current (afterAttack env o w) =
       if cooldown_current (player w) =? 0 then cooldown_max (effective w)
       else cooldown_current (player w) - 1) ∧
  (forall id ang e,
     cooldown_current (enemyAttack id ang e).1 =
       if cooldown_current e =? 0 then cooldown_max e
       else cooldown_current e - 1).
Proof.
  intros Hr. apply reachable_consistent in Hr.
  destruct Hr as [K EH EC BC CAP OFF HC PC EN].
  split_and!; [done | done | lia | lia | |].
  - intros env o. by destruct (afterAttack_stats env o w) as (_ & _ & ->).
  - intros id ang e. unfold enemyAttack.
    by destruct (cooldown_current e =? 0).
Qed.

(** * Further properties of the code *)

(** ** Derived stats *)

Lemma applyUpgrade_cases acc k v :
  (switchKey k = true ∧
   (k = "attackRadius"%string ∨ k = "movementSpeed"%string ∨
    k = "health"%string ∨ k = "attackDamage"%string ∨
    k = "attackSpeed"%string)) ∨
  (switchKey k = false ∧ applyUpgrade acc (k, v) = acc).
Proof.
  unfold switchKey.
  destruct (String.eqb k "attackRadius") eqn:E1;
    [apply String.eqb_eq in E1; left; naive_solver|].
  destruct (String.eqb k "movementSpeed") eqn:E2;
    [apply String.eqb_eq in E2; left; naive_solver|].
  destruct (String.eqb k "health") eqn:E3;
    [apply String.eqb_eq in E3; left; naive_solver|].
  destruct (String.eqb k "attackDamage") eqn:E4;
    [apply String.eqb_eq in E4; left; naive_solver|].
  destruct (String.eqb k "attackSpeed") eqn:E5;
    [apply String.eqb_eq in E5; left; naive_solver|].
  right. split; [done|]. by apply applyUpgrade_other.
Qed.

Lemma applyUpgrade_outsideSwitch acc k v :
  outsideSwitch (applyUpgrade acc (k, v)) = outsideSwitch acc.
Proof.
  destruct (switch_values_defined acc v) as (H1 & H2 & H3 & H4 & H5).
  destruct (applyUpgrade_cases acc k v)
    as [[_ [->|[->|[->|[->| ->]]]]]|[_ ->]];
    rewrite ?H1, ?H2, ?H3, ?H4, ?H5; reflexivity.
Qed.

(** Two entries with different keys can be applied in either order. *)
Lemma applyUpgrade_comm acc k1 v1 k2 v2 :
  k1 ≠ k2 ->
  applyUpgrade (applyUpgrade acc (k1, v1)) (k2, v2) =
  applyUpgrade (applyUpgrade acc (k2, v2)) (k1, v1).
Proof.
  intros Hne.
  destruct (applyUpgrade_cases acc k1 v1) as [[_ K1]|[S1 E1]].
  2:{ rewrite E1.
      destruct (applyUpgrade_cases (applyUpgrade acc (k2, v2)) k1 v1)
        as [[F _]|[_ ->]]; [congruence | done]. }
  destruct (applyUpgrade_cases acc k2 v2) as [[_ K2]|[S2 E2]].
  2:{ rewrite E2.
      destruct (applyUpgrade_cases (applyUpgrade acc (k1, v1)) k2 v2)
        as [[F _]|[_ ->]]; [congruence | done]. }
  destruct K1 as [->|[->|[->|[->| ->]]]];
    destruct K2 as [->|[->|[->|[->| ->]]]];
    try congruence;
    repeat match goal with
           | |- context [applyUpgrade ?a (?k, ?v)] =>
               let H := fresh in
               pose proof (switch_values_defined a v) as H;
               destruct H as (-> & -> & -> & -> & ->)
           end; reflexivity.
Qed.

Lemma fold_applyUpgrade_Permutation (ups ups' : Upgrades) :
  ups ≡ₚ ups' -> NoDup ups.*1 ->
  forall acc, fold_left applyUpgrade ups acc = fold_left applyUpgrade ups' acc.
Proof.
  induction 1 as [|e l l' Hp IH|[k1 v1] [k2 v2] l|l l' l'' Hp1 IH1 Hp2 IH2];
    intros Hnd acc.
  - done.
  - rewrite fmap_cons in Hnd. apply NoDup_cons in Hnd as [_ Hnd].
    cbn [fold_left]. by apply IH.
  - rewrite !fmap_cons in Hnd. cbn [fst] in Hnd.
    apply NoDup_cons in Hnd as [Hk _].
    apply not_elem_of_cons in Hk as [Hne _].
    cbn [fold_left]. by rewrite (applyUpgrade_comm acc k2 v2 k1 v1).
  - rewrite IH1 by done. apply IH2. by rewrite <- Hp1.
Qed.

(** X1.  The effective stats do not depend on the order in which the
    upgrade ids were inserted: with one entry per id, any reordering of
    the entries derives the same entity. *)
Theorem playerWithUpgrades_order_irrelevant p (ups ups' : Upgrades) :
  NoDup ups.*1 -> ups ≡ₚ ups' ->
  playerWithUpgrades p ups = playerWithUpgrades p ups'.
Proof.
  intros Hnd Hp. unfold playerWithUpgrades.
  by apply fold_applyUpgrade_Permutation.
Qed.

(** X2.  Whatever the upgrade levels are (unknown ids, repeated ids,
    negative levels), the derivation leaves alone the identity, the
    position, the facing, the level, the current health, the collision
    radius, the running cooldown, the range and the projectile speed. *)
Theorem playerWithUpgrades_keeps_outside_switch p (ups : Upgrades) :
  outsideSwitch (playerWithUpgrades p ups) = outsideSwitch p.
Proof.
  unfold playerWithUpgrades. revert p.
  induction ups as [|[k v] rest IH]; intros p; [done|].
  cbn [fold_left]. by rewrite IH, applyUpgrade_outsideSwitch.
Qed.

Lemma applyUpgrade_floats acc k v :
  attack_radius (attack (stats (applyUpgrade acc (k, v)))) =
    (if String.eqb k "attackRadius"
     then (attack_radius (attack (stats acc)) + Z2float (8 * v))%float
     else attack_radius (attack (stats acc))) ∧
  speed (stats (applyUpgrade acc (k, v))) =
    (if String.eqb k "movementSpeed"
     then (speed (stats acc) + Z2float (25 * v) / 100)%float
     else speed (stats acc)).
Proof.
  destruct (switch_values_defined acc v) as (H1 & H2 & H3 & H4 & H5).
  destruct (applyUpgrade_cases acc k v)
    as [[_ [->|[->|[->|[->| ->]]]]]|[S E]];
    rewrite ?H1, ?H2, ?H3, ?H4, ?H5; try (split; reflexivity).
  rewrite E. unfold switchKey in S.
  destruct (String.eqb k "attackRadius"); [done|].
  by destruct (String.eqb k "movementSpeed").
Qed.

(** X3.  With one entry per id, the effective attack radius is the base
    radius plus 8 per level of "attackRadius", and the effective speed is
    the base speed plus 25/100 per level of "movementSpeed", each added
    once (in binary64 arithmetic); without the entry the base value is
    kept as it is. *)
Theorem playerWithUpgrades_radius_and_speed p (ups : Upgrades) :
  NoDup ups.*1 ->
  attack_radius (attack (stats (playerWithUpgrades p ups))) =
    match lookupUpgrade ups "attackRadius" with
    | Some l => (attack_radius (attack (stats p)) + Z2float (8 * l))%float
    | None => attack_radius (attack (stats p))
    end ∧
  speed (stats (playerWithUpgrades p ups)) =
    match lookupUpgrade ups "movementSpeed" with
    | Some l => (speed (stats p) + Z2float (25 * l) / 100)%float
    | None => speed (stats p)
    end.
Proof.
  unfold playerWithUpgrades. revert p.
  induction ups as [|[k v] rest IH]; intros p Hnd; [done|].
  rewrite fmap_cons in Hnd. cbn [fst] in Hnd.
  apply NoDup_cons in Hnd as [Hk Hnd].
  cbn [fold_left lookupUpgrade].
  destruct (IH (applyUpgrade p (k, v)) Hnd) as [-> ->].
  destruct (applyUpgrade_floats p k v) as [-> ->].
  split.
  - destruct (String.eqb k "attackRadius") eqn:E; [|done].
    apply String.eqb_eq in E. subst k. by rewrite lookup_not_key.
  - destruct (String.eqb k "movementSpeed") eqn:E; [|done].
    apply String.eqb_eq in E. subst k. by rewrite lookup_not_key.
Qed.

(** X4.  Entries whose id the switch has no case for ("piercing",
    "lifeSteal", ids unknown to the catalog) are skipped: the derivation
    gives the same entity as on the entries of the five stat upgrades
    alone. *)
Theorem playerWithUpgrades_ignores_other_ids p (ups : Upgrades) :
  playerWithUpgrades p ups =
    playerWithUpgrades p (List.filter (fun e => switchKey e.1) ups).
Proof.
  unfold playerWithUpgrades. revert p.
  induction ups as [|[k v] rest IH]; intros p; [done|].
  cbn [List.filter fst fold_left].
  destruct (applyUpgrade_cases p k v) as [[-> _]|[-> E]].
  - cbn [fold_left]. apply IH.
  - rewrite E. apply IH.
Qed.

(** ** The catalog *)

(** X5.  [getUpgradeById] finds exactly the catalog entry with the asked
    id: it returns [u] iff [u] is in the catalog and has that id (the ids
    of the catalog are pairwise different), and it returns nothing iff no
    entry has that id. *)
Theorem getUpgradeById_finds_the_entry id :
  (forall u, getUpgradeById id = Some u <-> u ∈ UPGRADES ∧ u_id u = id) ∧
  (getUpgradeById id = None <-> id ∉ u_id <$> UPGRADES).
Proof.
  assert (Hfwd : forall u, getUpgradeById id = Some u ->
                           u ∈ UPGRADES ∧ u_id u = id).
  { intros u H. apply find_some in H as [Hin Heq].
    apply String.eqb_eq in Heq. split; [by apply list_elem_of_In | done]. }
  assert (Hbwd : forall u, u ∈ UPGRADES -> getUpgradeById (u_id u) = Some u).
  { intros u Hin. unfold UPGRADES in Hin.
    repeat (apply elem_of_cons in Hin as [->|Hin]); try reflexivity.
    by apply elem_of_nil in Hin. }
  split.
  - intros u. split; [apply Hfwd|]. intros [Hin <-]. by apply Hbwd.
  - split.
    + intros Hnone Hin. apply list_elem_of_fmap in Hin as (u & -> & Hu).
      apply Hbwd in Hu. congruence.
    + intros Hnin. destruct (getUpgradeById id) as [u|] eqn:E; [|done].
      destruct (Hfwd u eq_refl) as [Hin <-]. exfalso. apply Hnin.
      apply list_elem_of_fmap. by exists u.
Qed.

(** ** The selection handler, twice *)

Lemma assign_assign_Permutation (ups : Upgrades) a b va vb :
  a ≠ b ->
  assignUpgrade (assignUpgrade ups b vb) a va ≡ₚ
  assignUpgrade (assignUpgrade ups a va) b vb.
Proof.
  intros Hne. induction ups as [|[k v0] rest IH]; cbn [assignUpgrade].
  - destruct (String.eqb b a) eqn:E1; [apply String.eqb_eq in E1; congruence|].
    destruct (String.eqb a b) eqn:E2; [apply String.eqb_eq in E2; congruence|].
    apply Permutation_swap.
  - destruct (String.eqb k b) eqn:Eb; destruct (String.eqb k a) eqn:Ea;
      cbn [assignUpgrade]; rewrite ?Eb, ?Ea; try done.
    + apply String.eqb_eq in Eb, Ea. congruence.
    + by f_equiv.
Qed.

(** X6.  Two selections in a row can be swapped: with one entry per id,
    selecting [a] after [b] gives the same level for every id and the
    same effective stats as selecting [b] after [a]; the entries are the
    same up to their order. *)
Theorem selectUpgrade_order_irrelevant a b (w : World) :
  NoDup (upgrades w).*1 ->
  upgrades (selectUpgrade a (selectUpgrade b w)) ≡ₚ
    upgrades (selectUpgrade b (selectUpgrade a w)) ∧
  (forall id,
     levelOf (upgrades (selectUpgrade a (selectUpgrade b w))) id =
     levelOf (upgrades (selectUpgrade b (selectUpgrade a w))) id) ∧
  effective (selectUpgrade a (selectUpgrade b w)) =
    effective (selectUpgrade b (selectUpgrade a w)).
Proof.
  intros Hnd. destruct (decide (a = b)) as [->|Hne]; [done|].
  assert (Hperm : upgrades (selectUpgrade a (selectUpgrade b w)) ≡ₚ
                  upgrades (selectUpgrade b (selectUpgrade a w))).
  { cbn [selectUpgrade upgrades].
    rewrite (levelOf_assign_ne (upgrades w) b a) by done.
    rewrite (levelOf_assign_ne (upgrades w) a b) by done.
    by apply assign_assign_Permutation. }
  split_and!; [done | |].
  - intros id. cbn [selectUpgrade upgrades].
    rewrite (levelOf_assign_ne (upgrades w) b a) by done.
    rewrite (levelOf_assign_ne (upgrades w) a b) by done.
    destruct (decide (id = a)) as [->|Ha].
    + rewrite levelOf_assign_eq, levelOf_assign_ne by done.
      by rewrite levelOf_assign_eq.
    + rewrite (levelOf_assign_ne _ a id) by done.
      destruct (decide (id = b)) as [->|Hb].
      * by rewrite !levelOf_assign_eq.
      * by rewrite !levelOf_assign_ne.
  - cbn [selectUpgrade effective player upgrades] in *.
    apply fold_applyUpgrade_Permutation; [done|].
    by do 2 apply assign_NoDup.
Qed.

(** ** Looking an enemy up *)

(** X7.  [getEnemyByUUID] returns an enemy of the list with the asked
    id, nothing iff no enemy has it, and, when the ids of the list are
    pairwise different, every enemy of the list is found under its own
    id. *)
Theorem getEnemyByUUID_finds_the_enemy (es : list Entity) id :
  (forall e, getEnemyByUUID es id = Some e -> e ∈ es ∧ uuid e = id) ∧
  (getEnemyByUUID es id = None <-> id ∉ uuid <$> es) ∧
  (forall e, NoDup (uuid <$> es) -> e ∈ es ->
             getEnemyByUUID es (uuid e) = Some e).
Proof.
  split_and!.
  - intros e H. apply find_some in H as [Hin Heq].
    apply String.eqb_eq in Heq. split; [by apply list_elem_of_In | done].
  - unfold getEnemyByUUID. induction es as [|e0 rest IH]; simpl.
    + split; [intros _ H; by apply elem_of_nil in H | done].
    + destruct (String.eqb (uuid e0) id) eqn:E.
      * apply String.eqb_eq in E. split; [done|]. intros H. exfalso.
        apply H. rewrite E. left.
      * apply String.eqb_neq in E. rewrite IH, not_elem_of_cons. naive_solver.
  - intros e Hnd Hin. unfold getEnemyByUUID.
    induction es as [|e0 rest IH]; [by apply elem_of_nil in Hin|].
    rewrite fmap_cons in Hnd. apply NoDup_cons in Hnd as [Hfresh Hnd].
    simpl. apply elem_of_cons in Hin as [->|Hin].
    + by rewrite String.eqb_refl.
    + destruct (String.eqb (uuid e0) (uuid e)) eqn:E; [|by apply IH].
      apply String.eqb_eq in E. exfalso. apply Hfresh. rewrite E.
      apply list_elem_of_fmap. by exists e.
Qed.

(** ** Projectiles *)

Lemma processProjectile_kept lifeSteal pwu p0 es pl p' es' pl' :
  processProjectile lifeSteal pwu p0 es pl = (Some p', es', pl') ->
  advanced p0 p' ∧ outOfRange p' = false.
Proof.
  unfold processProjectile, rangeCheck, advanced.
  destruct (String.eqb _ _).
  - destruct (damageEnemies _ _ es pl) as [[[r1 p1] pl1] b1] eqn:E.
    apply damageEnemies_projectile in E as [[m ->] _].
    destruct b1; [done|].
    destruct (outOfRange _) eqn:R; [done|]. intros [= <- <- <-].
    split; [by exists m | done].
  - destruct (hitsPlayer _ _ _); [done|].
    destruct (outOfRange _) eqn:R; [done|]. intros [= <- <- <-].
    split; [|done].
    exists ((fun cd => if 0 <? cd then cd - 1 else cd)
              <$> entityHitCooldown p0). reflexivity.
Qed.

(** X8.  Range expiry.  The projectiles that one pass of the loop leaves
    in the list are, in their old order, some of the projectiles it
    found, each one step further along its angle, and every one of them
    is within its range, measured from its spawn point: none is created,
    none is left at or beyond its range. *)
Theorem processProjectiles_keeps_in_range lifeSteal pwu
    (ps : list Projectile) es pl :
  exists ps0,
    sublist ps0 ps ∧
    Forall2 advanced ps0 (processProjectiles lifeSteal pwu ps es pl).1.1 ∧
    Forall (fun p => outOfRange p = false)
      (processProjectiles lifeSteal pwu ps es pl).1.1.
Proof.
  revert es pl. induction ps as [|p rest IH]; intros es pl.
  - exists []. by split_and!.
  - cbn [processProjectiles].
    destruct (processProjectile lifeSteal pwu p es pl) as [[k es1] pl1] eqn:E.
    destruct (IH es1 pl1) as (ps0 & Hsub & Hadv & Hin).
    destruct (processProjectiles lifeSteal pwu rest es1 pl1)
      as [[rest' es2] pl2].
    cbn [fst snd] in *. destruct k as [p'|].
    + apply processProjectile_kept in E as [Ha Hr].
      exists (p :: ps0). split_and!.
      * by apply sublist_skip.
      * by apply Forall2_cons.
      * by apply Forall_cons.
    + exists ps0. split_and!; [by apply sublist_cons | done | done].
Qed.

Lemma set_health_current_ext (f g : Z -> Z) e :
  f (health_current e) = g (health_current e) ->
  set_health_current f e = set_health_current g e.
Proof.
  unfold set_health_current, set_stats, set_health, set_current, health_current.
  intros H. by rewrite H.
Qed.

Lemma set_health_current_add_0 e : set_health_current (fun h => h + 0) e = e.
Proof.
  rewrite <- (set_health_current_same e) at 2.
  apply set_health_current_ext. lia.
Qed.

Lemma hurt_refl e : hurt e e.
Proof.
  exists 0. split; [done|].
  rewrite <- (set_health_current_same e) at 1.
  apply set_health_current_ext. lia.
Qed.

Lemma hurt_trans e1 e2 e3 : hurt e1 e2 -> hurt e2 e3 -> hurt e1 e3.
Proof.
  intros (d1 & H1 & ->) (d2 & H2 & ->). exists (d1 + d2). split; [lia|].
  change (set_health_current (fun h => h - d2)
            (set_health_current (fun h => h - d1) e1))
    with (set_health_current (fun h => h - d1 - d2) e1).
  apply set_health_current_ext. lia.
Qed.

Lemma Forall2_hurt_refl es : Forall2 hurt es es.
Proof. induction es; constructor; [apply hurt_refl | done]. Qed.

Lemma damageEnemies_hurt lifeSteal p es pl :
  0 <= p_damage p ->
  Forall2 hurt es (damageEnemies lifeSteal p es pl).1.1.1.
Proof.
  intros Hd. revert p pl Hd.
  induction es as [|e rest IH]; intros p pl Hd; [constructor|].
  assert (Hhit : hurt e (set_health_current (fun h => h - p_damage p) e))
    by (by exists (p_damage p)).
  cbn [damageEnemies].
  destruct (hitsEnemy p e); [destruct (isPiercing p);
    [destruct (canHit p (uuid e))|]|]; cbn [processHit];
    try (match goal with
         | |- context [damageEnemies ?a ?b rest ?c] =>
             specialize (IH b c Hd);
             destruct (damageEnemies a b rest c) as [[[? ?] ?] ?]
         end; cbn [fst snd] in *;
         constructor; [done || apply hurt_refl | done]).
  cbn [fst snd]. constructor; [done | apply Forall2_hurt_refl].
Qed.

Lemma processProjectile_hurt lifeSteal pwu p es pl :
  0 <= p_damage p ->
  Forall2 hurt es (processProjectile lifeSteal pwu p es pl).1.2.
Proof.
  intros Hd. unfold processProjectile. destruct (String.eqb _ _).
  - pose proof (damageEnemies_hurt lifeSteal
      (reduceEntityHitCooldown (moveProjectile p)) es pl Hd) as H.
    destruct (damageEnemies _ _ es pl) as [[[? ?] ?] []]; done.
  - destruct (hitsPlayer _ _ _); apply Forall2_hurt_refl.
Qed.

Lemma processProjectiles_hurt lifeSteal pwu (ps : list Projectile) es pl :
  Forall (fun p => 0 <= p_damage p) ps ->
  Forall2 hurt es (processProjectiles lifeSteal pwu ps es pl).1.2.
Proof.
  revert es pl. induction ps as [|p rest IH]; intros es pl Hps.
  - apply Forall2_hurt_refl.
  - apply Forall_cons in Hps as [Hp Hrest]. cbn [processProjectiles].
    pose proof (processProjectile_hurt lifeSteal pwu p es pl Hp) as H1.
    destruct (processProjectile lifeSteal pwu p es pl) as [[k es1] pl1].
    specialize (IH es1 pl1 Hrest).
    destruct (processProjectiles lifeSteal pwu rest es1 pl1) as [[? es2] ?].
    cbn [fst snd] in *.
    eapply Forall2_trans; [|exact H1|exact IH].
    intros ? ? ?. apply hurt_trans.
Qed.

(** X9.  Projectile processing does not add, remove or reorder enemies
    and changes nothing of an enemy but its current health, which (the
    projectiles having a damage of at least 0) it can only lower. *)
Theorem processProjectiles_only_hurts_enemies lifeSteal pwu
    (ps : list Projectile) es pl :
  Forall (fun p => 0 <= p_damage p) ps ->
  Forall2 hurt es (processProjectiles lifeSteal pwu ps es pl).1.2.
Proof. apply processProjectiles_hurt. Qed.

Lemma totalHealth_cons e es :
  totalHealth (e :: es) = health_current e + totalHealth es.
Proof. reflexivity. Qed.

(** The hits of one player-cast projectile, counted. *)
Lemma damageEnemies_accounts lifeSteal p es pl :
  exists n : nat,
    (n <= length es)%nat ∧
    (isPiercing p = false -> (n <= 1)%nat) ∧
    totalHealth (damageEnemies lifeSteal p es pl).1.1.1 =
      totalHealth es - Z.of_nat n * p_damage p ∧
    (damageEnemies lifeSteal p es pl).1.2 =
      if lifeSteal
      then set_health_current (fun h => h + Z.of_nat n) pl
      else pl.
Proof.
  revert p pl. induction es as [|e rest IH]; intros p pl.
  - exists 0%nat. simpl. split_and!; [lia | lia | lia |].
    destruct lifeSteal; [|done]. by rewrite set_health_current_add_0.
  - cbn [damageEnemies].
    destruct (hitsEnemy p e); [destruct (isPiercing p) eqn:Hp;
      [destruct (canHit p (uuid e))|]|]; cbn [processHit].
    + destruct (IH (set_entityHitCooldown (insert (uuid e) 300) p)
        (if lifeSteal then set_health_current (fun h => h + 1) pl else pl))
        as (n & Hn & _ & Ht & Hpl).
      destruct (damageEnemies _ _ rest _) as [[[r1 p1] pl1] b1].
      cbn [fst snd length] in *.
      exists (S n). split_and!; [lia | done | |].
      * rewrite !totalHealth_cons, Ht.
        change (p_damage (set_entityHitCooldown _ p)) with (p_damage p).
        change (health_current (set_health_current ?f e))
          with (f (health_current e)).
        lia.
      * rewrite Hpl. destruct lifeSteal; [|done].
        change (set_health_current (fun h => h + Z.of_nat n)
                  (set_health_current (fun h => h + 1) pl))
          with (set_health_current (fun h => h + 1 + Z.of_nat n) pl).
        apply set_health_current_ext. lia.
    + destruct (IH p pl) as (n & Hn & _ & Ht & Hpl).
      destruct (damageEnemies _ _ rest _) as [[[r1 p1] pl1] b1].
      cbn [fst snd length] in *.
      exists n. split_and!; [lia | done | | done].
      rewrite !totalHealth_cons, Ht. lia.
    + exists 1%nat. cbn [fst snd length].
      split_and!; [lia | lia | | done].
      rewrite !totalHealth_cons.
      change (health_current (set_health_current ?f e))
        with (f (health_current e)).
      lia.
    + destruct (IH p pl) as (n & Hn & Hone & Ht & Hpl).
      destruct (damageEnemies _ _ rest _) as [[[r1 p1] pl1] b1].
      cbn [fst snd length] in *.
      exists n. split_and!; [lia | done | | done].
      rewrite !totalHealth_cons, Ht. lia.
Qed.

(** X10.  The books of one projectile of the player.  It hits some number
    [n] of the enemies, at most one when it does not pierce: the enemies
    lose [n] times its damage in total, and the player gains exactly [n]
    health with life steal and is left untouched without. *)
Theorem player_projectile_accounts lifeSteal pwu (p : Projectile) es pl :
  caster p = uuid pl ->
  exists n : nat,
    (n <= length es)%nat ∧
    (isPiercing p = false -> (n <= 1)%nat) ∧
    totalHealth (processProjectile lifeSteal pwu p es pl).1.2 =
      totalHealth es - Z.of_nat n * p_damage p ∧
    (processProjectile lifeSteal pwu p es pl).2 =
      if lifeSteal
      then set_health_current (fun h => h + Z.of_nat n) pl
      else pl.
Proof.
  intros Hc. unfold processProjectile.
  change (caster (reduceEntityHitCooldown (moveProjectile p))) with (caster p).
  rewrite Hc, String.eqb_refl.
  destruct (damageEnemies_accounts lifeSteal
    (reduceEntityHitCooldown (moveProjectile p)) es pl)
    as (n & H1 & H2 & H3 & H4).
  exists n.
  destruct (damageEnemies _ _ es pl) as [[[r1 p1] pl1] []];
    cbn [fst snd] in *; by split_and!.
Qed.

(** X11.  A projectile that was not cast by the player never touches an
    enemy, whatever it overlaps, and takes exactly 1 health from the
    player when it overlaps the player and nothing otherwise; its own
    [damage] plays no part. *)
Theorem enemy_projectile_only_hurts_player lifeSteal pwu
    (p : Projectile) es pl :
  caster p ≠ uuid pl ->
  (processProjectile lifeSteal pwu p es pl).1.2 = es ∧
  (processProjectile lifeSteal pwu p es pl).2 =
    if hitsPlayer pwu pl (moveProjectile p)
    then set_health_current (fun h => h - 1) pl
    else pl.
Proof.
  intros Hc. unfold processProjectile.
  change (caster (reduceEntityHitCooldown (moveProjectile p))) with (caster p).
  apply String.eqb_neq in Hc. rewrite Hc.
  change (hitsPlayer pwu pl (reduceEntityHitCooldown (moveProjectile p)))
    with (hitsPlayer pwu pl (moveProjectile p)).
  by destruct (hitsPlayer pwu pl (moveProjectile p)).
Qed.

(** ** The player's attack step *)

Lemma set_cooldown_current_same e :
  set_cooldown_current (fun _ => cooldown_current e) e = e.
Proof. destruct e as [? ? [? ? ? ? [? [? ?] ? ? ?]] ? ? ?]; reflexivity. Qed.

Lemma autoAttacks_countdown (k : nat) o ups ang pwu pl ps c :
  cooldown_current pl = Z.of_nat k ->
  autoAttacks k o ups ang pwu pl ps c =
    (set_cooldown_current (fun _ => 0) pl, ps, c).
Proof.
  revert pl. induction k as [|k IH]; intros pl Hcd.
  - change (Z.of_nat 0) with 0 in Hcd. cbn [autoAttacks].
    by rewrite <- Hcd, set_cooldown_current_same.
  - cbn [autoAttacks]. unfold playerAutoAttack.
    destruct (cooldown_current pl =? 0) eqn:E; [apply Z.eqb_eq in E; lia|].
    rewrite IH; [done|].
    change (cooldown_current (set_cooldown_current ?f pl))
      with (f (cooldown_current pl)).
    lia.
Qed.

(** X12.  Fire rate.  A player whose cooldown is 0 fires at once and
    then reloads for the effective [cooldown.max] steps: over
    [cooldown.max + 1] attack steps in a row exactly one projectile is
    pushed (cast by the player, piercing iff the "piercing" upgrade is
    owned, with the effective damage and an empty counter map), and the
    player is back in the state it started from. *)
Theorem player_fires_every_max_plus_one o ups ang pwu pl
    (ps : list Projectile) c :
  cooldown_current pl = 0 ->
  0 <= cooldown_max pwu ->
  exists shot,
    autoAttacks (S (Z.to_nat (cooldown_max pwu))) o ups ang pwu pl ps c =
      (pl, ps ++ [shot], tookUuid c) ∧
    caster shot = uuid pl ∧
    isPiercing shot = hasUpgrade ups "piercing" ∧
    p_damage shot = damage (attack (stats pwu)) ∧
    entityHitCooldown shot = ∅.
Proof.
  intros Hcd Hmax. cbn [autoAttacks]. unfold playerAutoAttack at 1.
  rewrite Hcd. cbn [Z.eqb].
  rewrite autoAttacks_countdown.
  2:{ change (cooldown_current (set_cooldown_current ?f pl))
        with (f (cooldown_current pl)).
      cbn beta. lia. }
  change (set_cooldown_current (fun _ => 0)
            (set_cooldown_current ?f pl))
    with (set_cooldown_current (fun _ => 0) pl).
  rewrite <- Hcd, set_cooldown_current_same.
  eexists. split; [reflexivity|]. by split_and!.
Qed.

(** ** Enemies *)

Lemma chase_acted ang e : acted e (chase ang e).
Proof. by left. Qed.

Lemma enemyAttack_acted id ang e : acted e (enemyAttack id ang e).1.
Proof.
  right. unfold enemyAttack.
  destruct (cooldown_current e =? 0); by eexists.
Qed.

(** The enemies kept, the items dropped and the random draws of the
    enemy loop. *)
Lemma processEnemies_accounts o pwu pl (es : list Entity) c :
  uuid <$> (processEnemies o pwu pl es c).1.1.1 =
    uuid <$> List.filter (fun e => negb (isDead e)) es ∧
  Forall2 dropOf (List.filter isDead es) (processEnemies o pwu pl es c).1.2 ∧
  nrandom (processEnemies o pwu pl es c).2 =
    (nrandom c + length (List.filter isDead es))%nat.
Proof.
  revert c. induction es as [|e rest IH]; intros c.
  - simpl. split_and!; [done | constructor | lia].
  - cbn [processEnemies List.filter].
    change (health_current e <=? 0) with (isDead e).
    destruct (isDead e) eqn:Hdead; cbn [negb].
    + destruct (IH (tookUuid (tookRandom c))) as (H1 & H2 & H3).
      destruct (processEnemies _ _ _ rest _) as [[[r s] d] c'].
      cbn [fst snd length] in *. split_and!; [done | | simpl in H3; lia].
      constructor; [|done]. unfold dropOf, dropItem.
      destruct (_ <? _)%float; simpl; naive_solver.
    + destruct (_ <? _)%float.
      * destruct (IH c) as (H1 & H2 & H3).
        destruct (processEnemies _ _ _ rest _) as [[[r s] d] c'].
        cbn [fst snd] in *. rewrite !fmap_cons, H1. by split_and!.
      * unfold enemyAttack. destruct (cooldown_current e =? 0).
        -- destruct (IH (tookUuid c)) as (H1 & H2 & H3).
           destruct (processEnemies _ _ _ rest _) as [[[r s] d] c'].
           cbn [fst snd] in *. rewrite !fmap_cons, H1. by split_and!.
        -- destruct (IH c) as (H1 & H2 & H3).
           destruct (processEnemies _ _ _ rest _) as [[[r s] d] c'].
           cbn [fst snd] in *. rewrite !fmap_cons, H1. by split_and!.
Qed.

(** X13.  Death and loot.  The enemy loop keeps exactly the enemies whose
    health is above 0, in their order, and for every enemy at or below 0
    it pushes exactly one ground item, in the same order, at the place of
    that enemy: experience worth 4 + its level, or health worth its
    level.  It draws one [Math.random()] per dead enemy. *)
Theorem processEnemies_death_and_loot o pwu pl (es : list Entity) c :
  uuid <$> (processEnemies o pwu pl es c).1.1.1 =
    uuid <$> List.filter (fun e => negb (isDead e)) es ∧
  Forall2 dropOf (List.filter isDead es) (processEnemies o pwu pl es c).1.2 ∧
  nrandom (processEnemies o pwu pl es c).2 =
    (nrandom c + length (List.filter isDead es))%nat.
Proof. apply processEnemies_accounts. Qed.

(** X14.  What the enemy loop does to the living.  Every enemy it keeps
    was either moved, with its stats untouched, or ran its attack step,
    with its position untouched: never both in one tick, and its health
    and level are never changed here.  Every projectile it pushes is
    cast by an enemy it keeps, does not pierce and has no counters; there
    is at most one per kept enemy, and one [uuidv4()] is drawn per ground
    item and per projectile pushed. *)
Theorem processEnemies_moves_or_attacks o pwu pl (es : list Entity) c :
  Forall2 acted (List.filter (fun e => negb (isDead e)) es)
    (processEnemies o pwu pl es c).1.1.1 ∧
  Forall (fun s => isPiercing s = false ∧ entityHitCooldown s = ∅ ∧
                   caster s ∈ uuid <$> (processEnemies o pwu pl es c).1.1.1)
    (processEnemies o pwu pl es c).1.1.2 ∧
  (length (processEnemies o pwu pl es c).1.1.2
     <= length (processEnemies o pwu pl es c).1.1.1)%nat ∧
  nuuid (processEnemies o pwu pl es c).2 =
    (nuuid c + length (processEnemies o pwu pl es c).1.2
             + length (processEnemies o pwu pl es c).1.1.2)%nat.
Proof.
  revert c. induction es as [|e rest IH]; intros c.
  - simpl. split_and!; [constructor | constructor | lia | lia].
  - cbn [processEnemies List.filter].
    change (health_current e <=? 0) with (isDead e).
    assert (Hweak : forall (r : list Entity) (s : list Projectile) e',
      Forall (fun s => isPiercing s = false ∧ entityHitCooldown s = ∅ ∧
                       caster s ∈ uuid <$> r) s ->
      Forall (fun s => isPiercing s = false ∧ entityHitCooldown s = ∅ ∧
                       caster s ∈ uuid <$> e' :: r) s).
    { intros r s e' H. eapply Forall_impl; [exact H|].
      intros q (? & ? & ?). split_and!; [done..|].
      rewrite fmap_cons. by right. }
    destruct (isDead e) eqn:Hdead; cbn [negb].
    + destruct (IH (tookUuid (tookRandom c))) as (H1 & H2 & H3 & H4).
      destruct (processEnemies _ _ _ rest _) as [[[r s] d] c'].
      cbn [fst snd length] in *. split_and!; [done..|]. simpl in H4. lia.
    + destruct (_ <? _)%float.
      * destruct (IH c) as (H1 & H2 & H3 & H4).
        destruct (processEnemies _ _ _ rest _) as [[[r s] d] c'].
        cbn [fst snd length] in *. split_and!; [| by apply Hweak | lia | lia].
        constructor; [apply chase_acted | done].
      * pose proof (enemyAttack_acted (uuidv4 o (nuuid c))
          (Math_atan2 (y pl - y e) (x pl - x e)) e) as Hact.
        unfold enemyAttack in *. destruct (cooldown_current e =? 0).
        -- destruct (IH (tookUuid c)) as (H1 & H2 & H3 & H4).
           destruct (processEnemies _ _ _ rest _) as [[[r s] d] c'].
           cbn [fst snd length] in *.
           split_and!; [by constructor | | lia | simpl in H4; lia].
           constructor; [|by apply Hweak].
           split_and!; [done..|]. rewrite fmap_cons. left.
        -- destruct (IH c) as (H1 & H2 & H3 & H4).
           destruct (processEnemies _ _ _ rest _) as [[[r s] d] c'].
           cbn [fst snd length] in *.
           split_and!; [by constructor | by apply Hweak | lia | lia].
Qed.

Lemma spawnedEnemy_facts r1 r2 id playerLevel pl :
  let e := spawnedEnemy r1 r2 id playerLevel pl in
  1 <= level (stats e) ∧
  health_current e = health_max e ∧
  1 <= health_max e ∧
  isDead e = false ∧
  1 <= damage (attack (stats e)) ∧
  cooldown_current e = 0 ∧ cooldown_max e = 100 ∧
  name e ∈ names.
Proof.
  unfold spawnedEnemy, isDead, health_current, health_max, cooldown_current,
    cooldown_max.
  cbn [level stats health current max attack damage cooldown name].
  set (lvl := Z.max 1 (playerLevel + rand (-1) 1 r2)).
  assert (Hlvl : 1 <= lvl) by (subst lvl; lia).
  assert (Hq : 0 <= lvl / 4) by (apply Z.div_pos; lia).
  split_and!; try lia.
  change (Z.of_nat (length names)) with 4.
  pose proof (Z.rem_bound_pos (lvl / 4) 4 Hq ltac:(lia)) as Hb.
  destruct (Z.to_nat (Z.rem (lvl / 4) 4)) as [|[|[|[|n]]]] eqn:E;
    [unfold names; cbn [lookup list_lookup default];
     repeat first [by left | right].. |].
  lia.
Qed.

(** X15.  The enemy of the spawn check is well formed whatever the random
    draws and the player's level are: its level is at least 1, it starts
    at full health, which is at least 1 (so it is not dead on arrival),
    its damage is at least 1, its cooldown is 0 of 100, and its name is
    one of the four sprite names (the index into [names] is never out of
    bounds). *)
Theorem spawnedEnemy_well_formed r1 r2 id playerLevel pl :
  let e := spawnedEnemy r1 r2 id playerLevel pl in
  1 <= level (stats e) ∧
  health_current e = health_max e ∧
  1 <= health_max e ∧
  isDead e = false ∧
  1 <= damage (attack (stats e)) ∧
  cooldown_current e = 0 ∧ cooldown_max e = 100 ∧
  name e ∈ names.
Proof. apply spawnedEnemy_facts. Qed.

(** ** Ground items *)

Lemma sumValues_cons g gs : sumValues (g :: gs) = value g + sumValues gs.
Proof. reflexivity. Qed.

Lemma processGroundItems_steps pwu pl pl' (gs : list GroundItem) :
  x pl' = x pl -> y pl' = y pl ->
  processGroundItems pwu pl' gs =
    (omap (groundStep pwu pl) gs,
     set_health_current
       (fun h => h + 2 * sumValues (List.filter (healthCollected pwu pl) gs))
       pl',
     sumValues (List.filter (xpCollected pwu pl) gs)).
Proof.
  intros Hx Hy. revert pl' Hx Hy.
  induction gs as [|g rest IH]; intros pl' Hx Hy.
  - simpl. by rewrite set_health_current_add_0.
  - cbn [processGroundItems List.filter].
    change (omap (groundStep pwu pl) (g :: rest))
      with (match groundStep pwu pl g with
            | Some g' => g' :: omap (groundStep pwu pl) rest
            | None => omap (groundStep pwu pl) rest
            end).
    set (LH := List.filter (healthCollected pwu pl) rest) in *.
    set (LX := List.filter (xpCollected pwu pl) rest) in *.
    set (OM := omap (groundStep pwu pl) rest) in *.
    unfold groundStep, xpCollected, healthCollected, attracts, reaches, pulled.
    rewrite Hx, Hy.
    destruct (g_type g).
    + destruct (_ <=? 150 - _)%float; [destruct (_ <=? _)%float|];
        cbn [andb]; rewrite (IH pl') by done;
        rewrite ?sumValues_cons; done.
    + destruct (_ <=? _)%float.
      * rewrite IH by done. rewrite sumValues_cons.
        f_equal. f_equal.
        change (set_health_current ?f (set_health_current ?g0 pl'))
          with (set_health_current (fun h => f (g0 h)) pl').
        apply set_health_current_ext. lia.
      * by rewrite (IH pl').
    + by rewrite (IH pl').
    + by rewrite (IH pl').
Qed.

(** X16.  The ground item loop, in closed form.  With the player standing
    where it stands, each item is judged on its own: an experience item
    within the attraction radius [150 - radius] is pulled 2 units towards
    the player, and is collected instead when it is also within the
    player's radius; a health item is collected within the player's
    radius and never moves; any other item stays as it is.  The
    experience gained is the sum of the values of the collected
    experience items, and the player's health rises by twice the sum of
    the values of the collected health items. *)
Theorem processGroundItems_closed_form pwu pl (gs : list GroundItem) :
  processGroundItems pwu pl gs =
    (omap (groundStep pwu pl) gs,
     set_health_current
       (fun h => h + 2 * sumValues (List.filter (healthCollected pwu pl) gs))
       pl,
     sumValues (List.filter (xpCollected pwu pl) gs)).
Proof. by apply processGroundItems_steps. Qed.

(** X17.  Items of the kinds "item" and "coin" are inert: the loop never
    moves, changes or removes one, and it never creates an item, so what
    is left plus what was collected is what was there. *)
Theorem processGroundItems_inert_kinds pwu pl (gs : list GroundItem) :
  List.filter isInert (processGroundItems pwu pl gs).1.1 =
    List.filter isInert gs ∧
  (length (processGroundItems pwu pl gs).1.1
   + length (List.filter (xpCollected pwu pl) gs)
   + length (List.filter (healthCollected pwu pl) gs))%nat = length gs.
Proof.
  rewrite (processGroundItems_steps pwu pl pl gs) by done. cbn [fst].
  induction gs as [|g rest [IH1 IH2]]; [done|].
  change (omap (groundStep pwu pl) (g :: rest))
    with (match groundStep pwu pl g with
          | Some g' => g' :: omap (groundStep pwu pl) rest
          | None => omap (groundStep pwu pl) rest
          end).
  cbn [List.filter].
  set (LH := List.filter (healthCollected pwu pl) rest) in *.
  set (LX := List.filter (xpCollected pwu pl) rest) in *.
  set (OM := omap (groundStep pwu pl) rest) in *.
  set (LI := List.filter isInert rest) in *.
  unfold groundStep, xpCollected, healthCollected, isInert, pulled.
  destruct (g_type g) eqn:T;
    destruct (attracts pwu pl g), (reaches pwu pl g);
    cbn [andb List.filter length]; unfold isInert; cbn [g_type set_g_pos];
    rewrite ?T; fold isInert; rewrite ?IH1; split; try done; lia.
Qed.

(** ** What the component keeps well formed *)

Lemma tidy_fresh id cst px py dmg ang spd rad rng piercing :
  1 <= dmg ->
  tidyProjectile (projectile id cst px py dmg ang spd rad rng piercing).
Proof.
  intros Hd. unfold tidyProjectile, countersInRange. simpl.
  split_and!; [apply map_Forall_empty | done | done].
Qed.

Lemma damageEnemies_tidy lifeSteal p es pl :
  tidyProjectile p ->
  tidyProjectile (damageEnemies lifeSteal p es pl).1.1.2.
Proof.
  revert p pl. induction es as [|e rest IH]; intros p pl Hp; [done|].
  cbn [damageEnemies].
  destruct (hitsEnemy p e); [destruct (isPiercing p) eqn:Hpp;
    [destruct (canHit p (uuid e))|]|]; cbn [processHit].
  - assert (Hp' : tidyProjectile
                    (set_entityHitCooldown (insert (uuid e) 300) p)).
    { destruct Hp as (H1 & H2 & H3). unfold tidyProjectile, countersInRange.
      cbn [entityHitCooldown set_entityHitCooldown isPiercing p_damage].
      split_and!; [|congruence|done].
      apply map_Forall_insert_2; [lia | done]. }
    match goal with
    | |- context [damageEnemies ?a ?b rest ?c] =>
        specialize (IH b c Hp');
        destruct (damageEnemies a b rest c) as [[[? ?] ?] ?]
    end. done.
  - specialize (IH p pl Hp).
    by destruct (damageEnemies _ _ rest _) as [[[? ?] ?] ?].
  - done.
  - specialize (IH p pl Hp).
    by destruct (damageEnemies _ _ rest _) as [[[? ?] ?] ?].
Qed.

Lemma reduce_tidy p :
  tidyProjectile p ->
  tidyProjectile (reduceEntityHitCooldown (moveProjectile p)).
Proof.
  intros (H1 & H2 & H3). unfold tidyProjectile, countersInRange in *.
  cbn [reduceEntityHitCooldown moveProjectile set_entityHitCooldown set_p_pos
       entityHitCooldown isPiercing p_damage].
  split_and!; [| |done].
  - apply map_Forall_fmap. eapply map_Forall_impl; [exact H1|].
    intros k cd Hcd. simpl in *. destruct (0 <? cd) eqn:E; [|done].
    apply Z.ltb_lt in E. lia.
  - intros Hnp. rewrite (H2 Hnp). apply fmap_empty.
Qed.

Lemma processProjectile_tidy lifeSteal pwu p es pl p' :
  tidyProjectile p ->
  (processProjectile lifeSteal pwu p es pl).1.1 = Some p' ->
  tidyProjectile p'.
Proof.
  intros Hp. apply reduce_tidy in Hp. unfold processProjectile, rangeCheck.
  destruct (String.eqb _ _).
  - pose proof (damageEnemies_tidy lifeSteal _ es pl Hp) as H.
    destruct (damageEnemies _ _ es pl) as [[[r1 p1] pl1] b1].
    cbn [fst snd] in *. destruct b1; [done|].
    destruct (outOfRange p1); [done|]. by intros [= <-].
  - destruct (hitsPlayer _ _ _); [done|].
    destruct (outOfRange _); [done|]. by intros [= <-].
Qed.

Lemma processProjectiles_tidy lifeSteal pwu (ps : list Projectile) es pl :
  Forall tidyProjectile ps ->
  Forall tidyProjectile (processProjectiles lifeSteal pwu ps es pl).1.1.
Proof.
  revert es pl. induction ps as [|p rest IH]; intros es pl Hps; [done|].
  apply Forall_cons in Hps as [Hp Hrest]. cbn [processProjectiles].
  pose proof (processProjectile_tidy lifeSteal pwu p es pl) as H1.
  destruct (processProjectile lifeSteal pwu p es pl) as [[k es1] pl1].
  specialize (IH es1 pl1 Hrest).
  destruct (processProjectiles lifeSteal pwu rest es1 pl1) as [[? ?] ?].
  cbn [fst snd] in *. destruct k as [p'|]; [|done].
  apply Forall_cons. split; [by apply H1 | done].
Qed.

Lemma soundEnemy_hurt e e' : soundEnemy e -> hurt e e' -> soundEnemy e'.
Proof.
  intros (H1 & H2 & H3 & H4) (d & Hd & ->).
  unfold soundEnemy, health_current, health_max in *. simpl.
  split_and!; [done | lia | done | done].
Qed.

Lemma soundEnemy_acted e e' : soundEnemy e -> acted e e' -> soundEnemy e'.
Proof.
  intros He [(_ & _ & Hs)|[f ->]].
  - unfold soundEnemy, health_current, health_max in *. by rewrite Hs.
  - exact He.
Qed.

Lemma Forall2_sound_hurt es es' :
  Forall soundEnemy es -> Forall2 hurt es es' -> Forall soundEnemy es'.
Proof.
  intros Hes H. induction H as [|e e' l l' He _ IH]; [done|].
  apply Forall_cons in Hes as [H1 H2]. apply Forall_cons.
  split; [by eapply soundEnemy_hurt | by apply IH].
Qed.

(** The enemy loop on sound enemies: the enemies it keeps are sound, its
    projectiles tidy and its drops sound. *)
Lemma processEnemies_sound o pwu pl (es : list Entity) c :
  Forall soundEnemy es ->
  Forall soundEnemy (processEnemies o pwu pl es c).1.1.1 ∧
  Forall tidyProjectile (processEnemies o pwu pl es c).1.1.2 ∧
  Forall soundItem (processEnemies o pwu pl es c).1.2.
Proof.
  revert c. induction es as [|e rest IH]; intros c Hes; [done|].
  apply Forall_cons in Hes as [He Hrest]. cbn [processEnemies].
  destruct (health_current e <=? 0).
  - destruct (IH (tookUuid (tookRandom c)) Hrest) as (H1 & H2 & H3).
    destruct (processEnemies _ _ _ rest _) as [[[r s] d] c'].
    cbn [fst snd] in *. split_and!; [done..|].
    apply Forall_cons. split; [|done].
    destruct He as (Hl & _). unfold soundItem, dropItem.
    destruct (_ <? _)%float; simpl; split; (lia || auto).
  - destruct (_ <? _)%float.
    + destruct (IH c Hrest) as (H1 & H2 & H3).
      destruct (processEnemies _ _ _ rest _) as [[[r s] d] c'].
      cbn [fst snd] in *. split_and!; [|done..].
      apply Forall_cons. split; [|done].
      eapply soundEnemy_acted; [exact He | apply chase_acted].
    + pose proof (enemyAttack_acted (uuidv4 o (nuuid c))
        (Math_atan2 (y pl - y e) (x pl - x e)) e) as Hact.
      unfold enemyAttack in *. destruct (cooldown_current e =? 0).
      * destruct (IH (tookUuid c) Hrest) as (H1 & H2 & H3).
        destruct (processEnemies _ _ _ rest _) as [[[r s] d] c'].
        cbn [fst snd] in *. split_and!; [| |done].
        -- apply Forall_cons. split; [by eapply soundEnemy_acted | done].
        -- apply Forall_cons. split; [|done].
           apply tidy_fresh. by destruct He as (_ & _ & _ & ?).
      * destruct (IH c Hrest) as (H1 & H2 & H3).
        destruct (processEnemies _ _ _ rest _) as [[[r s] d] c'].
        cbn [fst snd] in *. split_and!; [|done..].
        apply Forall_cons. split; [by eapply soundEnemy_acted | done].
Qed.

Lemma sumValues_nonneg (gs : list GroundItem) :
  Forall soundItem gs -> 0 <= sumValues gs.
Proof.
  induction 1 as [|g rest [_ Hg] _ IH]; [done|].
  rewrite sumValues_cons. lia.
Qed.

Lemma Forall_filter_bool {A} (P : A -> Prop) (f : A -> bool) (l : list A) :
  Forall P l -> Forall P (List.filter f l).
Proof.
  induction 1 as [|a rest Ha _ IH]; simpl; [done|].
  destruct (f a); [by apply Forall_cons | done].
Qed.

Lemma processGroundItems_sound pwu pl (gs : list GroundItem) :
  Forall soundItem gs ->
  Forall soundItem (processGroundItems pwu pl gs).1.1 ∧
  0 <= (processGroundItems pwu pl gs).2.
Proof.
  intros Hgs. rewrite (processGroundItems_steps pwu pl pl gs) by done.
  cbn [fst snd]. split.
  - induction Hgs as [|g rest Hg _ IH]; [done|].
    change (omap (groundStep pwu pl) (g :: rest))
      with (match groundStep pwu pl g with
            | Some g' => g' :: omap (groundStep pwu pl) rest
            | None => omap (groundStep pwu pl) rest
            end).
    unfold groundStep, pulled.
    destruct (g_type g); destruct (attracts pwu pl g), (reaches pwu pl g);
      try done; by apply Forall_cons.
  - apply sumValues_nonneg. by apply Forall_filter_bool.
Qed.

Lemma playerAutoAttack_tidy o ups ang pwu pl (ps : list Projectile) c :
  1 <= damage (attack (stats pwu)) ->
  Forall tidyProjectile ps ->
  Forall tidyProjectile (playerAutoAttack o ups ang pwu pl ps c).1.2.
Proof.
  intros Hd Hps. unfold playerAutoAttack.
  destruct (cooldown_current pl =? 0); cbn [fst snd]; [|done].
  apply Forall_app. split; [done|]. apply Forall_singleton.
  by apply tidy_fresh.
Qed.

Lemma spawnEnemies_sound o tk pl (es : list Entity) c :
  Forall soundEnemy es -> Forall soundEnemy (spawnEnemies o tk pl es c).
Proof.
  intros Hes. unfold spawnEnemies. destruct (Z.rem tk 100 =? 0); [|done].
  apply Forall_app. split; [done|]. apply Forall_singleton.
  match goal with
  | |- soundEnemy (spawnedEnemy ?r1 ?r2 ?id ?l ?p) =>
      destruct (spawnedEnemy_facts r1 r2 id l p)
        as (H1 & H2 & H3 & _ & H5 & _)
  end.
  unfold soundEnemy. split_and!; [done | lia | done | done].
Qed.

(** The arrays and the experience after a tick that runs. *)
Lemma tickEffect_arrays env o (w : World) :
  1 <= damage (attack (stats (effective w))) ->
  Forall tidyProjectile (projectiles w) ->
  Forall soundEnemy (enemies w) ->
  Forall soundItem (groundItems w) ->
  Forall tidyProjectile (projectiles (tickEffect env o w)) ∧
  Forall soundEnemy (enemies (tickEffect env o w)) ∧
  Forall soundItem (groundItems (tickEffect env o w)) ∧
  xp w <= xp (tickEffect env o w).
Proof.
  intros Hd Hps Hes Hgs. unfold tickEffect.
  destruct (upgradeSelection w); [|split_and!; (done || lia)].
  unfold pipeline.
  pose proof (playerAutoAttack_tidy o (upgrades w) (playerAngle w)
    (effective w) (controls env (effective w) (player w)) (projectiles w)
    (mkCalls 0 0) Hd Hps) as H1.
  destruct (playerAutoAttack _ _ _ _ _ _ _) as [[pl1 ps1] c1].
  cbn [fst snd] in H1.
  pose proof (processProjectiles_tidy
    (hasUpgrade (upgrades w) "lifeSteal") (effective w) ps1 (enemies w) pl1
    H1) as H2.
  pose proof (processProjectiles_hurt
    (hasUpgrade (upgrades w) "lifeSteal") (effective w) ps1 (enemies w) pl1)
    as H2'.
  destruct (processProjectiles _ _ ps1 _ pl1) as [[ps2 es2] pl2].
  cbn [fst snd] in H2, H2'.
  assert (Hes2 : Forall soundEnemy es2).
  { eapply Forall2_sound_hurt; [exact Hes|]. apply H2'.
    eapply Forall_impl; [exact H1|]. intros p (_ & _ & ?). lia. }
  destruct (processEnemies_sound o (effective w) pl2 es2 c1 Hes2)
    as (H3 & H4 & H5).
  destruct (processEnemies _ _ pl2 es2 c1) as [[[es3 shots] drops] c3].
  cbn [fst snd] in H3, H4, H5.
  assert (Hgs' : Forall soundItem (groundItems w ++ drops))
    by (apply Forall_app; done).
  destruct (processGroundItems_sound (effective w) pl2 _ Hgs') as (H6 & H7).
  destruct (processGroundItems _ pl2 _) as [[gs4 pl4] gained].
  cbn [fst snd projectiles enemies groundItems xp] in *.
  split_and!; [by apply Forall_app | by apply spawnEnemies_sound | done | lia].
Qed.

Lemma afterAttack_level env o (w : World) :
  level (stats (afterAttack env o w)) = level (stats (player w)) ∧
  damage (attack (stats (afterAttack env o w))) =
    damage (attack (stats (player w))).
Proof.
  unfold afterAttack, playerAutoAttack.
  destruct (cooldown_current _ =? 0); cbn [fst snd];
    unfold set_cooldown_current; cbn; by rewrite controls_stats.
Qed.

Lemma tickEffect_level env o (w : World) :
  level (stats (player (tickEffect env o w))) = level (stats (player w)) ∧
  damage (attack (stats (player (tickEffect env o w)))) =
    damage (attack (stats (player w))).
Proof.
  destruct (upgradeSelection w) as [|s sel] eqn:Hsel.
  2:{ unfold tickEffect. by rewrite Hsel. }
  destruct (tickEffect_player env o w Hsel) as [h ->].
  destruct (afterAttack_level env o w) as [H1 H2].
  by rewrite <- H1, <- H2.
Qed.

Lemma tickEffect_tick env o (w : World) :
  tick (tickEffect env o w) = tick w ∧
  mouse_x (tickEffect env o w) = mouse_x w ∧
  mouse_y (tickEffect env o w) = mouse_y w ∧
  playerAngle (tickEffect env o w) = playerAngle w.
Proof.
  unfold tickEffect. destruct (upgradeSelection w) eqn:E; [|done].
  by destruct (pipeline env o w) as [[[[? ?] ?] ?] ?].
Qed.

Lemma wellFormed_tickEffect env o (w : World) :
  wellFormed w -> wellFormed (tickEffect env o w).
Proof.
  intros [L BD D S OP K P C PS ES GS X].
  destruct (tickEffect_frame env o w) as (Hu & He & Hs).
  destruct (tickEffect_level env o w) as (Hl & Hd).
  destruct (tickEffect_arrays env o w D PS ES GS) as (A1 & A2 & A3 & A4).
  constructor; rewrite ?Hu, ?He, ?Hs, ?Hl, ?Hd; try done.
  - unfold pendingCount. by rewrite Hs.
  - lia.
Qed.

Lemma wellFormed_setTick (w : World) : wellFormed w -> wellFormed (setTick w).
Proof. intros []. by constructor. Qed.

Lemma wellFormed_mouseMove env mx my (w : World) :
  wellFormed w -> wellFormed (mouseMove env mx my w).
Proof. intros []. by constructor. Qed.

Lemma wellFormed_renderEffect (w : World) :
  wellFormed w -> wellFormed (renderEffect w).
Proof.
  intros []. constructor; try done. cbn [renderEffect enemies].
  by rewrite sortByY_Permutation.
Qed.

(** ** The upgrade levels *)

Lemma lookup_elem_of (ups : Upgrades) id v :
  lookupUpgrade ups id = Some v -> (id, v) ∈ ups.
Proof.
  induction ups as [|[k v0] rest IH]; simpl; [done|].
  destruct (String.eqb k id) eqn:E.
  - apply String.eqb_eq in E. intros [= ->]. subst. apply elem_of_cons.
    by left.
  - intros H. apply elem_of_cons. right. by apply IH.
Qed.

Lemma levelOf_nonneg (ups : Upgrades) id :
  (forall k v, (k, v) ∈ ups -> 1 <= v) -> 0 <= levelOf ups id.
Proof.
  intros H. unfold levelOf.
  destruct (lookupUpgrade ups id) as [v|] eqn:E; [|done].
  apply lookup_elem_of, H in E. lia.
Qed.

Lemma elem_of_assign (ups : Upgrades) id n k v :
  (k, v) ∈ assignUpgrade ups id n -> (k, v) = (id, n) ∨ (k, v) ∈ ups.
Proof.
  induction ups as [|[k0 v0] rest IH]; cbn [assignUpgrade].
  - intros H. apply list_elem_of_singleton in H. by left.
  - destruct (String.eqb k0 id) eqn:E.
    + apply String.eqb_eq in E. subst k0.
      intros H. apply elem_of_cons in H as [H|H]; [by left|].
      right. apply elem_of_cons. by right.
    + intros H. apply elem_of_cons in H as [H|H].
      * right. apply elem_of_cons. by left.
      * destruct (IH H) as [?|?]; [by left|].
        right. apply elem_of_cons. by right.
Qed.

Lemma sumLevels_assign (ups : Upgrades) id n :
  sumLevels (assignUpgrade ups id n) = sumLevels ups - levelOf ups id + n.
Proof.
  induction ups as [|[k v0] rest IH]; cbn [assignUpgrade].
  - unfold sumLevels, levelOf. simpl. lia.
  - rewrite levelOf_cons. destruct (String.eqb k id).
    + unfold sumLevels. simpl. lia.
    + unfold sumLevels in *. simpl in *. lia.
Qed.

(** A unique entry passes the filter only while it was never chosen. *)
Lemma filterAvailable_unique o (ups : Upgrades) catalog c u :
  u ∈ (filterAvailable o ups catalog c).1 ->
  rarity u = Unique -> levelOf ups (u_id u) = 0.
Proof.
  revert c. induction catalog as [|u0 rest IH]; intros c; simpl.
  - intros H. by apply elem_of_nil in H.
  - destruct (rarity u0) eqn:R.
    + destruct (filterAvailable o ups rest c) as [rest' c'] eqn:E.
      specialize (IH c). rewrite E in IH. simpl in *.
      destruct (_ || _); [|done].
      intros H. apply elem_of_cons in H as [->|H]; [congruence | by apply IH].
    + destruct (filterAvailable o ups rest (tookRandom c)) as [rest' c'] eqn:E.
      specialize (IH (tookRandom c)). rewrite E in IH. simpl in *.
      destruct (_ <? _)%float; [|done].
      intros H. apply elem_of_cons in H as [->|H]; [congruence | by apply IH].
    + destruct (negb (truthy (lookupUpgrade ups (u_id u0)))) eqn:T.
      2:{ apply IH. }
      destruct (filterAvailable o ups rest (tookRandom c)) as [rest' c'] eqn:E.
      specialize (IH (tookRandom c)). rewrite E in IH. simpl in *.
      destruct (_ <? _)%float; [|done].
      intros H. apply elem_of_cons in H as [->|H]; [|by apply IH].
      intros _. unfold levelOf. apply negb_true_iff in T.
      destruct (lookupUpgrade ups (u_id u0)) as [v|]; [|done].
      simpl in T. apply negb_false_iff, Z.eqb_eq in T. done.
Qed.

(** What a returned draw is made of. *)
Lemma getRandomUpgrades_selection fuel o (ups : Upgrades) l :
  getRandomUpgrades fuel o ups 3 = Returned l ->
  length l = 3%nat ∧ NoDup l ∧
  (forall id, id ∈ l -> id ∈ u_id <$> UPGRADES) ∧
  ("piercing" ∈ l -> levelOf ups "piercing" = 0).
Proof.
  unfold getRandomUpgrades.
  destruct (filterAvailable o ups UPGRADES (mkCalls 0 0)) as [av c0] eqn:E.
  intros Hret.
  apply drawLoop_returned in Hret as (H1 & H2 & H3);
    [| apply NoDup_nil_2 | simpl; lia].
  assert (Hav : forall id, id ∈ l -> exists u,
            u ∈ (filterAvailable o ups UPGRADES (mkCalls 0 0)).1 ∧
            u_id u = id).
  { intros id Hid. destruct (H3 id Hid) as [H|H];
      [by apply elem_of_nil in H|]. by rewrite E. }
  split_and!; [done | done | |].
  - intros id Hid. destruct (Hav id Hid) as (u & Hu & <-).
    apply filterAvailable_elem_of in Hu as [Hu _].
    by apply list_elem_of_fmap_2.
  - intros Hid. destruct (Hav _ Hid) as (u & Hu & Hp).
    pose proof (filterAvailable_unique _ _ _ _ _ Hu) as Hun. rewrite Hp in Hun.
    apply Hun. apply filterAvailable_elem_of in Hu as [Hu _].
    unfold UPGRADES in Hu.
    repeat (apply elem_of_cons in Hu as [->|Hu]; [done || by simpl in Hp|]).
    by apply elem_of_nil in Hu.
Qed.

(** ** The invariant through the effects and the handlers *)

Lemma wellFormed_levelUp fuel o (w : World) l :
  wellFormed w -> upgradeSelection w = [] ->
  getRandomUpgrades fuel o (upgrades w) 3 = Returned l ->
  wellFormed (levelUp l w) ∧ xpBelowThreshold (levelUp l w).
Proof.
  intros [L BD D S OP K P C PS ES GS X] Hsel Hret.
  apply getRandomUpgrades_selection in Hret as (H1 & H2 & H3 & H4).
  split.
  - constructor;
      cbn [levelUp player upgrades effective upgradeSelection projectiles
           enemies groundItems xp stats set_stats set_level level attack];
      try done.
    + lia.
    + by right.
    + unfold pendingCount in *. rewrite Hsel in C.
      cbn [levelUp upgradeSelection].
      destruct l; [done|]. lia.
  - unfold xpBelowThreshold, getMaxXp.
    cbn [levelUp player xp stats set_stats set_level level]. split; [lia|done].
Qed.

Lemma wellFormed_selectUpgrade id (w : World) :
  consistent w -> wellFormed w -> id ∈ upgradeSelection w ->
  wellFormed (selectUpgrade id w).
Proof.
  intros Hc [L BD D S OP K P C PS ES GS X] Hid.
  assert (Hcat : id ∈ u_id <$> UPGRADES).
  { destruct S as [S|(_ & _ & S)]; [|by apply S].
    rewrite S in Hid. by apply elem_of_nil in Hid. }
  assert (Hpos : forall k v, (k, v) ∈ upgrades w -> 1 <= v)
    by (intros k v H; by apply (K k v)).
  pose proof (levelOf_nonneg (upgrades w) id Hpos) as Hlv.
  assert (K' : forall k v,
            (k, v) ∈ assignUpgrade (upgrades w) id (levelOf (upgrades w) id + 1)
            -> k ∈ u_id <$> UPGRADES ∧ 1 <= v).
  { intros k v H. apply elem_of_assign in H as [[= -> ->]|H];
      [split; [done | lia] | by apply K]. }
  pose proof (assign_NoDup (upgrades w) id (levelOf (upgrades w) id + 1)
                (keys_distinct w Hc)) as Hnd.
  destruct (playerWithUpgrades_maxima (player w) _ Hnd) as (_ & MD & _).
  constructor;
    cbn [selectUpgrade player upgrades effective upgradeSelection projectiles
         enemies groundItems xp]; try done.
  - rewrite MD.
    assert (0 <= levelOf (assignUpgrade (upgrades w) id
                            (levelOf (upgrades w) id + 1)) "attackDamage").
    { apply levelOf_nonneg. intros k v H. by apply (K' k v). }
    lia.
  - by left.
  - intros H. by apply elem_of_nil in H.
  - destruct (decide ("piercing"%string = id)) as [<-|Hne].
    + rewrite levelOf_assign_eq, (OP Hid). lia.
    + by rewrite levelOf_assign_ne.
  - rewrite sumLevels_assign. unfold pendingCount in *.
    cbn [selectUpgrade upgradeSelection].
    destruct (upgradeSelection w); [by apply elem_of_nil in Hid | lia].
Qed.

Lemma wellFormed_initialWorld env id : wellFormed (initialWorld env id).
Proof.
  constructor; simpl; try done.
  - by left.
  - intros k v H. by apply elem_of_nil in H.
Qed.

(** With no enemy and no item on the ground a tick gains no experience. *)
Lemma tickEffect_no_xp env o (w : World) :
  enemies w = [] -> groundItems w = [] -> xp (tickEffect env o w) = xp w.
Proof.
  intros Hes Hgs. unfold tickEffect.
  destruct (upgradeSelection w); [|done]. unfold pipeline.
  rewrite Hes, Hgs.
  destruct (playerAutoAttack _ _ _ _ _ _ _) as [[pl1 ps1] c1].
  pose proof (processProjectiles_uuids
    (hasUpgrade (upgrades w) "lifeSteal") (effective w) ps1 [] pl1) as Hu.
  destruct (processProjectiles _ _ ps1 _ pl1) as [[ps2 es2] pl2].
  cbn [fst snd] in Hu. apply fmap_nil_inv in Hu. subst es2.
  cbn. lia.
Qed.

Lemma wellFormed_mount env o oMount id :
  wellFormed (mount env o oMount id) ∧
  xpBelowThreshold (mount env o oMount id).
Proof.
  pose proof (wellFormed_tickEffect env o _ (wellFormed_initialWorld env id))
    as [L BD D S OP K P C PS ES GS X].
  pose proof (tickEffect_no_xp env o (initialWorld env id) eq_refl eq_refl)
    as Hxp.
  destruct (tickEffect_level env o (initialWorld env id)) as [Hl _].
  destruct (tickEffect_frame env o (initialWorld env id)) as (_ & _ & Hs).
  split.
  - unfold mount. constructor; try done.
    cbn [enemies]. unfold initialEnemies. apply Forall_fmap, Forall_forall.
    intros i _. unfold soundEnemy, health_current, health_max. simpl. lia.
  - unfold xpBelowThreshold, getMaxXp, mount. cbn [xp player upgradeSelection].
    rewrite Hxp, Hl. simpl. split; [lia | done].
Qed.

Lemma wellFormed_interval env o fuel o1 o2 (w w' : World) :
  wellFormed w -> xpBelowThreshold w ->
  interval env o fuel o1 o2 w = Returned w' ->
  wellFormed w' ∧ xpBelowThreshold w'.
Proof.
  intros Hw [Hx Hp]. unfold interval.
  destruct (upgradeSelection w) as [|s sel] eqn:Hsel.
  - pose proof (wellFormed_tickEffect env o _ (wellFormed_setTick w Hw)) as H1.
    destruct (tickEffect_frame env o (setTick w)) as (_ & _ & Hs).
    destruct (tickEffect_level env o (setTick w)) as (Hl & _).
    cbn [setTick upgradeSelection player] in Hs, Hl. rewrite Hsel in Hs.
    set (w1 := tickEffect env o (setTick w)) in *. clearbody w1.
    destruct (xp w1 =? xp w) eqn:E1.
    { apply Z.eqb_eq in E1. intros [= <-]. split; [done|].
      unfold xpBelowThreshold, getMaxXp in *. rewrite E1, Hl, Hs.
      split; [done | congruence]. }
    unfold xpEffect at 1.
    destruct (getMaxXp w1 <=? xp w1) eqn:E2.
    + destruct (getRandomUpgrades fuel o1 (upgrades w1) 3) as [l| |] eqn:E;
        [|done..].
      destruct (wellFormed_levelUp _ _ _ _ H1 Hs E) as [H2 H3].
      assert (Hno : xpEffect fuel o2 (levelUp l w1) = Returned (levelUp l w1)).
      { unfold xpEffect. destruct H3 as [H3 _].
        destruct (getMaxXp (levelUp l w1) <=? xp (levelUp l w1)) eqn:E3;
          [|done].
        apply Z.leb_le in E3. lia. }
      rewrite Hno. destruct (xp (levelUp l w1) =? xp w1); by intros [= <-].
    + rewrite Z.eqb_refl. intros [= <-]. split; [done|].
      apply Z.leb_gt in E2. unfold xpBelowThreshold. rewrite Hs.
      split; [done | congruence].
  - assert (Hpaused : tickEffect env o (setTick w) = setTick w).
    { unfold tickEffect. cbn [setTick upgradeSelection]. by rewrite Hsel. }
    rewrite Hpaused. cbn [renderEffect setTick xp]. rewrite Z.eqb_refl.
    intros [= <-]. split.
    + by apply wellFormed_renderEffect, wellFormed_setTick.
    + unfold xpBelowThreshold, getMaxXp in *.
      cbn [renderEffect setTick xp player upgradeSelection].
      split; [done|]. intros _. by apply Hp.
Qed.

Lemma reachable_wellFormed (w : World) :
  reachable w -> wellFormed w ∧ xpBelowThreshold w.
Proof.
  intros Hr. pose proof (reachable_consistent) as Hcons.
  induction Hr as [env o oMount id | w w' Hr IH Hstep].
  - apply wellFormed_mount.
  - destruct IH as [Hw Hx]. specialize (Hcons w Hr).
    destruct Hstep as [env o fuel o1 o2 w w' Hi | id w Hid | env mx my w].
    + by eapply wellFormed_interval.
    + split; [by apply wellFormed_selectUpgrade|].
      destruct Hx as [Hx _]. split; [exact Hx | done].
    + split; [by apply wellFormed_mouseMove | exact Hx].
Qed.


(** X19. In every state the running component goes through, the upgrade
    selection is either empty or holds exactly three distinct ids, each the
    id of a catalog entry, so that [getUpgradeById] finds an upgrade for
    every button shown; "piercing" is among them only while it was never
    chosen. *)
Theorem upgradeSelection_empty_or_three (w : World) :
  reachable w ->
  (upgradeSelection w = [] ∨
   length (upgradeSelection w) = 3%nat ∧ NoDup (upgradeSelection w)) ∧
  (forall id, id ∈ upgradeSelection w ->
     exists u, getUpgradeById id = Some u ∧ u_id u = id) ∧
  ("piercing" ∈ upgradeSelection w -> levelOf (upgrades w) "piercing" = 0).
Proof.
  intros Hr. destruct (reachable_wellFormed w Hr) as [Hw _].
  split_and!.
  - destruct (wf_selection w Hw) as [H|(H1 & H2 & _)]; [by left | by right].
  - intros id Hid.
    assert (Hcat : id ∈ u_id <$> UPGRADES).
    { destruct (wf_selection w Hw) as [H|(_ & _ & H)]; [|by apply H].
      rewrite H in Hid. by apply elem_of_nil in Hid. }
    unfold UPGRADES in Hcat. rewrite !fmap_cons in Hcat. cbn [u_id] in Hcat.
    repeat (apply elem_of_cons in Hcat as [->|Hcat];
            [eexists; split; reflexivity|]).
    by apply elem_of_nil in Hcat.
  - apply (wf_offer_piercing w Hw).
Qed.

(** X20. In every state the running component goes through, the keys of
    [upgrades] are ids of the catalog, every stored level is at least 1,
    and the unique upgrade "piercing" was chosen at most once. *)
Theorem upgrades_hold_catalog_ids (w : World) :
  reachable w ->
  NoDup (upgrades w).*1 ∧
  (forall k v, (k, v) ∈ upgrades w -> k ∈ u_id <$> UPGRADES ∧ 1 <= v) ∧
  (forall id, 0 <= levelOf (upgrades w) id) ∧
  levelOf (upgrades w) "piercing" <= 1.
Proof.
  intros Hr. destruct (reachable_wellFormed w Hr) as [Hw _].
  split_and!.
  - apply (keys_distinct w (reachable_consistent w Hr)).
  - apply (wf_keys w Hw).
  - intros id. apply levelOf_nonneg. intros k v H.
    by apply (wf_keys w Hw k v).
  - apply (wf_piercing w Hw).
Qed.

(** X21. In every state the running component goes through, the levels
    stored in [upgrades] add up to the number of level-ups so far (the
    player's level minus 1), less one while a selection is pending: each
    level-up is paid out as exactly one upgrade. *)
Theorem one_upgrade_per_level (w : World) :
  reachable w ->
  sumLevels (upgrades w) + pendingCount w = level (stats (player w)) - 1.
Proof.
  intros Hr. destruct (reachable_wellFormed w Hr) as [Hw _].
  apply (wf_chosen w Hw).
Qed.

(** X22. In every state the running component goes through, every
    projectile in flight has a damage of at least 1, its per-enemy hit
    counters are all between 0 and 300, and a projectile that is not
    piercing has no counter at all; the damage of the player's shots, read
    from the [playerWithUpgrades] memo, is at least 1. *)
Theorem projectiles_stay_tidy (w : World) :
  reachable w ->
  1 <= damage (attack (stats (effective w))) ∧
  Forall (fun p =>
            1 <= p_damage p ∧
            (forall id cd, entityHitCooldown p !! id = Some cd ->
                           0 <= cd <= 300) ∧
            (isPiercing p = false -> entityHitCooldown p = ∅))
         (projectiles w).
Proof.
  intros Hr. destruct (reachable_wellFormed w Hr) as [Hw _].
  split; [apply (wf_damage w Hw)|].
  eapply Forall_impl; [apply (wf_projectiles w Hw)|].
  intros p (H1 & H2 & H3). split_and!; [done | | done].
  intros id cd Hcd. by apply (H1 id cd).
Qed.

(** X23. In every state the running component goes through, every enemy
    has a level, a maximum health and an attack damage of at least 1 and a
    current health of at most its maximum, and every item on the ground is
    an experience or a health item of value at least 1. *)
Theorem enemies_and_items_stay_sound (w : World) :
  reachable w ->
  Forall soundEnemy (enemies w) ∧ Forall soundItem (groundItems w).
Proof.
  intros Hr. destruct (reachable_wellFormed w Hr) as [Hw _].
  split; [apply (wf_enemies w Hw) | apply (wf_items w Hw)].
Qed.

(** X24. The effect keyed on [tick] writes the player, the three arrays
    and the experience only: the upgrade levels, the [playerWithUpgrades]
    memo, the pending selection, the tick counter, the mouse position and
    the aiming angle are as before, and so are the player's level and base
    attack damage. *)
Theorem tickEffect_leaves_the_rest env o (w : World) :
  upgrades (tickEffect env o w) = upgrades w ∧
  effective (tickEffect env o w) = effective w ∧
  upgradeSelection (tickEffect env o w) = upgradeSelection w ∧
  tick (tickEffect env o w) = tick w ∧
  mouse_x (tickEffect env o w) = mouse_x w ∧
  mouse_y (tickEffect env o w) = mouse_y w ∧
  playerAngle (tickEffect env o w) = playerAngle w ∧
  level (stats (player (tickEffect env o w))) = level (stats (player w)) ∧
  damage (attack (stats (player (tickEffect env o w)))) =
    damage (attack (stats (player w))).
Proof.
  destruct (tickEffect_frame env o w) as (H1 & H2 & H3).
  destruct (tickEffect_tick env o w) as (H4 & H5 & H6 & H7).
  destruct (tickEffect_level env o w) as (H8 & H9).
  by split_and!.
Qed.

(** X25. Every firing of the interval that returns advances the tick
    counter by exactly 1, also while an upgrade selection is pending, and
    leaves the upgrade levels as they were.  With a player level of at
    least 1, the level either stays, or goes up by exactly 1 with the
    experience reset to 0 and three upgrades offered, which happens only
    when no selection was pending. *)
Theorem interval_advances_tick env o fuel o1 o2 (w w' : World) :
  1 <= level (stats (player w)) ->
  interval env o fuel o1 o2 w = Returned w' ->
  tick w' = tick w + 1 ∧
  upgrades w' = upgrades w ∧
  (level (stats (player w')) = level (stats (player w)) ∧
   upgradeSelection w' = upgradeSelection w ∨
   level (stats (player w')) = level (stats (player w)) + 1 ∧
   xp w' = 0 ∧ upgradeSelection w = [] ∧
   length (upgradeSelection w') = 3%nat).
Proof.
  intros Hlvl. unfold interval.
  destruct (tickEffect_frame env o (setTick w)) as (Hu & _ & Hs).
  destruct (tickEffect_tick env o (setTick w)) as (Ht & _).
  destruct (tickEffect_level env o (setTick w)) as (Hl & _).
  cbn [setTick upgrades upgradeSelection tick player] in Hu, Hs, Ht, Hl.
  destruct (upgradeSelection w) as [|s sel] eqn:Hsel.
  - set (w1 := tickEffect env o (setTick w)) in *. clearbody w1.
    destruct (xp w1 =? xp w); [intros [= <-]; split_and!; by (done || left)|].
    unfold xpEffect at 1. destruct (getMaxXp w1 <=? xp w1).
    + destruct (getRandomUpgrades fuel o1 (upgrades w1) 3) as [l| |] eqn:E;
        [|done..].
      apply getRandomUpgrades_selection in E as (E & _).
      assert (Hno : xpEffect fuel o2 (levelUp l w1) = Returned (levelUp l w1)).
      { unfold xpEffect, getMaxXp.
        cbn [levelUp player xp stats set_stats set_level level].
        destruct (_ <=? 0) eqn:E3; [|done]. apply Z.leb_le in E3. lia. }
      rewrite Hno.
      assert (Hgoal : tick (levelUp l w1) = tick w + 1 ∧
                upgrades (levelUp l w1) = upgrades w ∧
                (level (stats (player (levelUp l w1)))
                   = level (stats (player w)) ∧
                 upgradeSelection (levelUp l w1) = [] ∨
                 level (stats (player (levelUp l w1)))
                   = level (stats (player w)) + 1 ∧
                 xp (levelUp l w1) = 0 ∧ @nil string = [] ∧
                 length (upgradeSelection (levelUp l w1)) = 3%nat)).
      { cbn [levelUp tick upgrades player xp stats set_stats set_level level
             upgradeSelection].
        split_and!; [done | done |]. right. split_and!; (done || lia). }
      destruct (xp (levelUp l w1) =? xp w1); by intros [= <-].
    + rewrite Z.eqb_refl. intros [= <-]. split_and!; by (done || left).
  - assert (Hpaused : tickEffect env o (setTick w) = setTick w).
    { unfold tickEffect. cbn [setTick upgradeSelection]. by rewrite Hsel. }
    rewrite Hpaused. cbn [renderEffect setTick xp]. rewrite Z.eqb_refl.
    intros [= <-]. split_and!; by (done || left).
Qed.

(** ** C3: the spawn check *)

Lemma tickEffect_spawn env o (w : World) :
  upgradeSelection w = [] ->
  enemies (tickEffect env o w) =
    (if Z.rem (tick w) 100 =? 0
     then survivors env o w ++ [spawned env o w]
     else survivors env o w) ∧
  uuid <$> survivors env o w =
    uuid <$> List.filter (fun e => negb (isDead e)) (struck env o w) ∧
  uuid <$> struck env o w = uuid <$> enemies w ∧
  (nrandom (spawnCalls env o w)
     = length (List.filter isDead (struck env o w)))%nat.
Proof.
  intros Hsel.
  destruct (tickEffect_level env o w) as [Hl _]. revert Hl.
  unfold spawned, survivors, struck, spawnCalls, enemyPhase, tickEffect.
  rewrite Hsel. unfold pipeline.
  pose proof (playerAutoAttack_stats o (upgrades w) (playerAngle w)
    (effective w) (controls env (effective w) (player w)) (projectiles w)
    (mkCalls 0 0)) as _.
  assert (Hc1 : nrandom (playerAutoAttack o (upgrades w) (playerAngle w)
    (effective w) (controls env (effective w) (player w)) (projectiles w)
    (mkCalls 0 0)).2 = 0%nat).
  { unfold playerAutoAttack. by destruct (_ =? 0). }
  destruct (playerAutoAttack _ _ _ _ _ _ _) as [[pl1 ps1] c1].
  pose proof (processProjectiles_uuids
    (hasUpgrade (upgrades w) "lifeSteal") (effective w) ps1 (enemies w) pl1)
    as Hu.
  destruct (processProjectiles _ _ ps1 _ pl1) as [[ps2 es2] pl2].
  destruct (processEnemies_accounts o (effective w) pl2 es2 c1)
    as (Hk & _ & Hn).
  destruct (processEnemies _ _ pl2 es2 c1) as [[[es3 shots] drops] c3].
  destruct (processGroundItems _ pl2 _) as [[gs4 pl4] gained].
  cbn [fst snd player enemies] in *. intros Hl.
  split_and!; [|done|done|lia].
  unfold spawnEnemies. destruct (Z.rem (tick w) 100 =? 0); [|done].
  do 2 f_equal. unfold spawnedEnemy. cbn in Hl. by rewrite Hl.
Qed.

Lemma interval_frame env o fuel o1 o2 (w w' : World) :
  interval env o fuel o1 o2 w = Returned w' ->
  upgrades w' = upgrades w ∧ effective w' = effective w ∧
  enemies w' ≡ₚ enemies (tickEffect env o (setTick w)).
Proof.
  unfold interval.
  destruct (tickEffect_frame env o (setTick w)) as (Hu & He & _).
  cbn [setTick upgrades effective] in Hu, He.
  set (t := tickEffect env o (setTick w)) in *.
  set (w1 := match upgradeSelection w with
             | [] => t
             | _ :: _ => renderEffect t
             end).
  assert (H1 : upgrades w1 = upgrades w ∧ effective w1 = effective w ∧
               enemies w1 ≡ₚ enemies t).
  { subst w1. destruct (upgradeSelection w); [done|].
    cbn [renderEffect upgrades effective enemies].
    split_and!; [done | done | apply sortByY_Permutation]. }
  clearbody w1 t. destruct H1 as (H1 & H2 & H3).
  assert (Hx : forall fuel o (a b : World),
            xpEffect fuel o a = Returned b ->
            upgrades b = upgrades a ∧ effective b = effective a ∧
            enemies b = enemies a).
  { intros f oo a b. unfold xpEffect.
    destruct (getMaxXp a <=? xp a); [|by intros [= <-]].
    destruct (getRandomUpgrades _ _ _ _); [|done..]. by intros [= <-]. }
  destruct (xp w1 =? xp w); [by intros [= <-]|].
  destruct (xpEffect fuel o1 w1) as [w2| |] eqn:E; [|done..].
  destruct (Hx _ _ _ _ E) as (A1 & A2 & A3).
  destruct (xp w2 =? xp w1).
  - intros [= <-]. by rewrite A1, A2, A3.
  - intros E2. destruct (Hx _ _ _ _ E2) as (B1 & B2 & B3).
    by rewrite B1, B2, B3, A1, A2, A3.
Qed.

(** C3 (as the code has it).  A tick that runs leaves exactly the
    enemies that its enemy loop keeps (those the projectiles of this tick
    left above 0 health, in their order), followed, when the tick counter
    is a multiple of 100, by exactly one enemy more, the one made by the
    spawn check from the next two [Math.random()] values and the next
    [uuidv4()]; otherwise by nothing.  A tick during a pending selection
    leaves the list as it is, whatever the counter.  The level-up effect,
    the selection handler and the pointer handler leave the list as it
    is, the render effect reorders it, and a whole firing of the interval
    ends with the enemies of its tick effect.  The mount effect sets the
    ten initial skeletons without any spawn check. *)
Theorem spawn_only_on_running_multiples_of_100 env o (w : World) :
  (upgradeSelection w = [] ->
   enemies (tickEffect env o w) =
     (if Z.rem (tick w) 100 =? 0
      then survivors env o w ++ [spawned env o w]
      else survivors env o w) ∧
   uuid <$> survivors env o w =
     uuid <$> List.filter (fun e => negb (isDead e)) (struck env o w) ∧
   uuid <$> struck env o w = uuid <$> enemies w ∧
   length (enemies (tickEffect env o w)) =
     (length (List.filter (fun e => negb (isDead e)) (struck env o w))
      + if (Z.rem (tick w) 100 =? 0)%Z then 1 else 0)%nat) ∧
  (upgradeSelection w ≠ [] -> enemies (tickEffect env o w) = enemies w) ∧
  (forall fuel o1 w', xpEffect fuel o1 w = Returned w' ->
     enemies w' = enemies w) ∧
  (forall id, enemies (selectUpgrade id w) = enemies w) ∧
  (forall env' mx my, enemies (mouseMove env' mx my w) = enemies w) ∧
  enemies (renderEffect w) ≡ₚ enemies w ∧
  (forall fuel o1 o2 w', interval env o fuel o1 o2 w = Returned w' ->
     enemies w' ≡ₚ enemies (tickEffect env o (setTick w))) ∧
  (forall oMount id,
     enemies (mount env o oMount id)
       = initialEnemies oMount (initialPlayer id) ∧
     length (enemies (mount env o oMount id)) = 10%nat).
Proof.
  split_and!.
  - intros Hsel. destruct (tickEffect_spawn env o w Hsel) as (H1 & H2 & H3 & _).
    split_and!; [done..|].
    rewrite H1. rewrite <- (length_fmap uuid (List.filter _ _)), <- H2,
      length_fmap.
    destruct (Z.rem (tick w) 100 =? 0); [|lia].
    rewrite length_app. simpl. lia.
  - intros Hsel. unfold tickEffect. by destruct (upgradeSelection w).
  - intros fuel o1 w'. unfold xpEffect.
    destruct (getMaxXp w <=? xp w); [|by intros [= <-]].
    destruct (getRandomUpgrades _ _ _ _); [|done..]. by intros [= <-].
  - done.
  - done.
  - apply sortByY_Permutation.
  - intros fuel o1 o2 w' Hi. by destruct (interval_frame _ _ _ _ _ _ _ Hi)
      as (_ & _ & ?).
  - done.
Qed.

(** ** C9: the selection handler *)


(** ** Experience *)

Lemma interval_experience env o fuel o1 o2 (w w' : World) :
  wellFormed w -> xpBelowThreshold w ->
  interval env o fuel o1 o2 w = Returned w' ->
  if getMaxXp w <=? xp (tickEffect env o (setTick w))
  then xp w' = 0 ∧
       level (stats (player w')) = level (stats (player w)) + 1 ∧
       upgradeSelection w = [] ∧ upgradeSelection w' ≠ []
  else xp w' = xp (tickEffect env o (setTick w)) ∧
       level (stats (player w')) = level (stats (player w)) ∧
       upgradeSelection w' = upgradeSelection w.
Proof.
  intros Hw [Hx Hp]. unfold interval.
  destruct (tickEffect_frame env o (setTick w)) as (_ & _ & Hs).
  destruct (tickEffect_level env o (setTick w)) as (Hl & _).
  cbn [setTick upgradeSelection player] in Hs, Hl.
  destruct (upgradeSelection w) as [|s sel] eqn:Hsel.
  - set (w1 := tickEffect env o (setTick w)) in *. clearbody w1.
    assert (Hmax : getMaxXp w1 = getMaxXp w)
      by (unfold getMaxXp; by rewrite Hl).
    rewrite <- Hmax.
    destruct (xp w1 =? xp w) eqn:E1.
    { apply Z.eqb_eq in E1. intros [= <-].
      destruct (getMaxXp w1 <=? xp w1) eqn:E2; [|done].
      apply Z.leb_le in E2. lia. }
    unfold xpEffect at 1.
    destruct (getMaxXp w1 <=? xp w1) eqn:E2.
    + destruct (getRandomUpgrades fuel o1 (upgrades w1) 3) as [l| |] eqn:E;
        [|done..].
      apply getRandomUpgrades_selection in E as (E & _).
      assert (Hno : xpEffect fuel o2 (levelUp l w1) = Returned (levelUp l w1)).
      { unfold xpEffect, getMaxXp.
        cbn [levelUp player xp stats set_stats set_level level].
        pose proof (wf_level w Hw).
        destruct (_ <=? 0) eqn:E3; [|done]. apply Z.leb_le in E3. lia. }
      rewrite Hno.
      assert (Hgoal : xp (levelUp l w1) = 0 ∧
                level (stats (player (levelUp l w1)))
                  = level (stats (player w)) + 1 ∧
                @nil string = [] ∧ upgradeSelection (levelUp l w1) ≠ []).
      { cbn [levelUp player xp stats set_stats set_level level
             upgradeSelection].
        split_and!; [done | lia | done | by destruct l]. }
      destruct (xp (levelUp l w1) =? xp w1); by intros [= <-].
    + rewrite Z.eqb_refl. by intros [= <-].
  - assert (Hpaused : tickEffect env o (setTick w) = setTick w).
    { unfold tickEffect. cbn [setTick upgradeSelection]. by rewrite Hsel. }
    rewrite Hpaused. cbn [renderEffect setTick xp]. rewrite Z.eqb_refl.
    intros [= <-]. cbn [renderEffect setTick xp player upgradeSelection].
    destruct (getMaxXp w <=? xp w) eqn:E2; [|done].
    apply Z.leb_le in E2. lia.
Qed.

(** X18.  Whenever the component has handled an event and the effects
    it set off have run (the mount, a firing of the interval, a
    selection, a pointer move), the player's level is at least 1 and the
    experience is at least 0 and below the threshold [getMaxXp()] of
    that level; while an upgrade selection is pending it is 0.  Inside a
    firing, the state that the tick effect commits before the effect
    keyed on [xp] has run keeps the level and has at least the
    experience there was, possibly the threshold or more; when it has,
    the firing ends with the experience at 0 (what exceeded the
    threshold is dropped), the level raised by exactly 1 and a selection
    pending, and otherwise with that experience and the level and the
    selection as they were. *)
Theorem experience_stays_below_threshold (w : World) :
  reachable w ->
  (1 <= level (stats (player w)) ∧
   0 <= xp w < getMaxXp w ∧
   (upgradeSelection w ≠ [] -> xp w = 0)) ∧
  (forall env o,
     level (stats (player (tickEffect env o (setTick w))))
       = level (stats (player w)) ∧
     xp w <= xp (tickEffect env o (setTick w)) ∧
     (upgradeSelection w ≠ [] -> xp (tickEffect env o (setTick w)) = xp w)) ∧
  (forall env o fuel o1 o2 w',
     interval env o fuel o1 o2 w = Returned w' ->
     if getMaxXp w <=? xp (tickEffect env o (setTick w))
     then xp w' = 0 ∧
          level (stats (player w')) = level (stats (player w)) + 1 ∧
          upgradeSelection w = [] ∧ upgradeSelection w' ≠ []
     else xp w' = xp (tickEffect env o (setTick w)) ∧
          level (stats (player w')) = level (stats (player w)) ∧
          upgradeSelection w' = upgradeSelection w).
Proof.
  intros Hr. destruct (reachable_wellFormed w Hr) as [Hw [Hx Hp]].
  split_and!; [apply (wf_level w Hw) | apply (wf_xp w Hw) | done | done | |].
  - intros env o.
    destruct (tickEffect_level env o (setTick w)) as (Hl & _).
    pose proof (wellFormed_setTick w Hw) as [L BD D S OP K P C PS ES GS X].
    destruct (tickEffect_arrays env o (setTick w) D PS ES GS)
      as (_ & _ & _ & A4).
    split_and!; [exact Hl | exact A4 |].
    intros Hne. unfold tickEffect. cbn [setTick upgradeSelection].
    by destruct (upgradeSelection w).
  - intros env o fuel o1 o2 w' Hi.
    by apply (interval_experience env o fuel o1 o2 w w' Hw).
Qed.


(** ** C7: the derivation on the store *)

Lemma lookup_beyond {A} (l1 l2 : list A) k :
  (l1 ++ l2) !! (length l1 + k)%nat = l2 !! k.
Proof.
  rewrite lookup_app_r by lia. f_equal. lia.
Qed.

Lemma lookup_at_length {A} (l1 l2 : list A) :
  (l1 ++ l2) !! length l1 = l2 !! 0%nat.
Proof. rewrite <- (lookup_beyond l1 l2 0). f_equal. lia. Qed.

Lemma insert_beyond {A} (l1 l2 : list A) k a :
  <[(length l1 + k)%nat := a]> (l1 ++ l2) = l1 ++ <[k := a]> l2.
Proof.
  rewrite insert_app_r_alt by lia. do 2 f_equal. lia.
Qed.

Lemma insert_at_length {A} (l1 l2 : list A) a :
  <[length l1 := a]> (l1 ++ l2) = l1 ++ <[0%nat := a]> l2.
Proof. rewrite <- (insert_beyond l1 l2 0). f_equal. lia. Qed.

Ltac heap_lookup :=
  repeat (first [rewrite lookup_beyond | rewrite lookup_at_length];
          cbn [lookup list_lookup]).

Lemma read_layout (h : list Obj) (e : Entity) :
  readEntity (h ++ layout e (length h)) (length h + 4)%nat = Some e.
Proof.
  unfold readEntity, readStats, readAttack, readCurrentMax, layout.
  heap_lookup.
  by destruct e as [? ? [? [] ? ? [? [] ? ? ?]] ? ? ?].
Qed.

Lemma refs_layout (h : list Obj) (e : Entity) :
  statsRef (h ++ layout e (length h)) (length h + 4)%nat
    = Some (length h + 3)%nat ∧
  healthRef (h ++ layout e (length h)) (length h + 4)%nat
    = Some (length h) ∧
  attackRef (h ++ layout e (length h)) (length h + 4)%nat
    = Some (length h + 2)%nat ∧
  cooldownRef (h ++ layout e (length h)) (length h + 4)%nat
    = Some (length h + 1)%nat.
Proof.
  unfold cooldownRef, attackRef, healthRef, statsRef, layout.
  heap_lookup. done.
Qed.

(** An assignment of the loop on a fresh copy is the record update of
    the pure derivation. *)
Lemma upgradeStep_layout (h : list Obj) (e : Entity) entry :
  upgradeStep (length h + 4)%nat (h ++ layout e (length h)) entry =
    Some (h ++ layout (applyUpgrade e entry) (length h)).
Proof.
  destruct (refs_layout h e) as (Hs & Hh & Ha & Hc).
  destruct entry as [k lvl]. unfold upgradeStep, applyUpgrade.
  destruct (getUpgradeById k) as [u|]; [|done].
  unfold addAttackRadius, addSpeed, addHealthMax, addDamage, subCooldownMax.
  rewrite Hs, Hh, Ha, Hc.
  repeat match goal with
         | |- context [if String.eqb k ?s then _ else _] =>
             destruct (String.eqb k s)
         | |- context [valueOf u ?s] => destruct (valueOf u s)
         end; try done;
    unfold layout; heap_lookup;
    rewrite ?insert_beyond, ?insert_at_length; reflexivity.
Qed.

Lemma upgradeLoop_layout (h : list Obj) (e : Entity) (ups : Upgrades) :
  upgradeLoop (length h + 4)%nat (h ++ layout e (length h)) ups =
    Some (h ++ layout (fold_left applyUpgrade ups e) (length h)).
Proof.
  revert e. induction ups as [|entry rest IH]; intros e; [done|].
  cbn [upgradeLoop fold_left]. rewrite upgradeStep_layout. apply IH.
Qed.

Lemma lookup_extend (h l : list Obj) p o :
  h !! p = Some o -> (h ++ l) !! p = Some o.
Proof. apply lookup_app_l_Some. Qed.

(** With the two [{current, max}] objects apart, the deep copy is the
    layout of the entity read. *)
Lemma structuredClone_layout (h : list Obj) p (e : Entity) :
  readEntity h p = Some e -> unshared h p ->
  structuredClone h p = Some (h ++ layout e (length h), (length h + 4)%nat).
Proof.
  unfold unshared, healthRef, cooldownRef, attackRef, statsRef.
  unfold readEntity, readStats, readAttack, readCurrentMax.
  unfold structuredClone, cloneStats, cloneAttack, cloneCurrentMax, alloc.
  destruct (h !! p) as [[id nm st px py fc| | |]|] eqn:Hp; try done.
  destruct (h !! st) as [[|lv hl sp rd atk| |]|] eqn:Hst; try done.
  destruct (h !! hl) as [[| |hc hm|]|] eqn:Hhl; try done.
  destruct (h !! atk) as [[| | |d cd r ar ps]|] eqn:Hatk; try done.
  destruct (h !! cd) as [[| |cc cmx|]|] eqn:Hcd; try done.
  intros [= <-] Hne.
  rewrite (lookup_extend h _ _ _ Hatk), (lookup_extend h _ _ _ Hcd).
  cbn [fst snd].
  destruct (cd =? hl)%nat eqn:E; [apply Nat.eqb_eq in E; congruence|].
  unfold layout, health_current, health_max, cooldown_current, cooldown_max.
  cbn [stats health attack cooldown current max damage range attack_radius
       projectileSpeed level speed radius uuid name x y face].
  rewrite <- !app_assoc. cbn [app]. rewrite !length_app. cbn [length].
  repeat f_equal; lia.
Qed.

Lemma memoBody_layout (h : list Obj) p (e : Entity) (ups : Upgrades) :
  readEntity h p = Some e -> unshared h p ->
  memoBody h p ups =
    Some (h ++ layout (playerWithUpgrades e ups) (length h),
          (length h + 4)%nat).
Proof.
  intros Hr Hu. unfold memoBody. rewrite (structuredClone_layout h p e Hr Hu).
  by rewrite upgradeLoop_layout.
Qed.

Lemma unshared_extend (h l : list Obj) p (e : Entity) :
  readEntity h p = Some e -> unshared h p -> unshared (h ++ l) p.
Proof.
  unfold unshared, healthRef, cooldownRef, attackRef, statsRef.
  unfold readEntity, readStats, readAttack, readCurrentMax.
  destruct (h !! p) as [[id nm st px py fc| | |]|] eqn:Hp; try done.
  destruct (h !! st) as [[|lv hl sp rd atk| |]|] eqn:Hst; try done.
  destruct (h !! hl) as [[| |hc hm|]|] eqn:Hhl; try done.
  destruct (h !! atk) as [[| | |d cd r ar ps]|] eqn:Hatk; try done.
  intros _ Hne.
  by rewrite (lookup_extend h _ _ _ Hp), (lookup_extend h _ _ _ Hst),
    (lookup_extend h _ _ _ Hatk).
Qed.

(** What was in the store can still be read from a store that only
    grew. *)
Lemma readEntity_extend (h l : list Obj) p (e : Entity) :
  readEntity h p = Some e -> readEntity (h ++ l) p = Some e.
Proof.
  unfold readEntity, readStats, readAttack, readCurrentMax.
  destruct (h !! p) as [[id nm st px py fc| | |]|] eqn:Hp; try done.
  destruct (h !! st) as [[|lv hl sp rd atk| |]|] eqn:Hst; try done.
  destruct (h !! hl) as [[| |hc hm|]|] eqn:Hhl; try done.
  destruct (h !! atk) as [[| | |d cd r ar ps]|] eqn:Hatk; try done.
  destruct (h !! cd) as [[| |cc cmx|]|] eqn:Hcd; try done.
  intros [= <-].
  by rewrite (lookup_extend h _ _ _ Hp), (lookup_extend h _ _ _ Hst),
    (lookup_extend h _ _ _ Hhl), (lookup_extend h _ _ _ Hatk),
    (lookup_extend h _ _ _ Hcd).
Qed.

(** C7.  The derivation on the store.  Let [player] refer to an entity
    [e] in the store, its two [{current, max}] objects being different
    objects.  The memo body returns, and every object that was in the
    store before is in it unchanged afterwards, the objects of the stored
    player among them: [player] still reads as [e].  What it returns is a
    reference to newly allocated objects that read as the derived entity,
    which is the value of the function [playerWithUpgrades] of [e] and
    the upgrade levels alone.  Run once more on the store it left, it
    again changes no object, the stored player and the first result
    included, and its second result reads the same as the first: nothing
    accumulates.  Run in any other store on any other reference that
    reads as [e], it derives the same entity. *)
Theorem playerWithUpgrades_pure_idempotent (h : list Obj) (player : nat)
    (e : Entity) (ups : Upgrades) :
  readEntity h player = Some e ->
  unshared h player ->
  exists h' derived,
    memoBody h player ups = Some (h', derived) ∧
    h `prefix_of` h' ∧
    (length h <= derived)%nat ∧
    readEntity h' player = Some e ∧
    readEntity h' derived = Some (playerWithUpgrades e ups) ∧
    (exists h'' derived',
       memoBody h' player ups = Some (h'', derived') ∧
       h' `prefix_of` h'' ∧
       readEntity h'' derived' = Some (playerWithUpgrades e ups) ∧
       readEntity h'' derived = Some (playerWithUpgrades e ups) ∧
       readEntity h'' player = Some e) ∧
    (forall h2 p2,
       readEntity h2 p2 = Some e -> unshared h2 p2 ->
       exists h2' d2,
         memoBody h2 p2 ups = Some (h2', d2) ∧
         readEntity h2' d2 = Some (playerWithUpgrades e ups)).
Proof.
  intros Hr Hu.
  pose proof (memoBody_layout h player e ups Hr Hu) as H1.
  eexists _, _. split; [exact H1|].
  pose proof (readEntity_extend h
    (layout (playerWithUpgrades e ups) (length h)) player e Hr) as Hr'.
  pose proof (unshared_extend h
    (layout (playerWithUpgrades e ups) (length h)) player e Hr Hu) as Hu'.
  pose proof (memoBody_layout _ player e ups Hr' Hu') as H2.
  split_and!.
  - by eexists.
  - lia.
  - exact Hr'.
  - apply read_layout.
  - eexists _, _. split; [exact H2|]. split_and!.
    + by eexists.
    + apply read_layout.
    + apply readEntity_extend, read_layout.
    + by apply readEntity_extend.
  - intros h2 p2 Hr2 Hu2. eexists _, _.
    split; [exact (memoBody_layout h2 p2 e ups Hr2 Hu2) | apply read_layout].
Qed.

End Properties.

(** * Evaluations on concrete data *)

(** C3, refuted as stated: the ten enemies of the mounted world were
    created by the mount effect, at tick 0 and outside the spawn check;
    and at tick 100, with a selection pending, the tick creates none. *)
Lemma enemies_without_spawn_check_and_no_spawn_when_paused :
  tick mountedWorld = 0 ∧
  length (enemies mountedWorld) = 10%nat ∧
  Z.rem (tick pausedWorld) 100 = 0 ∧
  enemies (tickEffect idleEnv (zeroOracle "t") pausedWorld)
    = enemies pausedWorld.
Proof. split_and!; reflexivity. Qed.

Lemma pick_zero_first : pick 0%float UPGRADES = List.head UPGRADES.
Proof. vm_compute. reflexivity. Qed.

Lemma drawLoop_stuck_on_first fuel c :
  drawLoop fuel (zeroOracle "u") UPGRADES 3 ["attackRadius"] c = OutOfFuel.
Proof.
  revert c. induction fuel as [|fuel IH]; intros c; [reflexivity|].
  cbn [drawLoop length Nat.ltb Nat.leb].
  change (Math_random (zeroOracle "u") (nrandom c)) with 0%float.
  rewrite pick_zero_first. cbn [List.head UPGRADES u_id includes existsb].
  change (String.eqb "attackRadius" "attackRadius") with true.
  cbn [orb]. apply IH.
Qed.

(** C4, refuted as stated: when every [Math.random()] returns 0, all
    seven entries are eligible and every pick names the first one; the
    loop collects one id and never returns, whatever the fuel. *)
Lemma upgrade_draw_can_loop_forever :
  length (filterAvailable (zeroOracle "u") [] UPGRADES (mkCalls 0 0)).1
    = 7%nat ∧
  forall fuel, getRandomUpgrades fuel (zeroOracle "u") [] 3 = OutOfFuel.
Proof.
  split; [reflexivity|]. intros fuel. unfold getRandomUpgrades.
  change (filterAvailable (zeroOracle "u") [] UPGRADES (mkCalls 0 0))
    with (UPGRADES, mkCalls 2 0).
  destruct fuel as [|fuel]; [reflexivity|].
  cbn [drawLoop length Nat.ltb Nat.leb].
  change (Math_random (zeroOracle "u") (nrandom (mkCalls 2 0))) with 0%float.
  rewrite pick_zero_first. cbn [List.head UPGRADES u_id includes existsb].
  apply drawLoop_stuck_on_first.
Qed.

(** ** The theorems at concrete inputs *)

Lemma mountedWorld_reachable : reachable mountedWorld.
Proof.
  exact (reachable_mount idleEnv (zeroOracle "t") (zeroOracle "m") "player").
Defined.

(** The mounted world one firing of the interval later. *)
Lemma secondWorld_reachable :
  reachable (tickEffect idleEnv (zeroOracle "t") (setTick mountedWorld)).
Proof.
  apply (reachable_step mountedWorld); [exact mountedWorld_reachable|].
  apply (step_interval idleEnv (zeroOracle "t") 0
           (zeroOracle "x") (zeroOracle "x")).
  vm_compute. reflexivity.
Defined.


Lemma fire_reachable env w :
  reachable (host := snapHost) w -> reachable (host := snapHost) (fire env w).
Proof.
  intros Hr. unfold fire, fireOn.
  destruct (interval _ _ _ _ _ w) as [w'| |] eqn:E; [|done..].
  eapply reachable_step; [exact Hr|]. by eapply step_interval.
Qed.

Lemma walked_reachable n : reachable (host := snapHost) (walked n).
Proof.
  induction n as [|n IH].
  - eapply reachable_step; [apply reachable_mount | apply step_mouse].
  - by apply fire_reachable.
Qed.


(** What the host answers off the axes plays no part in the run: with
    NaN in its place the run is the same. *)
Lemma walked_stays_on_the_axes :
  walkedOn (snapHostWith nan) 436 = walked 436.
Proof. vm_compute. reflexivity. Qed.

(** C3 in the run: the selection of firing 436 is still pending at
    firing 500, whose tick counter is a multiple of 100, and its tick
    effect leaves the enemies as they are. *)
Lemma no_spawn_at_tick_500_while_pending :
  reachable (host := snapHost) (walked 499) ∧
  upgradeSelection (walked 499)
    = ["piercing"; "movementSpeed"; "health"]%string ∧
  tick (setTick (walked 499)) = 500 ∧
  enemies (tickEffect (host := snapHost) walkEnv (oracleAt (walked 499))
             (setTick (walked 499))) = enemies (walked 499).
Proof.
  split; [apply walked_reachable|]. split_and!; vm_compute; reflexivity.
Qed.

Lemma pendingWorld_reachable : reachable (host := snapHost) pendingWorld.
Proof. apply walked_reachable. Qed.

Lemma chosenWorld_reachable : reachable (host := snapHost) chosenWorld.
Proof.
  eapply reachable_step; [apply pendingWorld_reachable|].
  apply step_select. vm_compute. apply elem_of_cons. by left.
Qed.

Lemma health_capped_after_every_tick_witness :
  (upgradeSelection woundedWorld = [] ∧
   healthCapped (tickEffect idleEnv (zeroOracle "t") woundedWorld)) ∧
  (reachable mountedWorld ∧
   healthCapped mountedWorld ∧
   healthCapped (tickEffect idleEnv (zeroOracle "t") mountedWorld)).
Proof.
  split; (split; [|]).
  - reflexivity.
  - apply (proj1 (health_capped_after_every_tick
                    idleEnv (zeroOracle "t") woundedWorld)).
    reflexivity.
  - exact mountedWorld_reachable.
  - pose proof (proj2 (health_capped_after_every_tick
                         idleEnv (zeroOracle "t") mountedWorld)
                  mountedWorld_reachable) as (H1 & H2 & _).
    exact (conj H1 H2).
Defined.

Lemma cooldowns_stay_in_range_witness :
  reachable (tickEffect idleEnv (zeroOracle "t") (setTick mountedWorld)) ∧
  cooldownInRange
    (player (tickEffect idleEnv (zeroOracle "t") (setTick mountedWorld))) ∧
  Forall cooldownInRange
    (enemies (tickEffect idleEnv (zeroOracle "t") (setTick mountedWorld))).
Proof.
  split; [exact secondWorld_reachable|].
  pose proof (cooldowns_stay_in_range _ secondWorld_reachable)
    as (H1 & H2 & _).
  exact (conj H1 H2).
Defined.

Lemma spawn_only_on_running_multiples_of_100_witness :
  (upgradeSelection mountedWorld = [] ∧
   Z.rem (tick mountedWorld) 100 = 0 ∧
   enemies (tickEffect idleEnv (zeroOracle "t") mountedWorld) =
     survivors idleEnv (zeroOracle "t") mountedWorld
       ++ [spawned idleEnv (zeroOracle "t") mountedWorld] ∧
   length (survivors idleEnv (zeroOracle "t") mountedWorld) = 10%nat ∧
   length (enemies (tickEffect idleEnv (zeroOracle "t") mountedWorld))
     = 11%nat) ∧
  (upgradeSelection (setTick mountedWorld) = [] ∧
   Z.rem (tick (setTick mountedWorld)) 100 = 1 ∧
   enemies (tickEffect idleEnv (zeroOracle "t") (setTick mountedWorld)) =
     survivors idleEnv (zeroOracle "t") (setTick mountedWorld) ∧
   length (enemies (tickEffect idleEnv (zeroOracle "t")
                      (setTick mountedWorld))) = 10%nat) ∧
  (upgradeSelection pausedWorld ≠ [] ∧
   enemies (tickEffect idleEnv (zeroOracle "t") pausedWorld)
     = enemies pausedWorld) ∧
  (xpEffect 0 (zeroOracle "x") mountedWorld = Returned mountedWorld ∧
   enemies mountedWorld = enemies mountedWorld).
Proof.
  pose proof (spawn_only_on_running_multiples_of_100
                idleEnv (zeroOracle "t") mountedWorld) as (H1 & _ & H3 & _).
  pose proof (spawn_only_on_running_multiples_of_100
                idleEnv (zeroOracle "t") (setTick mountedWorld)) as (H1' & _).
  pose proof (spawn_only_on_running_multiples_of_100
                idleEnv (zeroOracle "t") pausedWorld) as (_ & H2 & _).
  split_and!.
  - reflexivity.
  - reflexivity.
  - destruct (H1 eq_refl) as (E & _). exact E.
  - reflexivity.
  - destruct (H1 eq_refl) as (_ & _ & _ & E). exact E.
  - reflexivity.
  - reflexivity.
  - destruct (H1' eq_refl) as (E & _). exact E.
  - destruct (H1' eq_refl) as (_ & _ & _ & E). exact E.
  - discriminate.
  - apply H2. discriminate.
  - reflexivity.
  - exact (H3 0%nat (zeroOracle "x") mountedWorld eq_refl).
Defined.

Lemma upgrade_draw_has_no_guard_witness :
  (getRandomUpgrades 3 stepOracle [] 3
     = Returned ["movementSpeed"; "health"; "attackDamage"] ∧
   NoDup ["movementSpeed"; "health"; "attackDamage"]) ∧
  (picksOf stepOracle
     (filterAvailable stepOracle [] UPGRADES (mkCalls 0 0)).1
     (filterAvailable stepOracle [] UPGRADES (mkCalls 0 0)).2 3
     = Some <$> ["movementSpeed"; "health"; "attackDamage"] ∧
   exists l, getRandomUpgrades 3 stepOracle [] 3 = Returned l) ∧
  (picksOf stepOracle
     (filterAvailable stepOracle [] UPGRADES (mkCalls 0 0)).1
     (filterAvailable stepOracle [] UPGRADES (mkCalls 0 0)).2 2
     = Some <$> ["movementSpeed"; "health"] ∧
   getRandomUpgrades 2 stepOracle [] 3 = OutOfFuel) ∧
  ((length (take 2 UPGRADES) < 3)%nat ∧
   drawLoop 5 stepOracle (take 2 UPGRADES) 3 [] (mkCalls 0 0)
     ≠ Returned ["attackRadius"; "movementSpeed"; "health"]).
Proof.
  pose proof (upgrade_draw_has_no_guard stepOracle [])
    as (_ & H2 & H3 & H4 & H5 & _).
  assert (Hret : getRandomUpgrades 3 stepOracle [] 3
            = Returned ["movementSpeed"; "health"; "attackDamage"])
    by (vm_compute; reflexivity).
  assert (Hpicks : picksOf stepOracle
     (filterAvailable stepOracle [] UPGRADES (mkCalls 0 0)).1
     (filterAvailable stepOracle [] UPGRADES (mkCalls 0 0)).2 3
     = Some <$> ["movementSpeed"; "health"; "attackDamage"])
    by (vm_compute; reflexivity).
  assert (Hpicks2 : picksOf stepOracle
     (filterAvailable stepOracle [] UPGRADES (mkCalls 0 0)).1
     (filterAvailable stepOracle [] UPGRADES (mkCalls 0 0)).2 2
     = Some <$> ["movementSpeed"; "health"])
    by (vm_compute; reflexivity).
  assert (Hlen : (length (take 2 UPGRADES) < 3)%nat) by (simpl; lia).
  split_and!.
  - exact Hret.
  - exact (proj1 (proj2 (H2 _ _ Hret))).
  - exact Hpicks.
  - apply (H3 3%nat _ Hpicks). vm_compute. lia.
  - exact Hpicks2.
  - apply (H4 2%nat _ Hpicks2). vm_compute. lia.
  - exact Hlen.
  - exact (H5 _ _ _ _ _ Hlen).
Defined.

Lemma piercing_rehit_after_cooldown_witness :
  (* a first overlap: the counter is missing, the enemy is damaged *)
  (hitsEnemy (arrow true ∅) (skeletonAt "e1" 10) = true ∧
   canHit (arrow true ∅) "e1" = true ∧
   forall es' p' pl' brk,
     damageEnemies false (arrow true ∅) [skeletonAt "e1" 10]
       (player mountedWorld) = (es', p', pl', brk) ->
     es' !! 0%nat = Some (damaged (arrow true ∅) (skeletonAt "e1" 10)) ∧
     hitCooldownOf p' "e1" = Some 300) ∧
  (* 299 ticks after the hit the counter is down to 1, and the overlap of
     the 300th tick damages the enemy again *)
  (flight false (player mountedWorld)
     (replicate 299 ([skeletonAt "e1" 10], player mountedWorld))
     (arrow true {[ "e1" := 300 ]}) = Some (arrow true {[ "e1" := 1 ]}) ∧
   forall kept es' pl',
     processProjectile false (player mountedWorld)
       (arrow true {[ "e1" := 1 ]}) [skeletonAt "e1" 10]
       (player mountedWorld) = (kept, es', pl') ->
     es' !! 0%nat
       = Some (damaged (arrow true {[ "e1" := 1 ]}) (skeletonAt "e1" 10))) ∧
  (* in the tick right after the hit the overlap does nothing *)
  (forall kept es' pl',
     processProjectile false (player mountedWorld)
       (arrow true {[ "e1" := 300 ]}) [skeletonAt "e1" 10]
       (player mountedWorld) = (kept, es', pl') ->
     es' !! 0%nat = Some (skeletonAt "e1" 10)).
Proof.
  pose proof (piercing_rehit_after_cooldown false (player mountedWorld))
    as [H1 H2].
  assert (Hnd : NoDup (uuid <$> [skeletonAt "e1" 10]))
    by (apply NoDup_singleton).
  assert (Hfl : flight false (player mountedWorld)
     (replicate 299 ([skeletonAt "e1" 10], player mountedWorld))
     (arrow true {[ "e1" := 300 ]}) = Some (arrow true {[ "e1" := 1 ]}))
    by (vm_compute; reflexivity).
  split; [|split].
  - split; [reflexivity|]. split; [reflexivity|].
    intros es' p' pl' brk Hrun.
    exact (H1 (arrow true ∅) [skeletonAt "e1" 10] (player mountedWorld)
             es' p' pl' brk 0%nat (skeletonAt "e1" 10)
             eq_refl Hnd eq_refl eq_refl Hrun).
  - split; [exact Hfl|]. intros kept es' pl' Hrun.
    refine (H2 (arrow true {[ "e1" := 300 ]}) (arrow true {[ "e1" := 1 ]})
              (replicate 299 ([skeletonAt "e1" 10], player mountedWorld))
              [skeletonAt "e1" 10] (player mountedWorld) kept es' pl'
              0%nat (skeletonAt "e1" 10)
              eq_refl eq_refl _ _ Hfl eq_refl Hnd eq_refl eq_refl Hrun).
    + apply Forall_replicate. reflexivity.
    + rewrite length_replicate. lia.
  - intros kept es' pl' Hrun.
    refine (H2 (arrow true {[ "e1" := 300 ]}) (arrow true {[ "e1" := 300 ]})
              [] [skeletonAt "e1" 10] (player mountedWorld) kept es' pl'
              0%nat (skeletonAt "e1" 10)
              eq_refl eq_refl _ _ eq_refl eq_refl Hnd eq_refl eq_refl Hrun).
    + apply Forall_nil_2.
    + simpl. lia.
Defined.

Lemma nonpiercing_hits_first_enemy_only_witness :
  (caster (arrow false ∅) = uuid (player mountedWorld) ∧
   hitsEnemy (moveProjectile (arrow false ∅)) (skeletonAt "e0" 500) = false ∧
   hitsEnemy (moveProjectile (arrow false ∅)) (skeletonAt "e1" 10) = true ∧
   hitsEnemy (moveProjectile (arrow false ∅)) (skeletonAt "e2" 20) = true) ∧
  processProjectile false (player mountedWorld) (arrow false ∅)
    ([skeletonAt "e0" 500] ++ skeletonAt "e1" 10 :: [skeletonAt "e2" 20])
    (player mountedWorld) =
    (None,
     [skeletonAt "e0" 500] ++
       damaged (arrow false ∅) (skeletonAt "e1" 10) :: [skeletonAt "e2" 20],
     player mountedWorld).
Proof.
  split; [by split_and!|].
  assert (Hpre : Forall
    (fun e => hitsEnemy (moveProjectile (arrow false ∅)) e = false)
    [skeletonAt "e0" 500]).
  { apply Forall_singleton. reflexivity. }
  exact (proj1 (nonpiercing_hits_first_enemy_only false (player mountedWorld)
    (arrow false ∅) [skeletonAt "e0" 500] [skeletonAt "e2" 20]
    (skeletonAt "e1" 10) (player mountedWorld)
    eq_refl eq_refl Hpre eq_refl)).
Defined.

(** Run on the stored player itself, without the clone, the loop would
    write to it, and a second run would add once more. *)
Lemma upgradeLoop_on_the_stored_player_accumulates :
  health_max <$> readEntity storedPlayer 4 = Some 10 ∧
  (upgradeLoop 4 storedPlayer [("health"%string, 2)] ≫= fun h1 =>
   health_max <$> readEntity h1 4) = Some 30 ∧
  (upgradeLoop 4 storedPlayer [("health"%string, 2)] ≫= fun h1 =>
   upgradeLoop 4 h1 [("health"%string, 2)] ≫= fun h2 =>
   health_max <$> readEntity h2 4) = Some 50.
Proof. split_and!; reflexivity. Qed.

(** Were the [cooldown] of the stored player the very object of its
    [health], the copy would share it too, and the health upgrade would
    reach the cooldown of the result; the stored player would still be as
    it was. *)
Lemma memoBody_on_a_shared_object :
  cooldown_max <$> readEntity sharedPlayer 3 = Some 10 ∧
  (memoBody sharedPlayer 3 [("health"%string, 2)] ≫= fun r =>
   cooldown_max <$> readEntity r.1 r.2) = Some 30 ∧
  (memoBody sharedPlayer 3 [("health"%string, 2)] ≫= fun r =>
   cooldown_max <$> readEntity r.1 3) = Some 10.
Proof. split_and!; reflexivity. Qed.

Lemma playerWithUpgrades_pure_idempotent_witness :
  readEntity storedPlayer 4 = Some (initialPlayer "player") ∧
  unshared storedPlayer 4 ∧
  exists h' derived,
    memoBody storedPlayer 4 [("health"%string, 2)] = Some (h', derived) ∧
    storedPlayer `prefix_of` h' ∧
    readEntity h' 4 = Some (initialPlayer "player") ∧
    health_max <$> readEntity h' derived = Some 30 ∧
    exists h'' derived',
      memoBody h' 4 [("health"%string, 2)] = Some (h'', derived') ∧
      health_max <$> readEntity h'' derived' = Some 30 ∧
      health_max <$> readEntity h'' derived = Some 30 ∧
      health_max <$> readEntity h'' 4 = Some 10.
Proof.
  assert (Hr : readEntity storedPlayer 4 = Some (initialPlayer "player"))
    by reflexivity.
  assert (Hu : unshared storedPlayer 4) by discriminate.
  split_and!; [exact Hr | exact Hu |].
  destruct (playerWithUpgrades_pure_idempotent storedPlayer 4
              (initialPlayer "player") [("health"%string, 2)] Hr Hu)
    as (h' & d & H1 & H2 & _ & H4 & H5 & (h'' & d' & K1 & _ & K3 & K4 & K5)
        & _).
  exists h', d. split_and!; [exact H1 | exact H2 | exact H4 | |].
  - rewrite H5. reflexivity.
  - exists h'', d'. split_and!; [exact K1 | | |].
    + rewrite K3. reflexivity.
    + rewrite K4. reflexivity.
    + rewrite K5. reflexivity.
Defined.

Lemma paused_tick_changes_nothing_witness :
  upgradeSelection pausedWorld ≠ [] ∧
  tickEffect idleEnv (zeroOracle "t") pausedWorld = pausedWorld ∧
  exists w',
    interval idleEnv (zeroOracle "t") 0 (zeroOracle "x") (zeroOracle "x")
      pausedWorld = Returned w' ∧
    player w' = player pausedWorld ∧
    enemies w' ≡ₚ enemies pausedWorld ∧
    projectiles w' = projectiles pausedWorld ∧
    groundItems w' = groundItems pausedWorld ∧
    xp w' = xp pausedWorld.
Proof.
  assert (Hne : upgradeSelection pausedWorld ≠ []) by discriminate.
  split; [exact Hne|].
  destruct (paused_tick_changes_nothing idleEnv (zeroOracle "t") 0
              (zeroOracle "x") (zeroOracle "x") pausedWorld Hne)
    as (H1 & w' & H2 & H3 & H4 & H5 & H6 & H7 & _).
  split; [exact H1|]. exists w'.
  exact (conj H2 (conj H3 (conj H4 (conj H5 (conj H6 H7))))).
Defined.


Lemma player_health_has_no_floor_witness :
  upgradeSelection woundedWorld = [] ∧
  (exists delta, forall h,
     tickEffect idleEnv (zeroOracle "t") (withHealth h woundedWorld) =
       withHealth (Z.min (h + delta) (health_max (effective woundedWorld)))
         (tickEffect idleEnv (zeroOracle "t") woundedWorld)) ∧
  (caster (bolt "b1") ≠ uuid (player woundedWorld) ∧
   hitsPlayer (effective woundedWorld) (player woundedWorld)
     (moveProjectile (bolt "b1")) = true ∧
   processProjectile false (effective woundedWorld) (bolt "b1") []
     (player woundedWorld) =
     (None, [], set_health_current (fun h => h - 1) (player woundedWorld))).
Proof.
  pose proof (player_health_has_no_floor idleEnv (zeroOracle "t")
                woundedWorld eq_refl) as [H1 H2].
  assert (Hc : caster (bolt "b1") ≠ uuid (player woundedWorld))
    by discriminate.
  split_and!; [reflexivity | exact H1 | exact Hc | reflexivity |].
  exact (H2 false (effective woundedWorld) (bolt "b1") []
           (player woundedWorld) Hc eq_refl).
Defined.

(** C10 on the wounded player: two enemy projectiles take the health
    from 1 to -1; the next tick runs as usual (the reload goes on) and
    leaves the health at -1. *)
Lemma health_goes_and_stays_negative :
  health_current (player woundedWorld) = 1 ∧
  health_current (player woundedWorld1) = -1 ∧
  health_current (player woundedWorld2) = -1 ∧
  cooldown_current (player woundedWorld1)
    = cooldown_current (player woundedWorld) - 1 ∧
  cooldown_current (player woundedWorld2)
    = cooldown_current (player woundedWorld1) - 1.
Proof. vm_compute. split_and!; reflexivity. Qed.

(** ** The further properties on concrete inputs *)

Lemma playerWithUpgrades_order_irrelevant_witness :
  NoDup [("health"%string, 2); ("attackDamage"%string, 1)].*1 ∧
  playerWithUpgrades (player mountedWorld)
    [("health"%string, 2); ("attackDamage"%string, 1)] =
  playerWithUpgrades (player mountedWorld)
    [("attackDamage"%string, 1); ("health"%string, 2)].
Proof.
  assert (Hnd : NoDup [("health"%string, 2); ("attackDamage"%string, 1)].*1).
  { apply NoDup_cons. split; [|apply NoDup_singleton].
    intros H. apply list_elem_of_singleton in H. discriminate. }
  split; [exact Hnd|].
  apply (playerWithUpgrades_order_irrelevant (player mountedWorld) _ _ Hnd).
  apply perm_swap.
Defined.

Lemma playerWithUpgrades_radius_and_speed_witness :
  NoDup [("attackRadius"%string, 2)].*1 ∧
  attack_radius (attack (stats
    (playerWithUpgrades (player mountedWorld) [("attackRadius"%string, 2)])))
    = (16 + 16)%float ∧
  speed (stats
    (playerWithUpgrades (player mountedWorld) [("attackRadius"%string, 2)]))
    = 1%float.
Proof.
  assert (Hnd : NoDup [("attackRadius"%string, 2)].*1)
    by apply NoDup_singleton.
  split; [exact Hnd|].
  exact (playerWithUpgrades_radius_and_speed (player mountedWorld)
           [("attackRadius"%string, 2)] Hnd).
Defined.

Lemma getUpgradeById_finds_the_entry_witness :
  getUpgradeById "shield" = None ∧ "shield"%string ∉ u_id <$> UPGRADES.
Proof.
  split; [reflexivity|].
  exact (proj1 (proj2 (getUpgradeById_finds_the_entry "shield")) eq_refl).
Defined.

Lemma selectUpgrade_order_irrelevant_witness :
  NoDup (upgrades pausedWorld).*1 ∧
  levelOf (upgrades (selectUpgrade "health"
                       (selectUpgrade "attackDamage" pausedWorld))) "health" =
  levelOf (upgrades (selectUpgrade "attackDamage"
                       (selectUpgrade "health" pausedWorld))) "health" ∧
  effective (selectUpgrade "health" (selectUpgrade "attackDamage" pausedWorld))
    = effective (selectUpgrade "attackDamage"
                   (selectUpgrade "health" pausedWorld)).
Proof.
  assert (Hnd : NoDup (upgrades pausedWorld).*1) by apply NoDup_nil_2.
  split; [exact Hnd|].
  destruct (selectUpgrade_order_irrelevant "health" "attackDamage"
              pausedWorld Hnd) as (_ & H2 & H3).
  exact (conj (H2 "health"%string) H3).
Defined.

Lemma getEnemyByUUID_finds_the_enemy_witness :
  NoDup (uuid <$> [skeletonAt "e0" 500; skeletonAt "e1" 10]) ∧
  skeletonAt "e1" 10 ∈ [skeletonAt "e0" 500; skeletonAt "e1" 10] ∧
  getEnemyByUUID [skeletonAt "e0" 500; skeletonAt "e1" 10] "e1"
    = Some (skeletonAt "e1" 10).
Proof.
  assert (Hnd : NoDup (uuid <$> [skeletonAt "e0" 500; skeletonAt "e1" 10])).
  { apply NoDup_cons. split; [|apply NoDup_singleton].
    intros H. apply list_elem_of_singleton in H. discriminate. }
  assert (Hin : skeletonAt "e1" 10 ∈ [skeletonAt "e0" 500; skeletonAt "e1" 10])
    by (apply elem_of_cons; right; apply elem_of_cons; by left).
  split_and!; [exact Hnd | exact Hin |].
  exact (proj2 (proj2 (getEnemyByUUID_finds_the_enemy
                  [skeletonAt "e0" 500; skeletonAt "e1" 10] "e1"))
           (skeletonAt "e1" 10) Hnd Hin).
Defined.

Lemma processProjectiles_only_hurts_enemies_witness :
  Forall (fun p => 0 <= p_damage p) [arrow false ∅] ∧
  Forall2 hurt [skeletonAt "e1" 10]
    (processProjectiles false (player mountedWorld) [arrow false ∅]
       [skeletonAt "e1" 10] (player mountedWorld)).1.2.
Proof.
  assert (Hpre : Forall (fun p => 0 <= p_damage p) [arrow false ∅]).
  { apply Forall_singleton. simpl. lia. }
  split; [exact Hpre|].
  exact (processProjectiles_only_hurts_enemies false (player mountedWorld)
           [arrow false ∅] [skeletonAt "e1" 10] (player mountedWorld) Hpre).
Defined.

Lemma player_projectile_accounts_witness :
  caster (arrow true ∅) = uuid (player mountedWorld) ∧
  exists n : nat,
    (n <= 2)%nat ∧
    totalHealth (processProjectile true (player mountedWorld) (arrow true ∅)
                   [skeletonAt "e1" 10; skeletonAt "e2" 20]
                   (player mountedWorld)).1.2 =
      totalHealth [skeletonAt "e1" 10; skeletonAt "e2" 20]
        - Z.of_nat n * p_damage (arrow true ∅) ∧
    (processProjectile true (player mountedWorld) (arrow true ∅)
       [skeletonAt "e1" 10; skeletonAt "e2" 20] (player mountedWorld)).2 =
      set_health_current (fun h => h + Z.of_nat n) (player mountedWorld).
Proof.
  split; [reflexivity|].
  destruct (player_projectile_accounts true (player mountedWorld)
              (arrow true ∅) [skeletonAt "e1" 10; skeletonAt "e2" 20]
              (player mountedWorld) eq_refl) as (n & H1 & _ & H3 & H4).
  exists n. exact (conj H1 (conj H3 H4)).
Defined.

Lemma enemy_projectile_only_hurts_player_witness :
  caster (bolt "b1") ≠ uuid (player woundedWorld) ∧
  (processProjectile false (effective woundedWorld) (bolt "b1")
     [skeletonAt "e1" 10] (player woundedWorld)).1.2 = [skeletonAt "e1" 10] ∧
  (processProjectile false (effective woundedWorld) (bolt "b1")
     [skeletonAt "e1" 10] (player woundedWorld)).2 =
    set_health_current (fun h => h - 1) (player woundedWorld).
Proof.
  assert (Hc : caster (bolt "b1") ≠ uuid (player woundedWorld))
    by discriminate.
  split; [exact Hc|].
  exact (enemy_projectile_only_hurts_player false (effective woundedWorld)
           (bolt "b1") [skeletonAt "e1" 10] (player woundedWorld) Hc).
Defined.

Lemma player_fires_every_max_plus_one_witness :
  cooldown_current (initialPlayer "player") = 0 ∧
  0 <= cooldown_max (initialPlayer "player") ∧
  exists shot,
    autoAttacks 106 (zeroOracle "t") [] 0%float (initialPlayer "player")
      (initialPlayer "player") [] (mkCalls 0 0) =
      (initialPlayer "player", [] ++ [shot], tookUuid (mkCalls 0 0)) ∧
    caster shot = "player"%string ∧ isPiercing shot = false.
Proof.
  assert (Hmax : 0 <= cooldown_max (initialPlayer "player"))
    by (vm_compute; discriminate).
  split_and!; [reflexivity | exact Hmax |].
  destruct (player_fires_every_max_plus_one (zeroOracle "t") [] 0%float
              (initialPlayer "player") (initialPlayer "player") []
              (mkCalls 0 0) eq_refl Hmax) as (shot & H1 & H2 & H3 & _).
  exists shot. exact (conj H1 (conj H2 H3)).
Defined.

Lemma experience_stays_below_threshold_witness :
  reachable (host := snapHost) (walked 435) ∧
  (xp (walked 435) = 5 ∧ getMaxXp (walked 435) = 10 ∧
   0 <= xp (walked 435) < getMaxXp (walked 435)) ∧
  (xp (tickEffect (host := snapHost) walkEnv (oracleAt (walked 435))
         (setTick (walked 435))) = 10 ∧
   xp (walked 435)
     <= xp (tickEffect (host := snapHost) walkEnv (oracleAt (walked 435))
              (setTick (walked 435)))) ∧
  (interval (host := snapHost) walkEnv (oracleAt (walked 435)) 3
     drawOracle drawOracle (walked 435) = Returned pendingWorld ∧
   xp pendingWorld = 0 ∧
   level (stats (player pendingWorld))
     = level (stats (player (walked 435))) + 1 ∧
   upgradeSelection pendingWorld ≠ []).
Proof.
  destruct (experience_stays_below_threshold (host := snapHost) (walked 435)
              (walked_reachable 435)) as ((_ & H2 & _) & H3 & H4).
  destruct (H3 walkEnv (oracleAt (walked 435))) as (_ & H5 & _).
  assert (Hi : interval (host := snapHost) walkEnv (oracleAt (walked 435)) 3
                 drawOracle drawOracle (walked 435) = Returned pendingWorld)
    by (vm_compute; reflexivity).
  specialize (H4 _ _ _ _ _ _ Hi).
  assert (Hx : xp (tickEffect (host := snapHost) walkEnv
                     (oracleAt (walked 435)) (setTick (walked 435))) = 10)
    by (vm_compute; reflexivity).
  assert (Hm : getMaxXp (walked 435) = 10) by (vm_compute; reflexivity).
  rewrite Hx, Hm in H4. change (10 <=? 10) with true in H4.
  destruct H4 as (K1 & K2 & _ & K4).
  split_and!.
  - exact (walked_reachable 435).
  - vm_compute. reflexivity.
  - exact Hm.
  - exact (proj1 H2).
  - exact (proj2 H2).
  - exact Hx.
  - exact H5.
  - exact Hi.
  - exact K1.
  - exact K2.
  - exact K4.
Defined.

Lemma upgradeSelection_empty_or_three_witness :
  reachable (host := snapHost) pendingWorld ∧
  upgradeSelection pendingWorld
    = ["piercing"; "movementSpeed"; "health"]%string ∧
  (length (upgradeSelection pendingWorld) = 3%nat ∧
   NoDup (upgradeSelection pendingWorld)) ∧
  (exists u, getUpgradeById "piercing" = Some u ∧ u_id u = "piercing"%string) ∧
  levelOf (upgrades pendingWorld) "piercing" = 0.
Proof.
  destruct (upgradeSelection_empty_or_three (host := snapHost) pendingWorld
              pendingWorld_reachable) as (H1 & H2 & H3).
  assert (Hsel : upgradeSelection pendingWorld
                 = ["piercing"; "movementSpeed"; "health"]%string)
    by (vm_compute; reflexivity).
  assert (Hin : "piercing"%string ∈ upgradeSelection pendingWorld)
    by (rewrite Hsel; apply elem_of_cons; by left).
  split_and!.
  - exact pendingWorld_reachable.
  - exact Hsel.
  - destruct H1 as [H1|H1]; [|exact (proj1 H1)].
    rewrite Hsel in H1. discriminate H1.
  - destruct H1 as [H1|H1]; [|exact (proj2 H1)].
    rewrite Hsel in H1. discriminate H1.
  - exact (H2 _ Hin).
  - exact (H3 Hin).
Defined.

Lemma upgrades_hold_catalog_ids_witness :
  reachable (host := snapHost) chosenWorld ∧
  upgrades chosenWorld = [("piercing"%string, 1)] ∧
  NoDup (upgrades chosenWorld).*1 ∧
  ("piercing"%string ∈ u_id <$> UPGRADES ∧ 1 <= 1) ∧
  0 <= levelOf (upgrades chosenWorld) "health" ∧
  levelOf (upgrades chosenWorld) "piercing" <= 1.
Proof.
  destruct (upgrades_hold_catalog_ids (host := snapHost) chosenWorld
              chosenWorld_reachable) as (H1 & H2 & H3 & H4).
  assert (Hups : upgrades chosenWorld = [("piercing"%string, 1)])
    by (vm_compute; reflexivity).
  split_and!.
  - exact chosenWorld_reachable.
  - exact Hups.
  - exact H1.
  - apply (H2 "piercing"%string 1). rewrite Hups. apply elem_of_cons. by left.
  - apply (H2 "piercing"%string 1). rewrite Hups. apply elem_of_cons. by left.
  - exact (H3 "health"%string).
  - exact H4.
Defined.

Lemma one_upgrade_per_level_witness :
  (reachable (host := snapHost) pendingWorld ∧
   level (stats (player pendingWorld)) = 2 ∧
   pendingCount pendingWorld = 1 ∧
   sumLevels (upgrades pendingWorld) + pendingCount pendingWorld =
     level (stats (player pendingWorld)) - 1) ∧
  (reachable (host := snapHost) chosenWorld ∧
   level (stats (player chosenWorld)) = 2 ∧
   pendingCount chosenWorld = 0 ∧
   sumLevels (upgrades chosenWorld) + pendingCount chosenWorld =
     level (stats (player chosenWorld)) - 1).
Proof.
  split; split_and!.
  - exact pendingWorld_reachable.
  - vm_compute. reflexivity.
  - vm_compute. reflexivity.
  - exact (one_upgrade_per_level (host := snapHost) pendingWorld
             pendingWorld_reachable).
  - exact chosenWorld_reachable.
  - vm_compute. reflexivity.
  - vm_compute. reflexivity.
  - exact (one_upgrade_per_level (host := snapHost) chosenWorld
             chosenWorld_reachable).
Defined.

Lemma projectiles_stay_tidy_witness :
  reachable (tickEffect idleEnv (zeroOracle "t") (setTick mountedWorld)) ∧
  1 <= damage (attack (stats (effective
         (tickEffect idleEnv (zeroOracle "t") (setTick mountedWorld))))) ∧
  Forall (fun p => 1 <= p_damage p)
    (projectiles (tickEffect idleEnv (zeroOracle "t") (setTick mountedWorld))).
Proof.
  split; [exact secondWorld_reachable|].
  destruct (projectiles_stay_tidy _ secondWorld_reachable) as (H1 & H2).
  split; [exact H1|].
  eapply Forall_impl; [exact H2|]. intros p H. exact (proj1 H).
Defined.

Lemma enemies_and_items_stay_sound_witness :
  reachable mountedWorld ∧
  length (enemies mountedWorld) = 10%nat ∧
  Forall soundEnemy (enemies mountedWorld) ∧
  Forall soundItem (groundItems mountedWorld).
Proof.
  split; [exact mountedWorld_reachable|]. split; [reflexivity|].
  exact (enemies_and_items_stay_sound mountedWorld mountedWorld_reachable).
Defined.

Lemma interval_advances_tick_witness :
  1 <= level (stats (player pausedWorld)) ∧
  exists w',
    interval idleEnv (zeroOracle "t") 0 (zeroOracle "x") (zeroOracle "x")
      pausedWorld = Returned w' ∧
    tick w' = tick pausedWorld + 1 ∧
    upgrades w' = upgrades pausedWorld.
Proof.
  assert (Hl : 1 <= level (stats (player pausedWorld)))
    by (vm_compute; discriminate).
  split; [exact Hl|].
  exists (renderEffect (setTick pausedWorld)).
  assert (Hi : interval idleEnv (zeroOracle "t") 0 (zeroOracle "x")
                 (zeroOracle "x") pausedWorld
               = Returned (renderEffect (setTick pausedWorld)))
    by reflexivity.
  split; [exact Hi|].
  destruct (interval_advances_tick _ _ _ _ _ _ _ Hl Hi) as (H1 & H2 & _).
  exact (conj H1 H2).
Defined.
